(** * The chat-completions client of nanobot: [Client.complete]

    A shallow embedding of [func (c *Client) complete] of package
    [completions] (the OpenAI Chat Completions adapter) and the properties
    of its two decoding paths: the buffered JSON path and the SSE
    streaming path.

    Conventions of the embedding:
    - Go strings are byte strings: [string] of the Standard Library.
    - Go [int]/[int64] values are [Z].
    - A pointer that the code tests against [nil] is an [option].
    - [map[int]*ToolCall] is a [gmap Z ToolCall]; its entries are reachable
      only through the map, so storing values is faithful.
    - Calls into the sink ([progress.Send]) and into the error log
      ([log.Errorf]) are recorded in an effect trace, in call order; the
      debug dumps ([log.Messages], [log.Infof]) are left out.
    - A run either returns a value, returns a Go [error], or panics
      (index out of range, nil dereference).

    Besides [complete] the file embeds [NewClient] of the same package,
    [describeSession] of the agent UI server and the listener store of
    the UI, each with its own properties. *)

From Stdlib Require Import ZArith NArith Lia Ascii String.
From stdpp Require Import base gmap strings list fin_maps pretty.

Local Open Scope Z_scope.

(** ** Go string helpers ([strings] package) *)

(** [strings.HasPrefix s prefix]. *)
Definition HasPrefix (s prefix : string) : bool := String.prefix prefix s.

(** [strings.TrimPrefix s prefix]. *)
Definition TrimPrefix (s prefix : string) : string :=
  if HasPrefix s prefix
  then String.substring (String.length prefix)
         (String.length s - String.length prefix)%nat s
  else s.

Definition bytes_of_string (s : string) : list N :=
  N_of_ascii <$> list_ascii_of_string s.

Definition string_of_bytes (l : list N) : string :=
  string_of_list_ascii (ascii_of_N <$> l).

(** The six ASCII white-space bytes: tab, line feed, vertical tab, form
    feed, carriage return, space. *)
Definition asciiSpace (b : N) : bool :=
  ((9 <=? b) && (b <=? 13) || (b =? 32))%N.

(** U+0085 and U+00A0, encoded in UTF-8 on two bytes. *)
Definition latin1Space (b1 b2 : N) : bool :=
  ((b1 =? 194) && ((b2 =? 133) || (b2 =? 160)))%N.

(** The white-space runes above Latin-1, encoded in UTF-8 on three bytes:
    U+1680, U+2000..U+200A, U+2028, U+2029, U+202F, U+205F, U+3000. *)
Definition wideSpace (b1 b2 b3 : N) : bool :=
  ((b1 =? 225) && (b2 =? 154) && (b3 =? 128)
   || (b1 =? 226) && (b2 =? 128)
      && ((128 <=? b3) && (b3 <=? 138) || (b3 =? 168) || (b3 =? 169) || (b3 =? 175))
   || (b1 =? 226) && (b2 =? 129) && (b3 =? 159)
   || (b1 =? 227) && (b2 =? 128) && (b3 =? 128))%N.

(** Leading white-space runes removed ([strings.TrimLeftFunc] with
    [unicode.IsSpace]); an invalid or non-space rune stops the scan. *)
Fixpoint trimLeftSpace (s : list N) : list N :=
  match s with
  | [] => []
  | b1 :: t1 =>
      if asciiSpace b1 then trimLeftSpace t1 else
      match t1 with
      | [] => s
      | b2 :: t2 =>
          if latin1Space b1 b2 then trimLeftSpace t2 else
          match t2 with
          | [] => s
          | b3 :: t3 => if wideSpace b1 b2 b3 then trimLeftSpace t3 else s
          end
      end
  end.

(** The same scan from the end, on the reversed byte sequence: the last
    rune is decoded backwards, so the patterns are read right to left. *)
Fixpoint trimRightSpaceRev (r : list N) : list N :=
  match r with
  | [] => []
  | b1 :: t1 =>
      if asciiSpace b1 then trimRightSpaceRev t1 else
      match t1 with
      | [] => r
      | b2 :: t2 =>
          if latin1Space b2 b1 then trimRightSpaceRev t2 else
          match t2 with
          | [] => r
          | b3 :: t3 => if wideSpace b3 b2 b1 then trimRightSpaceRev t3 else r
          end
      end
  end.

(** [strings.TrimSpace]: leading and trailing Unicode white space removed. *)
Definition TrimSpace (s : string) : string :=
  string_of_bytes (rev (trimRightSpaceRev (rev (trimLeftSpace (bytes_of_string s))))).

(** JSON texts are written below with an apostrophe where JSON has a
    double quote; [json] puts the double quotes back. *)
Fixpoint json (s : string) : string :=
  match s with
  | EmptyString => EmptyString
  | String c s' =>
      String (if Ascii.eqb c "039"%char then "034"%char else c) (json s')
  end.

(** [fmt.Sprintf("%d", n)] for an integer. *)
Definition itoa (n : Z) : string := pretty n.

(** ** Line scanning ([bufio.Scanner] with the default [bufio.ScanLines]) *)

Definition newline : ascii := "010"%char.
Definition carriageReturn : ascii := "013"%char.

(** The newline-terminated lines of a byte string and the unterminated
    remainder after the last newline. *)
Fixpoint splitLines (s : string) : list string * string :=
  match s with
  | EmptyString => ([], EmptyString)
  | String c s' =>
      let '(ls, r) := splitLines s' in
      if Ascii.eqb c newline then (EmptyString :: ls, r)
      else match ls with
           | [] => ([], String c r)
           | l :: ls' => (String c l :: ls', r)
           end
  end.

(** [dropCR]: one trailing carriage return removed. *)
Definition dropCR (s : string) : string :=
  match rev (list_ascii_of_string s) with
  | c :: r => if Ascii.eqb c carriageReturn
              then string_of_list_ascii (rev r) else s
  | [] => s
  end.

(** [bufio.MaxScanTokenSize]: the scanner's buffer holds at most this many
    bytes, and a line has to fit in it together with its newline. *)
Definition MaxScanTokenSize : N := 65536.

Inductive ScanError :=
| ErrTooLong
| ErrRead (e : string).

(** What a [bufio.Scanner] shows through [Scan], [Text] and [Err]:
    the lines it yields, each with the error [Err] would report if the
    loop stopped right after that line, and the error it holds once [Scan]
    has returned false ([None] at a clean end of input). *)
Record Scanner := {
  scanned : list (string * option ScanError);
  scanErr : option ScanError;
}.

(** The body of an HTTP response: the bytes the transport delivers and the
    read error that follows them ([None]: plain end of file). The error
    is reported by a read of its own, after the last byte. *)
Record Body := {
  bodyData : string;
  bodyErr : option string;
}.

Definition fitsToken (l : string) : bool :=
  (N.of_nat (String.length l) <? MaxScanTokenSize)%N.

Fixpoint scanTerminated (ls : list string) (rest : Scanner) : Scanner :=
  match ls with
  | [] => rest
  | l :: ls' =>
      if fitsToken l
      then let r := scanTerminated ls' rest in
           {| scanned := (dropCR l, None) :: scanned r; scanErr := scanErr r |}
      else {| scanned := []; scanErr := Some ErrTooLong |}
  end.

(** The lines a scanner yields over an input: every terminated line,
    then the unterminated remainder when it is not empty. The remainder
    is yielded only once the scanner has met the end of the input, so it
    is the one line at which a read error is already held. *)
Definition scanBody (b : Body) : Scanner :=
  let '(ls, r) := splitLines (bodyData b) in
  let e := ErrRead <$> bodyErr b in
  scanTerminated ls
    (if decide (r = EmptyString) then {| scanned := []; scanErr := e |}
     else if fitsToken r then {| scanned := [(dropCR r, e)]; scanErr := e |}
     else {| scanned := []; scanErr := Some ErrTooLong |}).

(** ** The buffered reader ([bufio.Reader]) *)

Fixpoint takeBytes (n : nat) (s : string) : string :=
  match n, s with
  | S n', String c s' => String c (takeBytes n' s')
  | _, _ => EmptyString
  end.

Fixpoint dropBytes (n : nat) (s : string) : string :=
  match n, s with
  | S n', String c s' => dropBytes n' s'
  | _, _ => s
  end.

(** A [bufio.Reader]: the bytes it has pulled out of its source and not
    yet handed on, and the source with what it still holds. *)
Record Reader := {
  buffered : string;
  source : Body;
}.

(** [bufio.NewReader(body)]. *)
Definition NewReader (b : Body) : Reader :=
  {| buffered := EmptyString; source := b |}.

(** What is still to be read through a reader: its buffer, then its
    source. *)
Definition unread (rd : Reader) : Body :=
  {| bodyData := buffered rd +:+ bodyData (source rd);
     bodyErr := bodyErr (source rd) |}.

(** [reader.Peek(n)]: the next [n] bytes, pulled into the buffer and left
    there; with fewer than [n] bytes to come, what there is and the read
    error of the source. *)
Definition Peek (n : nat) (rd : Reader) : string * option string * Reader :=
  let all := bodyData (unread rd) in
  let err := bodyErr (source rd) in
  if decide (String.length all < n)%nat
  then (all, err, {| buffered := all;
                     source := {| bodyData := EmptyString; bodyErr := err |} |})
  else (takeBytes n all, None,
        {| buffered := takeBytes n all;
           source := {| bodyData := dropBytes n all; bodyErr := err |} |}).

(** [io.ReadAll(reader)]: everything still to be read, or the read error. *)
Definition ReadAll (rd : Reader) : string + string :=
  match bodyErr (unread rd) with
  | None => inl (bodyData (unread rd))
  | Some e => inr e
  end.

(** [bufio.NewScanner(reader)]. *)
Definition NewScanner (rd : Reader) : Scanner := scanBody (unread rd).

(** ** Outcomes and effects *)

Inductive PanicKind :=
| IndexOutOfRange
| NilDereference.

(** The errors [complete] returns, one constructor per [return nil, err]. *)
Inductive CallError :=
| ErrTransport (e : string)
| ErrStatus (status body : string)
| ErrPeek (e : string)
| ErrReadBody (e : string)
| ErrDecodeComplete
| ErrReadStreaming (e : ScanError).

Inductive Outcome (A : Type) :=
| Returned (a : A)
| Failed (e : CallError)
| Panicked (k : PanicKind).
Arguments Returned {A} a.
Arguments Failed {A} e.
Arguments Panicked {A} k.

(** * The agent UI server: [describeSession] (pkg/servers/agentui/agent.go)

    [describeSession] gives a thread its title. It returns a channel at
    once; the work is done by a goroutine that closes the channel when it
    is through. The embedding follows the body of the function and of the
    goroutine statement by statement and records, in call order, every
    call that leaves the function: the summary tool, the log, the session
    store, the database, the clock and the channel; [Panic] stands for the
    nil dereference of line 70 when the summary tool answers with neither
    a result nor an error. What the session, the
    runtime and the database answer is given by a record of answers, one
    field per call; the parent session is taken to exist. *)

Module AgentUI.

(** [mcp.Content], as far as the function reads it. *)
Record Content := {
  contentType : string;
  contentText : string;
}.

Section DescribeSession.

(** The arguments handed on to the summary tool, and the fields of a
    stored session besides its description. *)
Context {Args SessionFields : Type}.

(** The session as the database stores it. *)
Record DBSession := {
  Description : string;
  sessionFields : SessionFields;
}.

(** The answers of the collaborators during one call: a Go pair
    [(value, err)] is a pair of options, [None] for [nil]. *)
Record Answers := {
  (** [session.Get(types.DescriptionSessionKey, &description)]. *)
  storedDescription : string;
  (** [s.runtime.Call(ctx, "nanobot.summary", "nanobot.summary", args)]:
      the content of [ret], and [err]. *)
  summary : option (list Content) * option string;
  (** [session.Get(pkgsession.ManagerSessionKey, &manager)]. *)
  hasManager : bool;
  (** [session.State()]: the [ID] of [state], and [err]. *)
  sessionState : option string * option string;
  (** [manager.DB.Get(ctx, sessionID)]. *)
  dbGet : string → option DBSession * option string;
  (** [manager.DB.Update(ctx, dbSession)]. *)
  dbUpdate : DBSession → option string;
}.

Inductive Event :=
| CallSummary (server tool : string) (args : Args)
| LogError (format : string) (err : option string)
| LogInfo (format : string) (args : list string)
| SetDescription (description : string)
| DBGet (sessionID : string)
| DBUpdate (dbSession : DBSession)
| Sleep (milliseconds : Z)
| CloseResult
| Panic.

(** Lines 86-99. *)
Definition updateSession (w : Answers) (description sessionID : string)
    : list Event :=
  DBGet sessionID ::
  match dbGet w sessionID with
  | (_, Some err) => [LogError "Failed to get session from DB: %v" (Some err)]
  | (Some dbSession, None) =>
      let updated := {| Description := description;
                        sessionFields := sessionFields dbSession |} in
      LogInfo "Updating DB session description to: %q" [description]
      :: DBUpdate updated
      :: match dbUpdate w updated with
         | Some err => [LogError "Failed to update session in DB: %v" (Some err)]
         | None => [LogInfo "Successfully updated session description in DB" [];
                    Sleep 200]
         end
  | (None, None) => []
  end.

(** Lines 77-106. *)
Definition updateDatabase (w : Answers) (description : string) : list Event :=
  if hasManager w
  then LogInfo "Found manager in session" []
       :: match sessionState w with
          | (Some sessionID, None) =>
              LogInfo "Session ID: %s" [sessionID]
              :: (if decide (sessionID = "") then []
                  else updateSession w description sessionID)
          | (_, err) => [LogError "Failed to get session state: %v" err]
          end
  else [LogInfo "Manager not found in session" []].

(** Lines 70-109: the loop over the content of the summary, which ends
    at the first content of type [text]. *)
Fixpoint titleFrom (w : Answers) (contents : list Content) : list Event :=
  match contents with
  | [] => []
  | content :: rest =>
      if decide (contentType content = "text")
      then LogInfo "Generated title: %q" [contentText content]
           :: SetDescription (contentText content)
           :: updateDatabase w (contentText content)
      else titleFrom w rest
  end.

(** Lines 55-118, the goroutine included. *)
Definition describeSession (w : Answers) (args : Args) : list Event :=
  if decide (storedDescription w = "")
  then CallSummary "nanobot.summary" "nanobot.summary" args
       :: match summary w with
          | (_, Some err) =>
              [LogError "Failed to generate title: %v" (Some err); CloseResult]
          | (Some contents, None) => titleFrom w contents ++ [CloseResult]
          | (None, None) => [Panic]
          end
  else [CloseResult].

End DescribeSession.

End AgentUI.

(** * The thread update store (ui/src/lib/stores/threads.svelte.ts)

    [ThreadUpdateStore] keeps its listeners in an array. A listener is a
    JavaScript function, compared by identity ([!==]); the embedding
    takes listeners from any type with a decidable equality. *)

Module ThreadUpdateStore.

Section Store.

Context {Listener : Type} `{EqDecision Listener}.

(** The function [subscribe] returns: [this.listeners =
    this.listeners.filter((l) => l !== callback)]. *)
Definition unsubscribe (callback : Listener) (listeners : list Listener)
    : list Listener :=
  filter (λ l, l ≠ callback) listeners.

(** [subscribe(callback)]: the listeners after the [push], and the
    function that takes the subscription back. *)
Definition subscribe (callback : Listener) (listeners : list Listener)
    : list Listener * (list Listener → list Listener) :=
  (listeners ++ [callback], unsubscribe callback).

End Store.

End ThreadUpdateStore.

Section Completions.

(** Modelled from the spec: the type declarations of package
    [completions] ([Request], [Response], [StreamChunk], ...) are not among
    the sources. The records below hold what section 3 of the spec lists,
    under the field names and with the pointers [complete] touches them
    through. What the function only copies is kept abstract: the usage
    summary, the fields of the request other than the two it sets, and the
    progress token. *)
Context {Usage RequestFields Token : Type}.

(** *** Wire types *)

Record FunctionCall := {
  fnName : string;
  fnArguments : string;
}.

Record ToolCall := {
  tcIndex : option Z;
  tcID : string;
  tcType : string;
  tcFunction : FunctionCall;
}.

Record MessageContent := {
  Text : option string;
}.

Record Message := {
  Role : string;
  Content : MessageContent;
  ToolCalls : list ToolCall;
  Refusal : option string;
}.

Record Choice := {
  Index : Z;
  ChoiceMessage : option Message;
  FinishReason : option string;
}.

Record Response := {
  ID : string;
  Object : string;
  Created : Z;
  Model : string;
  SystemFingerprint : string;
  Choices : list Choice;
  ResponseUsage : option Usage;
}.

Record Delta := {
  deltaRole : string;
  deltaContent : option string;
  deltaToolCalls : list ToolCall;
  deltaRefusal : option string;
}.

Record StreamChoice := {
  scIndex : Z;
  scDelta : option Delta;
  scMessage : option Message;
  scFinishReason : option string;
}.

Record StreamChunk := {
  chunkID : string;
  chunkCreated : Z;
  chunkModel : string;
  chunkSystemFingerprint : string;
  chunkUsage : option Usage;
  chunkChoices : list StreamChoice;
}.

Record StreamOptions := {
  IncludeUsage : bool;
}.

Record Request := {
  Stream : bool;
  ReqStreamOptions : option StreamOptions;
  reqFields : RequestFields;
}.

(** *** Progress events ([types.CompletionProgress]) *)

Record ProgressContent := {
  contentType : string;
  contentText : string;
}.

Record ProgressToolCall := {
  CallID : string;
  callName : string;
  callArguments : string;
}.

Record CompletionItem := {
  itemID : string;
  Partial : bool;
  HasMore : bool;
  itemContent : option ProgressContent;
  itemToolCall : option ProgressToolCall;
}.

Record CompletionProgress := {
  progressModel : string;
  progressAgent : string;
  MessageID : string;
  Item : CompletionItem;
}.

Record CompletionOptions := {
  ProgressToken : option Token;
}.

(** *** The effect trace *)

Inductive Effect :=
| ProgressSent (p : CompletionProgress) (token : Token)
| ErrorLogged (data : string).

(** A computation: the effects it performed, in order, and how it ended. *)
Definition Go (A : Type) : Type := list Effect * Outcome A.

#[local] Instance Go_ret : MRet Go := λ A a, ([], Returned a).

#[local] Instance Go_bind : MBind Go := λ A B f m,
  match m with
  | (t, Returned a) => let '(t', o) := f a in (t ++ t', o)
  | (t, Failed e) => (t, Failed e)
  | (t, Panicked k) => (t, Panicked k)
  end.

Definition emit (e : Effect) : Go unit := ([e], Returned tt).
Definition fail {A} (e : CallError) : Go A := ([], Failed e).
Definition panic {A} (k : PanicKind) : Go A := ([], Panicked k).

Definition when (b : bool) (m : Go unit) : Go unit :=
  if b then m else mret tt.

(** Modelled from the spec: [progress.Send] of package [progress] is not
    among the sources. Per section 4.6 it dispatches the event to the sink,
    and a call with no configured continuation token is a no-op. *)
Definition Send (p : CompletionProgress) (token : option Token) : Go unit :=
  match token with
  | Some t => emit (ProgressSent p t)
  | None => mret tt
  end.

(** [log.Errorf(ctx, "failed to decode streaming chunk: %v: %s", err, data)]. *)
Definition Errorf (data : string) : Go unit := emit (ErrorLogged data).

(** *** The externals of one call *)

(** [json.Unmarshal] into a [StreamChunk] and into a [Response]: [None]
    when it returns an error. *)
Variable unmarshalStreamChunk : string → option StreamChunk.
Variable unmarshalResponse : string → option Response.

(** [time.Now().UnixNano()] at the moment an identifier is synthesised.
    The identifier of a response never goes back to empty, so a call
    reads the clock for it at most once. *)
Variable now : Z.

(** [fmt.Sprintf("chatcmpl-%d", time.Now().UnixNano())]. *)
Definition syntheticID : string := "chatcmpl-" +:+ itoa now.

(** *** Indexing with Go's bounds and nil checks *)

(** [cs[i]]. *)
Definition choiceAt (cs : list Choice) (i : Z) : Go Choice :=
  if decide (0 ≤ i)
  then match cs !! Z.to_nat i with
       | Some c => mret c
       | None => panic IndexOutOfRange
       end
  else panic IndexOutOfRange.

(** [*m] for a [*Message]. *)
Definition deref (m : option Message) : Go Message :=
  match m with
  | Some x => mret x
  | None => panic NilDereference
  end.

Definition setChoices (r : Response) (cs : list Choice) : Response :=
  {| ID := ID r; Object := Object r; Created := Created r; Model := Model r;
     SystemFingerprint := SystemFingerprint r; Choices := cs;
     ResponseUsage := ResponseUsage r |}.

Definition setID (r : Response) (id : string) : Response :=
  {| ID := id; Object := Object r; Created := Created r; Model := Model r;
     SystemFingerprint := SystemFingerprint r; Choices := Choices r;
     ResponseUsage := ResponseUsage r |}.

Definition setUsage (r : Response) (u : option Usage) : Response :=
  {| ID := ID r; Object := Object r; Created := Created r; Model := Model r;
     SystemFingerprint := SystemFingerprint r; Choices := Choices r;
     ResponseUsage := u |}.

Definition setMessage (c : Choice) (m : option Message) : Choice :=
  {| Index := Index c; ChoiceMessage := m; FinishReason := FinishReason c |}.

Definition setFinishReason (c : Choice) (f : option string) : Choice :=
  {| Index := Index c; ChoiceMessage := ChoiceMessage c; FinishReason := f |}.

Definition setRole (m : Message) (r : string) : Message :=
  {| Role := r; Content := Content m; ToolCalls := ToolCalls m;
     Refusal := Refusal m |}.

Definition setText (m : Message) (t : option string) : Message :=
  {| Role := Role m; Content := {| Text := t |}; ToolCalls := ToolCalls m;
     Refusal := Refusal m |}.

Definition setToolCalls (m : Message) (tcs : list ToolCall) : Message :=
  {| Role := Role m; Content := Content m; ToolCalls := tcs;
     Refusal := Refusal m |}.

Definition setRefusal (m : Message) (r : option string) : Message :=
  {| Role := Role m; Content := Content m; ToolCalls := ToolCalls m;
     Refusal := r |}.

(** [r.Choices[i] = c], after [r.Choices[i]] was read without panic. *)
Definition storeChoice (r : Response) (i : Z) (c : Choice) : Response :=
  setChoices r (<[Z.to_nat i := c]> (Choices r)).

(** *** One streaming call's state (lines 179-184) *)

Record StreamState := {
  resp : Response;
  initialized : bool;
  toolCalls : gmap Z ToolCall;
}.

(** [var resp Response]: the zero value. *)
Definition zeroResponse : Response :=
  {| ID := ""; Object := ""; Created := 0; Model := ""; SystemFingerprint := "";
     Choices := []; ResponseUsage := None |}.

Definition initialState : StreamState :=
  {| resp := zeroResponse; initialized := false; toolCalls := ∅ |}.

Definition hasToken (opt : CompletionOptions) : bool :=
  match ProgressToken opt with Some _ => true | None => false end.

Definition nonEmpty (s : string) : bool := bool_decide (s ≠ "").

(** *** Progress events *)

(** The text event of the normal path (lines 310-323). *)
Definition contentEvent (r : Response) (agentName : string) (idx : Z)
    (isFinished : bool) (fragment : string) : CompletionProgress :=
  {| progressModel := Model r; progressAgent := agentName; MessageID := ID r;
     Item := {| itemID := ID r +:+ "-" +:+ itoa idx;
                Partial := true; HasMore := negb isFinished;
                itemContent := Some {| contentType := "text"; contentText := fragment |};
                itemToolCall := None |} |}.

(** The tool-call event of the normal path (lines 350-364): call id and
    name of the accumulated entry, arguments of the new fragment. *)
Definition fragmentEvent (r : Response) (agentName : string) (index : Z)
    (isFinished : bool) (entry fragment : ToolCall) : CompletionProgress :=
  {| progressModel := Model r; progressAgent := agentName; MessageID := ID r;
     Item := {| itemID := ID r +:+ "-t-" +:+ itoa index;
                Partial := true; HasMore := negb isFinished;
                itemContent := None;
                itemToolCall := Some {| CallID := tcID entry;
                                        callName := fnName (tcFunction entry);
                                        callArguments := fnArguments (tcFunction fragment) |} |} |}.

(** The text event of a complete message; [itemID] is
    ["%s-%d"] on the streaming path (line 256) and ["%s-content"] on the
    buffered path (line 144). *)
Definition messageEvent (r : Response) (agentName suffix text : string)
    : CompletionProgress :=
  {| progressModel := Model r; progressAgent := agentName; MessageID := ID r;
     Item := {| itemID := ID r +:+ "-" +:+ suffix;
                Partial := false; HasMore := false;
                itemContent := Some {| contentType := "text"; contentText := text |};
                itemToolCall := None |} |}.

(** The event for one tool call of a complete message (lines 157-171 and
    269-283). *)
Definition toolCallEvent (r : Response) (agentName : string) (i : nat)
    (tc : ToolCall) : CompletionProgress :=
  {| progressModel := Model r; progressAgent := agentName; MessageID := ID r;
     Item := {| itemID := ID r +:+ "-t-" +:+ itoa (Z.of_nat i);
                Partial := false; HasMore := false;
                itemContent := None;
                itemToolCall := Some {| CallID := tcID tc;
                                        callName := fnName (tcFunction tc);
                                        callArguments := fnArguments (tcFunction tc) |} |} |}.

(** [for i, toolCall := range message.ToolCalls { progress.Send(...) }],
    from position [i] on. *)
Fixpoint sendToolCalls (opt : CompletionOptions) (r : Response)
    (agentName : string) (i : nat) (tcs : list ToolCall) : Go unit :=
  match tcs with
  | [] => mret tt
  | tc :: rest =>
      Send (toolCallEvent r agentName i tc) (ProgressToken opt);;
      sendToolCalls opt r agentName (S i) rest
  end.

(** *** The tool-call accumulator (lines 328-366) *)

(** [index := i; if toolCall.Index != nil { index = *toolCall.Index }]. *)
Definition fragmentIndex (i : nat) (tc : ToolCall) : Z :=
  default (Z.of_nat i) (tcIndex tc).

(** [&ToolCall{ID: ..., Type: ..., Function: FunctionCall{Name: ..., Arguments: ...}}]. *)
Definition newEntry (tc : ToolCall) : ToolCall :=
  {| tcIndex := None; tcID := tcID tc; tcType := tcType tc;
     tcFunction := {| fnName := fnName (tcFunction tc);
                      fnArguments := fnArguments (tcFunction tc) |} |}.

(** [entry.Function.Arguments += args]. *)
Definition appendArguments (entry : ToolCall) (args : string) : ToolCall :=
  {| tcIndex := tcIndex entry; tcID := tcID entry; tcType := tcType entry;
     tcFunction := {| fnName := fnName (tcFunction entry);
                      fnArguments := fnArguments (tcFunction entry) +:+ args |} |}.

Definition mergeFragment (acc : gmap Z ToolCall) (index : Z) (tc : ToolCall)
    : gmap Z ToolCall :=
  match acc !! index with
  | None => <[index := newEntry tc]> acc
  | Some entry => <[index := appendArguments entry (fnArguments (tcFunction tc))]> acc
  end.

(** [for i, toolCall := range delta.ToolCalls { ... }], from position [i] on. *)
Fixpoint mergeToolCalls (opt : CompletionOptions) (r : Response)
    (agentName : string) (isFinished : bool) (i : nat) (frags : list ToolCall)
    (acc : gmap Z ToolCall) : Go (gmap Z ToolCall) :=
  match frags with
  | [] => mret acc
  | tc :: rest =>
      let index := fragmentIndex i tc in
      let acc' := mergeFragment acc index tc in
      (if nonEmpty (ID r) && hasToken opt
       then match acc' !! index with
            | Some entry =>
                Send (fragmentEvent r agentName index isFinished entry tc)
                     (ProgressToken opt)
            | None => panic NilDereference
            end
       else mret tt);;
      mergeToolCalls opt r agentName isFinished (S i) rest acc'
  end.

(** *** One choice of one chunk (lines 232-377) *)

Definition isSome {A} (o : option A) : bool :=
  match o with Some _ => true | None => false end.

(** The quirk path (lines 240-287): a complete message in place of a delta. *)
Definition handleMessage (opt : CompletionOptions) (agentName : string)
    (choice : StreamChoice) (msg : Message) (r : Response) : Go Response :=
  let idx := scIndex choice in
  c ← choiceAt (Choices r) idx;
  let r1 := storeChoice r idx (setMessage c (Some msg)) in
  let r2 := if nonEmpty (ID r1) then r1 else setID r1 syntheticID in
  match ProgressToken opt, Text (Content msg) with
  | Some _, Some text =>
      Send (messageEvent r2 agentName (itoa idx) text) (ProgressToken opt)
  | _, _ => mret tt
  end;;
  sendToolCalls opt r2 agentName 0 (ToolCalls msg);;
  mret r2.

(** The normal path (lines 293-377): role, content, tool calls, finish
    reason, refusal, in that order. *)
Definition handleDelta (opt : CompletionOptions) (agentName : string)
    (choice : StreamChoice) (delta : Delta) (st : StreamState) : Go StreamState :=
  let idx := scIndex choice in
  let isFinished := isSome (scFinishReason choice) in
  let r := resp st in
  r1 ← (if nonEmpty (deltaRole delta)
        then c ← choiceAt (Choices r) idx;
             match ChoiceMessage c with
             | Some m =>
                 mret (storeChoice r idx
                         (setMessage c (Some (setRole m (deltaRole delta)))))
             | None => mret r
             end
        else mret r);
  r2 ← match deltaContent delta with
       | Some fragment =>
           c ← choiceAt (Choices r1) idx;
           m ← deref (ChoiceMessage c);
           let text := default "" (Text (Content m)) +:+ fragment in
           let r' := storeChoice r1 idx (setMessage c (Some (setText m (Some text)))) in
           when (nonEmpty (ID r') && hasToken opt)
                (Send (contentEvent r' agentName idx isFinished fragment)
                      (ProgressToken opt));;
           mret r'
       | None => mret r1
       end;
  acc ← mergeToolCalls opt r2 agentName isFinished 0 (deltaToolCalls delta) (toolCalls st);
  r3 ← match scFinishReason choice with
       | Some reason =>
           c ← choiceAt (Choices r2) idx;
           mret (storeChoice r2 idx (setFinishReason c (Some reason)))
       | None => mret r2
       end;
  r4 ← match deltaRefusal delta with
       | Some refusal =>
           c ← choiceAt (Choices r3) idx;
           m ← deref (ChoiceMessage c);
           mret (storeChoice r3 idx (setMessage c (Some (setRefusal m (Some refusal)))))
       | None => mret r3
       end;
  mret {| resp := r4; initialized := initialized st; toolCalls := acc |}.

Definition processChoice (opt : CompletionOptions) (agentName : string)
    (st : StreamState) (choice : StreamChoice) : Go StreamState :=
  if decide (Z.of_nat (length (Choices (resp st))) ≤ scIndex choice) then mret st
  else match scDelta choice, scMessage choice with
       | None, Some msg =>
           r ← handleMessage opt agentName choice msg (resp st);
           mret {| resp := r; initialized := initialized st; toolCalls := toolCalls st |}
       | None, None => mret st
       | Some delta, _ => handleDelta opt agentName choice delta st
       end.

Fixpoint processChoices (opt : CompletionOptions) (agentName : string)
    (choices : list StreamChoice) (st : StreamState) : Go StreamState :=
  match choices with
  | [] => mret st
  | choice :: rest =>
      st' ← processChoice opt agentName st choice;
      processChoices opt agentName rest st'
  end.

(** *** One decoded chunk (lines 207-378) *)

Definition assistantMessage : Message :=
  {| Role := "assistant"; Content := {| Text := None |}; ToolCalls := [];
     Refusal := None |}.

(** The response shell built from the first chunk (lines 209-216). *)
Definition shell (chunk : StreamChunk) : Response :=
  {| ID := chunkID chunk; Object := "chat.completion";
     Created := chunkCreated chunk; Model := chunkModel chunk;
     SystemFingerprint := chunkSystemFingerprint chunk;
     Choices := [ {| Index := 0; ChoiceMessage := Some assistantMessage;
                     FinishReason := None |} ];
     ResponseUsage := None |}.

(** Lines 207-228: the shell on the first chunk, the identifier
    backfilled, the usage overwritten. *)
Definition beginChunk (chunk : StreamChunk) (st : StreamState) : Response :=
  let r0 := if initialized st then resp st else shell chunk in
  let r1 := if negb (nonEmpty (ID r0)) && nonEmpty (chunkID chunk)
            then setID r0 (chunkID chunk) else r0 in
  match chunkUsage chunk with
  | Some u => setUsage r1 (Some u)
  | None => r1
  end.

Definition processChunk (opt : CompletionOptions) (agentName : string)
    (chunk : StreamChunk) (st : StreamState) : Go StreamState :=
  processChoices opt agentName (chunkChoices chunk)
    {| resp := beginChunk chunk st; initialized := true; toolCalls := toolCalls st |}.

(** *** The line loop (lines 186-379) *)

Definition dataPrefix : string := "data: ".
Definition doneSentinel : string := "[DONE]".

(** The payload of a line that carries the prefix. *)
Definition payload (line : string) : string :=
  TrimSpace (TrimPrefix line dataPrefix).

(** The loop returns the accumulated state and what [lines.Err()] reports
    where the loop stopped: at a [break], the error held at that line; at
    the end of the input, the scanner's final error. *)
Fixpoint readLines (opt : CompletionOptions) (agentName : string)
    (ls : list (string * option ScanError)) (fin : option ScanError)
    (st : StreamState) : Go (StreamState * option ScanError) :=
  match ls with
  | [] => mret (st, fin)
  | (line, held) :: rest =>
      if negb (HasPrefix line dataPrefix) then readLines opt agentName rest fin st
      else if decide (payload line = doneSentinel) then mret (st, held)
      else match unmarshalStreamChunk (payload line) with
           | None =>
               Errorf (payload line);;
               readLines opt agentName rest fin st
           | Some chunk =>
               st' ← processChunk opt agentName chunk st;
               readLines opt agentName rest fin st'
           end
  end.

(** *** The accumulator turned into a list (lines 386-391) *)

(** The zero [ToolCall] that [make([]ToolCall, n)] fills the list with. *)
Definition zeroToolCall : ToolCall :=
  {| tcIndex := None; tcID := ""; tcType := "";
     tcFunction := {| fnName := ""; fnArguments := "" |} |}.

(** [list[i] = tc], with Go's bounds check. *)
Definition storeToolCall (l : list ToolCall) (i : Z) (tc : ToolCall)
    : Go (list ToolCall) :=
  if decide (0 ≤ i < Z.of_nat (length l))
  then mret (<[Z.to_nat i := tc]> l)
  else panic IndexOutOfRange.

(** [for i, toolCall := range toolCalls { list[i] = *toolCall }] over the
    entries in the order the map iteration visits them. *)
Fixpoint fillToolCalls (entries : list (Z * ToolCall)) (l : list ToolCall)
    : Go (list ToolCall) :=
  match entries with
  | [] => mret l
  | (i, tc) :: rest =>
      l' ← storeToolCall l i tc;
      fillToolCalls rest l'
  end.

Definition toolCallsToSlice (entries : list (Z * ToolCall)) : Go (list ToolCall) :=
  fillToolCalls entries (replicate (length entries) zeroToolCall).

(** Go leaves the order of a map iteration open; [order] is the order one
    run happens to visit the entries in. *)
Definition finalizeIn (order : list (Z * ToolCall)) (r : Response) : Go Response :=
  if decide (0 < length order)%nat
  then c ← choiceAt (Choices r) 0;
       m ← deref (ChoiceMessage c);
       l ← toolCallsToSlice order;
       mret (storeChoice r 0 (setMessage c (Some (setToolCalls m l))))
  else mret r.

Definition finalize (st : StreamState) : Go Response :=
  finalizeIn (map_to_list (toolCalls st)) (resp st).

(** *** The streaming path (lines 178-398) *)

(** The loop, the check of [lines.Err()] and the conversion, over what
    the scanner yields. *)
Definition runScanner (opt : CompletionOptions) (agentName : string)
    (lines : Scanner) : Go Response :=
  '(st, err) ← readLines opt agentName (scanned lines) (scanErr lines) initialState;
  match err with
  | Some e => fail (ErrReadStreaming e)
  | None => finalize st
  end.

Definition completeStreaming (opt : CompletionOptions) (agentName : string)
    (reader : Reader) : Go Response :=
  runScanner opt agentName (NewScanner reader).

(** *** The buffered path (lines 116-176) *)

(** Lines 130-175: the decoded response given its identifier and
    published. *)
Definition publishComplete (opt : CompletionOptions) (agentName : string)
    (decoded : Response) : Go Response :=
  let r := if nonEmpty (ID decoded) then decoded
           else setID decoded syntheticID in
  match ProgressToken opt, Choices r with
  | Some _, choice :: _ =>
      match ChoiceMessage choice with
      | Some m =>
          match Text (Content m) with
          | Some text =>
              Send (messageEvent r agentName "content" text) (ProgressToken opt)
          | None => mret tt
          end
      | None => mret tt
      end;;
      m ← deref (ChoiceMessage choice);
      sendToolCalls opt r agentName 0 (ToolCalls m)
  | _, _ => mret tt
  end;;
  mret r.

Definition completeBuffered (opt : CompletionOptions) (agentName : string)
    (reader : Reader) : Go Response :=
  match ReadAll reader with
  | inr e => fail (ErrReadBody e)
  | inl bodyBytes =>
      match unmarshalResponse bodyBytes with
      | None => fail ErrDecodeComplete
      | Some decoded => publishComplete opt agentName decoded
      end
  end.

(** *** Format detection and the whole call (lines 67-399) *)

Record Config := {
  APIKey : string;
  BaseURL : string;
  Headers : gmap string string;
}.

(** The request handed to the transport: [Header] holds the pairs passed
    to [httpReq.Header.Set], [HTTPBody] the request whose JSON encoding is
    the body. *)
Record HTTPRequest := {
  Method : string;
  URL : string;
  Header : gmap string string;
  HTTPBody : Request;
}.

Record HTTPResponse := {
  StatusCode : Z;
  Status : string;
  ResponseBody : Body;
}.

(** The process and the network, as one call meets them: [apiVersion] is
    [os.Getenv("AZURE_OPENAI_API_VERSION")], and [Do] is
    [http.NewRequestWithContext] followed by [http.DefaultClient.Do],
    giving the response or the error of either. *)
Record Environment := {
  apiVersion : string;
  Do : HTTPRequest → HTTPResponse + string;
}.

(** Lines 72-73. *)
Definition forceStreaming (req : Request) : Request :=
  {| Stream := true; ReqStreamOptions := Some {| IncludeUsage := true |};
     reqFields := reqFields req |}.

(** Lines 78-93. *)
Definition buildHTTPRequest (env : Environment) (c : Config) (req : Request)
    : HTTPRequest :=
  let url := BaseURL c +:+ "/chat/completions" in
  {| Method := "POST";
     URL := if nonEmpty (apiVersion env)
            then url +:+ "?api-version=" +:+ apiVersion env else url;
     Header := Headers c;
     HTTPBody := req |}.

(** Line 114. *)
Definition isSSE (firstBytes : string) : bool :=
  HasPrefix (TrimSpace firstBytes) dataPrefix.

(** Lines 106-399: the body of a 200 response decoded. *)
Definition decodeBody (opt : CompletionOptions) (agentName : string)
    (body : Body) : Go Response :=
  match Peek 20 (NewReader body) with
  | (_, Some e, _) => fail (ErrPeek e)
  | (firstBytes, None, reader) =>
      if isSSE firstBytes
      then completeStreaming opt agentName reader
      else completeBuffered opt agentName reader
  end.

Definition complete (env : Environment) (c : Config) (agentName : string)
    (req : Request) (opt : CompletionOptions) : Go Response :=
  match Do env (buildHTTPRequest env c (forceStreaming req)) with
  | inr e => fail (ErrTransport e)
  | inl httpResp =>
      if decide (StatusCode httpResp = 200)
      then decodeBody opt agentName (ResponseBody httpResp)
      else fail (ErrStatus (Status httpResp) (bodyData (ResponseBody httpResp)))
  end.

(** *** The client (lines 22-50) *)

(** [type Client struct { Config }]. *)
Record Client := {
  ClientConfig : Config;
}.

Definition defaultBaseURL : string := "https://api.openai.com/v1".

(** [NewClient] fills the defaults in, in the order of lines 34-45. A nil
    [Headers] reads as the empty map, which is what line 38 puts in its
    place. The function works on its own copy of the configuration; that
    a map the caller passed is the very map the client keeps is not
    modelled. *)
Definition NewClient (cfg : Config) : Client :=
  let baseURL := if decide (BaseURL cfg = "") then defaultBaseURL else BaseURL cfg in
  let headers := Headers cfg in
  let headers :=
    match headers !! "Authorization" with
    | None =>
        if decide (APIKey cfg ≠ "")
        then <["Authorization" := "Bearer " +:+ APIKey cfg]> headers
        else headers
    | Some _ => headers
    end in
  let headers :=
    match headers !! "Content-Type" with
    | None => <["Content-Type" := "application/json"]> headers
    | Some _ => headers
    end in
  {| ClientConfig := {| APIKey := APIKey cfg; BaseURL := baseURL;
                        Headers := headers |} |}.

(** ** Sample streams

    A few SSE payloads with the chunk [json.Unmarshal] decodes each one
    into, and a decoder that knows exactly these. *)

Definition deltaChunk (id model : string) (index : Z) (d : Delta)
    (finish : option string) : StreamChunk :=
  {| chunkID := id; chunkCreated := 0; chunkModel := model;
     chunkSystemFingerprint := ""; chunkUsage := None;
     chunkChoices := [ {| scIndex := index; scDelta := Some d; scMessage := None;
                          scFinishReason := finish |} ] |}.

Definition messageChunk (id model : string) (index : Z) (m : Message)
    (finish : option string) : StreamChunk :=
  {| chunkID := id; chunkCreated := 0; chunkModel := model;
     chunkSystemFingerprint := ""; chunkUsage := None;
     chunkChoices := [ {| scIndex := index; scDelta := None; scMessage := Some m;
                          scFinishReason := finish |} ] |}.

Definition textDelta (fragment : string) : Delta :=
  {| deltaRole := ""; deltaContent := Some fragment; deltaToolCalls := [];
     deltaRefusal := None |}.

Definition toolDelta (frags : list ToolCall) : Delta :=
  {| deltaRole := ""; deltaContent := None; deltaToolCalls := frags;
     deltaRefusal := None |}.

Definition fragment (index : Z) (id type name args : string) : ToolCall :=
  {| tcIndex := Some index; tcID := id; tcType := type;
     tcFunction := {| fnName := name; fnArguments := args |} |}.

Definition textMessage (role text : string) : Message :=
  {| Role := role; Content := {| Text := Some text |}; ToolCalls := [];
     Refusal := None |}.

(** The delta that brings what a complete message holds. *)
Definition asDelta (m : Message) : Delta :=
  {| deltaRole := Role m; deltaContent := Text (Content m);
     deltaToolCalls := ToolCalls m; deltaRefusal := Refusal m |}.

Definition sampleHel : string :=
  json "{'id':'chatcmpl-7','model':'gpt-4o','choices':[{'index':0,'delta':{'content':'Hel'}}]}".
Definition sampleLo : string :=
  json "{'id':'chatcmpl-7','model':'gpt-4o','choices':[{'index':0,'delta':{'content':'lo'}}]}".
Definition sampleWorld : string :=
  json "{'id':'chatcmpl-7','model':'gpt-4o','choices':[{'index':0,'delta':{'content':' world'},'finish_reason':'stop'}]}".

Definition sampleA0 : string :=
  json "{'id':'chatcmpl-8','choices':[{'index':0,'delta':{'tool_calls':[{'index':0,'id':'call_a','type':'function','function':{'name':'f','arguments':'{\'a\':'}}]}}]}".
Definition sampleB0 : string :=
  json "{'id':'chatcmpl-8','choices':[{'index':0,'delta':{'tool_calls':[{'index':1,'id':'call_b','type':'function','function':{'name':'g','arguments':'{\'b\':'}}]}}]}".
Definition sampleA1 : string :=
  json "{'id':'chatcmpl-8','choices':[{'index':0,'delta':{'tool_calls':[{'index':0,'function':{'arguments':'1}'}}]}}]}".
Definition sampleB1 : string :=
  json "{'id':'chatcmpl-8','choices':[{'index':0,'delta':{'tool_calls':[{'index':1,'function':{'arguments':'2}'}}]}}]}".

Definition sampleNoID : string :=
  json "{'choices':[{'index':0,'delta':{'content':'hi'}}]}".
Definition sampleSparse : string :=
  json "{'id':'chatcmpl-9','choices':[{'index':0,'delta':{'tool_calls':[{'index':1,'function':{'arguments':'{}'}}]}}]}".
Definition sampleQuirk : string :=
  json "{'id':'chatcmpl-5','choices':[{'index':0,'message':{'role':'assistant','content':'hi'},'finish_reason':'stop'}]}".
Definition sampleQuirkAsDelta : string :=
  json "{'id':'chatcmpl-5','choices':[{'index':0,'delta':{'role':'assistant','content':'hi'},'finish_reason':'stop'}]}".
Definition sampleGarbage : string := json "{'id':".

Definition sampleChunks : list (string * StreamChunk) :=
  [ (sampleHel, deltaChunk "chatcmpl-7" "gpt-4o" 0 (textDelta "Hel") None);
    (sampleLo, deltaChunk "chatcmpl-7" "gpt-4o" 0 (textDelta "lo") None);
    (sampleWorld, deltaChunk "chatcmpl-7" "gpt-4o" 0 (textDelta " world") (Some "stop"));
    (sampleA0, deltaChunk "chatcmpl-8" "" 0
                 (toolDelta [fragment 0 "call_a" "function" "f" (json "{'a':")]) None);
    (sampleB0, deltaChunk "chatcmpl-8" "" 0
                 (toolDelta [fragment 1 "call_b" "function" "g" (json "{'b':")]) None);
    (sampleA1, deltaChunk "chatcmpl-8" "" 0 (toolDelta [fragment 0 "" "" "" "1}"]) None);
    (sampleB1, deltaChunk "chatcmpl-8" "" 0 (toolDelta [fragment 1 "" "" "" "2}"]) None);
    (sampleNoID, deltaChunk "" "" 0 (textDelta "hi") None);
    (sampleSparse, deltaChunk "chatcmpl-9" "" 0 (toolDelta [fragment 1 "" "" "" "{}"]) None);
    (sampleQuirk, messageChunk "chatcmpl-5" "" 0 (textMessage "assistant" "hi") (Some "stop"));
    (sampleQuirkAsDelta,
     deltaChunk "chatcmpl-5" "" 0 (asDelta (textMessage "assistant" "hi")) (Some "stop")) ].

Definition sampleUnmarshalStreamChunk (data : string) : option StreamChunk :=
  (list_to_map sampleChunks : gmap string StreamChunk) !! data.

(** A buffered body and the response it decodes into: the provider left
    the identifier empty. *)
Definition sampleComplete : string :=
  json "{'id':'','model':'gpt-4o','choices':[{'index':0,'message':{'role':'assistant','content':'hi'},'finish_reason':'stop'}]}".

Definition sampleUnmarshalResponse (data : string) : option Response :=
  if decide (data = sampleComplete)
  then Some {| ID := ""; Object := ""; Created := 0; Model := "gpt-4o";
               SystemFingerprint := "";
               Choices := [ {| Index := 0;
                               ChoiceMessage := Some (textMessage "assistant" "hi");
                               FinishReason := Some "stop" |} ];
               ResponseUsage := None |}
  else None.

(** An SSE line carrying a payload, and the sentinel line. *)
Definition dataLine (data : string) : string := dataPrefix +:+ data.
Definition doneLine : string := dataLine doneSentinel.

(** A body made of lines, each terminated by a newline. *)
Fixpoint bodyOf (ls : list string) : string :=
  match ls with
  | [] => EmptyString
  | l :: rest => l +:+ String newline (bodyOf rest)
  end.

(** * The vocabulary of the properties *)

(** The accumulator's keys are exactly [0 .. n-1]. *)
Definition dense (acc : gmap Z ToolCall) (n : nat) : Prop :=
  ∀ k : Z, is_Some (acc !! k) ↔ 0 ≤ k < Z.of_nat n.

(** A line that carries the sentinel. *)
Definition isDone (line : string) : Prop :=
  HasPrefix line dataPrefix = true ∧ payload line = doneSentinel.

(** A line whose payload is a chunk. *)
Definition decodesTo (line : string) (chunk : StreamChunk) : Prop :=
  HasPrefix line dataPrefix = true ∧ payload line ≠ doneSentinel
  ∧ unmarshalStreamChunk (payload line) = Some chunk.

(** A line whose payload is neither the sentinel nor a chunk. *)
Definition undecodable (line : string) : Prop :=
  HasPrefix line dataPrefix = true ∧ payload line ≠ doneSentinel
  ∧ unmarshalStreamChunk (payload line) = None.

(** The progress events of a trace, in order. *)
Definition progressEvents (t : list Effect) : list (CompletionProgress * Token) :=
  omap (λ e, match e with
             | ProgressSent p tok => Some (p, tok)
             | ErrorLogged _ => None
             end) t.

(** Two runs with the same outcome and the same progress events. *)
Definition sameResult {A} (x y : Go A) : Prop :=
  x.2 = y.2 ∧ progressEvents x.1 = progressEvents y.1.

(** Every effect of [m] satisfies [P], [m] does not return an error, and
    a value it returns satisfies [Q]. *)
Definition holds {A} (P : Effect → Prop) (Q : A → Prop) (m : Go A) : Prop :=
  Forall P m.1 ∧ (∀ e, m.2 ≠ Failed e) ∧ (∀ a, m.2 = Returned a → Q a).

(** The response has the one choice the shell gave it, and that choice
    has a message. *)
Definition wellFormed (r : Response) : Prop :=
  ∃ c m, Choices r = [c] ∧ ChoiceMessage c = Some m.

(** [r'] has the identifier and the model of [r], and is well formed when
    [r] is. *)
Definition keeps (r r' : Response) : Prop :=
  ID r' = ID r ∧ Model r' = Model r ∧ (wellFormed r → wellFormed r').

(** The accumulator after the fragments of one delta, from position [i]. *)
Fixpoint mergeAll (i : nat) (frags : list ToolCall) (acc : gmap Z ToolCall)
    : gmap Z ToolCall :=
  match frags with
  | [] => acc
  | tc :: rest => mergeAll (S i) rest (mergeFragment acc (fragmentIndex i tc) tc)
  end.

(** A progress event carries a message identifier that is not empty. *)
Definition identified (e : Effect) : Prop :=
  match e with
  | ProgressSent p _ => MessageID p ≠ ""
  | ErrorLogged _ => True
  end.

(** What a step of the stream does to the response: an identifier that
    is not empty stays, the model stays, and well-formedness stays. *)
Definition extends (r r' : Response) : Prop :=
  (nonEmpty (ID r) = true → ID r' = ID r)
  ∧ Model r' = Model r
  ∧ (wellFormed r → wellFormed r').

(** The state a stream is in between two chunks. *)
Definition relates (st st' : StreamState) : Prop :=
  extends (resp st) (resp st') ∧ initialized st' = initialized st.

(** The invariant of the loop: once a chunk was seen the response is well
    formed, and before that the accumulator is empty. *)
Definition invariant (st : StreamState) : Prop :=
  (initialized st = true → wellFormed (resp st))
  ∧ (initialized st = false → toolCalls st = ∅).

(** [m] returns a value, and the value satisfies [Q]. *)
Definition total {A} (Q : A → Prop) (m : Go A) : Prop :=
  ∃ t a, m = (t, Returned a) ∧ Q a.

(** The choices of a chunk carry no negative index. *)
Definition indexed (chunk : StreamChunk) : Prop :=
  Forall (λ choice, 0 ≤ scIndex choice) (chunkChoices chunk).

(** The message of a choice after one delta. *)
Definition deltaMessage (delta : Delta) (m : Message) : Message :=
  {| Role := if nonEmpty (deltaRole delta) then deltaRole delta else Role m;
     Content := {| Text := match deltaContent delta with
                           | Some f => Some (default "" (Text (Content m)) +:+ f)
                           | None => Text (Content m)
                           end |};
     ToolCalls := ToolCalls m;
     Refusal := match deltaRefusal delta with
                | Some x => Some x
                | None => Refusal m
                end |}.

(** The choice after one delta. *)
Definition deltaChoice (choice : StreamChoice) (delta : Delta) (c : Choice)
    (m : Message) : Choice :=
  {| Index := Index c;
     ChoiceMessage := Some (deltaMessage delta m);
     FinishReason := match scFinishReason choice with
                     | Some x => Some x
                     | None => FinishReason c
                     end |}.

(** The content event of one delta, if it is sent. *)
Definition contentTrace (opt : CompletionOptions) (r : Response)
    (agentName : string) (choice : StreamChoice) (delta : Delta) : list Effect :=
  match deltaContent delta, ProgressToken opt with
  | Some f, Some tok =>
      if nonEmpty (ID r)
      then [ProgressSent (contentEvent r agentName (scIndex choice)
                            (isSome (scFinishReason choice)) f) tok]
      else []
  | _, _ => []
  end.

(** The chunk has one choice, for index 0, with a delta. *)
Definition oneDelta (chunk : StreamChunk) (choice : StreamChoice) (delta : Delta)
    : Prop :=
  chunkChoices chunk = [choice] ∧ scIndex choice = 0 ∧ scDelta choice = Some delta.

(** The chunk delivers one content fragment, with or without a finish
    reason, and nothing for the accumulator. *)
Definition delivers (chunk : StreamChunk) (fragment : string)
    (finish : option string) : Prop :=
  ∃ choice delta, oneDelta chunk choice delta
    ∧ deltaContent delta = Some fragment ∧ deltaToolCalls delta = []
    ∧ scFinishReason choice = finish.

(** The chunk carries tool-call fragments and no content. *)
Definition carries (chunk : StreamChunk) (frags : list ToolCall) : Prop :=
  ∃ choice delta, oneDelta chunk choice delta
    ∧ deltaContent delta = None ∧ deltaToolCalls delta = frags.

(** The state of a stream that has an identifier and a text so far, and
    nothing in the accumulator. *)
Definition streaming (st : StreamState) (id model : string) (text : option string)
    : Prop :=
  initialized st = true ∧ ID (resp st) = id ∧ Model (resp st) = model
  ∧ toolCalls st = ∅
  ∧ ∃ c m, Choices (resp st) = [c] ∧ ChoiceMessage c = Some m
           ∧ Text (Content m) = text.

(** The partial event for a content fragment of choice 0. *)
Definition textEvent (id model agentName fragment : string) (finish : option string)
    : CompletionProgress :=
  {| progressModel := model; progressAgent := agentName; MessageID := id;
     Item := {| itemID := id +:+ "-0"; Partial := true;
                HasMore := negb (isSome finish);
                itemContent := Some {| contentType := "text"; contentText := fragment |};
                itemToolCall := None |} |}.

(** The text accumulated for choice 0. *)
Definition choiceText (r : Response) : option string :=
  c ← Choices r !! 0%nat; m ← ChoiceMessage c; Text (Content m).

(** What a progress event of the normal path looks like: partial, under
    the identifier of the response, with the fragment of this very delta
    as its text, or with the arguments of one of the tool-call fragments
    of this very delta. *)
Definition reportsDelta (id : string) (delta : Delta) (e : Effect) : Prop :=
  ∃ p tok, e = ProgressSent p tok ∧ MessageID p = id ∧ Partial (Item p) = true
    ∧ ((∃ f, deltaContent delta = Some f
             ∧ itemContent (Item p) = Some {| contentType := "text"; contentText := f |}
             ∧ itemToolCall (Item p) = None)
       ∨ (∃ tc call, tc ∈ deltaToolCalls delta
             ∧ itemToolCall (Item p) = Some call
             ∧ callArguments call = fnArguments (tcFunction tc)
             ∧ itemContent (Item p) = None)).

(** The response given an identifier when it has none (lines 245-247). *)
Definition identify (r : Response) : Response :=
  if nonEmpty (ID r) then r else setID r syntheticID.

(** The chunks a stream decodes to, in order, up to the first sentinel. *)
Fixpoint chunksOf (ls : list (string * option ScanError)) : list StreamChunk :=
  match ls with
  | [] => []
  | (line, _) :: rest =>
      if negb (HasPrefix line dataPrefix) then chunksOf rest
      else if decide (payload line = doneSentinel) then []
      else match unmarshalStreamChunk (payload line) with
           | None => chunksOf rest
           | Some chunk => chunk :: chunksOf rest
           end
  end.

(** What [lines.Err()] reports where the loop stops: the error held at
    the first sentinel, or the final error of the scanner. *)
Fixpoint stopsWith (ls : list (string * option ScanError))
    (fin : option ScanError) : option ScanError :=
  match ls with
  | [] => fin
  | (line, held) :: rest =>
      if HasPrefix line dataPrefix && bool_decide (payload line = doneSentinel)
      then held else stopsWith rest fin
  end.

(** Chunks processed one after the other. *)
Fixpoint processChunks (opt : CompletionOptions) (agentName : string)
    (chunks : list StreamChunk) (st : StreamState) : Go StreamState :=
  match chunks with
  | [] => mret st
  | chunk :: rest =>
      st' ← processChunk opt agentName chunk st;
      processChunks opt agentName rest st'
  end.

(** The delta reads or writes the choice it names: it brings a role,
    content, a finish reason or a refusal. *)
Definition touchesChoice (choice : StreamChoice) (delta : Delta) : bool :=
  nonEmpty (deltaRole delta) || isSome (deltaContent delta)
  || isSome (scFinishReason choice) || isSome (deltaRefusal delta).

(** What a chunk may do to a choice: the index stays, and a message or a
    finish reason that is there is not taken away. *)
Definition sameChoice (c c' : Choice) : Prop :=
  Index c' = Index c
  ∧ (is_Some (ChoiceMessage c) → is_Some (ChoiceMessage c'))
  ∧ (is_Some (FinishReason c) → is_Some (FinishReason c')).

(** What the choices of a chunk may do to the response: everything stays
    but an empty identifier and, choice by choice, the messages and the
    finish reasons. *)
Definition framed (r r' : Response) : Prop :=
  Object r' = Object r ∧ Created r' = Created r ∧ Model r' = Model r
  ∧ SystemFingerprint r' = SystemFingerprint r
  ∧ ResponseUsage r' = ResponseUsage r
  ∧ (nonEmpty (ID r) = true → ID r' = ID r)
  ∧ (ID r' = ID r ∨ ID r' = syntheticID)
  ∧ Forall2 sameChoice (Choices r) (Choices r').

(** The usage of the last chunk that brings one. *)
Definition lastUsage (chunks : list StreamChunk) (u : option Usage) : option Usage :=
  foldl (λ u chunk, match chunkUsage chunk with Some x => Some x | None => u end)
        u chunks.

(** A progress event sent to the configured token in the name of the
    agent, under a message identifier that is not empty, and with a
    model. *)
Definition stamped (opt : CompletionOptions) (agentName id model : string)
    (e : Effect) : Prop :=
  match e with
  | ProgressSent p tok =>
      ProgressToken opt = Some tok ∧ progressAgent p = agentName
      ∧ MessageID p = id ∧ id ≠ "" ∧ progressModel p = model
  | ErrorLogged _ => True
  end.

(** A computation that starts at the response [r] and whose events are
    all stamped with one identifier and the model of [r]: the identifier
    of the response it returns, seen through [view], which is the one of
    [r] when that is not empty. *)
Definition settles {A} (opt : CompletionOptions) (agentName : string)
    (view : A → Response) (r : Response) (m : Go A) : Prop :=
  match m.2 with
  | Returned a =>
      Model (view a) = Model r
      ∧ (nonEmpty (ID r) = true → ID (view a) = ID r)
      ∧ Forall (stamped opt agentName (ID (view a)) (Model r)) m.1
  | _ =>
      ∃ id, (nonEmpty (ID r) = true → id = ID r)
            ∧ Forall (stamped opt agentName id (Model r)) m.1
  end.

(** The fragments of one delta that are addressed to the key [k], in
    order; [i] is the position of the first fragment in the delta. *)
Fixpoint fragmentsAt (k : Z) (i : nat) (frags : list ToolCall) : list ToolCall :=
  match frags with
  | [] => []
  | tc :: rest =>
      if decide (fragmentIndex i tc = k)
      then tc :: fragmentsAt k (S i) rest
      else fragmentsAt k (S i) rest
  end.

(** The arguments of the fragments, one after the other. *)
Definition argumentsOf (frags : list ToolCall) : string :=
  foldr (λ tc s, fnArguments (tcFunction tc) +:+ s) "" frags.

(** The entry of the accumulator after the fragments addressed to it: the
    entry that was there, or else the one made from the first fragment,
    with the arguments of the others appended. *)
Definition absorbed (entry : option ToolCall) (frags : list ToolCall)
    : option ToolCall :=
  match entry, frags with
  | Some e, _ => Some (appendArguments e (argumentsOf frags))
  | None, [] => None
  | None, first :: later => Some (appendArguments (newEntry first) (argumentsOf later))
  end.

(** The fragments a choice of a chunk brings to the accumulator of a
    response with one choice: those of its delta, unless the guard of
    line 232 skips the choice. *)
Definition choiceFragments (choice : StreamChoice) : list ToolCall :=
  if decide (1 ≤ scIndex choice) then []
  else match scDelta choice with
       | Some delta => deltaToolCalls delta
       | None => []
       end.

(** The fragments of a stream that are addressed to the key [k], in the
    order of arrival. *)
Definition addressed (k : Z) (chunks : list StreamChunk) : list ToolCall :=
  chunk ← chunks; choice ← chunkChoices chunk; fragmentsAt k 0 (choiceFragments choice).

(** The one choice the shell gives a response (line 215). *)
Definition shellChoice : Choice :=
  {| Index := 0; ChoiceMessage := Some assistantMessage; FinishReason := None |}.

(** What one choice of a chunk does to the one choice of the response:
    nothing when the guard of line 232 skips it, the delta applied, or
    the message put in the place of the one that was there. *)
Definition choiceAfter (c : Choice) (choice : StreamChoice) : Choice :=
  if decide (1 ≤ scIndex choice) then c
  else match scDelta choice, scMessage choice, ChoiceMessage c with
       | Some delta, _, Some m => deltaChoice choice delta c m
       | None, Some msg, _ => setMessage c (Some msg)
       | _, _, _ => c
       end.

(** The choices of all the chunks, in order. *)
Definition choicesOf (chunks : list StreamChunk) : list StreamChoice :=
  chunk ← chunks; chunkChoices chunk.

(** The tool-call fragments of a stream, in the order of their arrival. *)
Definition fragmentsOf (chunks : list StreamChunk) : list ToolCall :=
  chunk ← chunks; choice ← chunkChoices chunk; choiceFragments choice.

(** The events of a complete message: its text, if it has one, and then
    its tool calls, one event each, numbered from zero. *)
Definition completeEvents (r : Response) (agentName : string) (tok : Token)
    (m : Message) : list Effect :=
  match Text (Content m) with
  | Some text => [ProgressSent (messageEvent r agentName "content" text) tok]
  | None => []
  end
  ++ imap (λ i tc, ProgressSent (toolCallEvent r agentName i tc) tok) (ToolCalls m).

(** The header [NewClient] supplies for a key the caller left out. *)
Definition defaultHeader (cfg : Config) (key : string) : option string :=
  if decide (key = "Authorization")
  then (if decide (APIKey cfg = "") then None else Some ("Bearer " +:+ APIKey cfg))
  else if decide (key = "Content-Type") then Some "application/json"
  else None.

(** A choice of a chunk that brings a complete message in the place of
    a delta to a response with one choice. *)
Definition quirkChoice (choice : StreamChoice) : bool :=
  bool_decide (scIndex choice < 1)
  && negb (isSome (scDelta choice)) && isSome (scMessage choice).

(** The identifier of the response after one more chunk: the one it had,
    or else the one of the chunk, or else, when the chunk brings a
    complete message, the synthetic one. *)
Definition idAfter (id : string) (chunk : StreamChunk) : string :=
  let id1 := if nonEmpty id then id else chunkID chunk in
  if nonEmpty id1 then id1
  else if existsb quirkChoice (chunkChoices chunk) then syntheticID else "".

(** * Properties *)

(** ** The computation monad *)

Lemma bind_mret {A B} (a : A) (f : A → Go B) : (mret a ≫= f) = f a.
Proof. unfold mbind, mret, Go_bind, Go_ret. by destruct (f a). Qed.

Lemma bind_returned {A B} (t : list Effect) (a : A) (f : A → Go B) :
  ((t, Returned a) ≫= f) = (t ++ (f a).1, (f a).2).
Proof. unfold mbind, Go_bind. by destruct (f a). Qed.

Lemma bind_failed {A B} (t : list Effect) (e : CallError) (f : A → Go B) :
  ((t, Failed e) ≫= f) = (t, Failed e).
Proof. done. Qed.

Lemma bind_panicked {A B} (t : list Effect) (k : PanicKind) (f : A → Go B) :
  ((t, Panicked k) ≫= f) = (t, Panicked k).
Proof. done. Qed.

Lemma Go_eta {A} (m : Go A) : m = (m.1, m.2).
Proof. by destruct m. Qed.

(** ** The buffered reader *)

Lemma append_String (c : ascii) (a b : string) :
  String c a +:+ b = String c (a +:+ b).
Proof. done. Qed.

Lemma append_empty_l (s : string) : EmptyString +:+ s = s.
Proof. done. Qed.

Lemma append_empty_r (s : string) : s +:+ EmptyString = s.
Proof.
  induction s as [|c s IH]; [done|]. by rewrite append_String, IH.
Qed.

Lemma takeBytes_dropBytes (n : nat) (s : string) :
  takeBytes n s +:+ dropBytes n s = s.
Proof.
  revert s. induction n as [|n IH]; intros [|c s]; try done.
  cbn [takeBytes dropBytes]. by rewrite append_String, IH.
Qed.

Lemma takeBytes_all (n : nat) (s : string) :
  (String.length s < n)%nat → takeBytes n s = s.
Proof.
  revert s. induction n as [|n IH]; intros [|c s]; simpl; try done; try lia.
  intros H. f_equal. apply IH. lia.
Qed.

(** A peek hands out the first bytes and leaves everything to be read. *)
Lemma unread_Peek (n : nat) (b : Body) :
  unread (Peek n (NewReader b)).2 = b.
Proof.
  destruct b as [data err]. unfold Peek, NewReader, unread. simpl.
  rewrite append_empty_l. case_decide; simpl.
  - by rewrite append_empty_r.
  - by rewrite takeBytes_dropBytes.
Qed.

Lemma Peek_first (n : nat) (b : Body) :
  bodyErr b = None → (Peek n (NewReader b)).1 = (takeBytes n (bodyData b), None).
Proof.
  destruct b as [data err]. unfold Peek, NewReader, unread. simpl. intros ->.
  rewrite append_empty_l. case_decide; simpl; [|done]. by rewrite takeBytes_all.
Qed.

(** What a peek into a fresh reader returns: the first [n] bytes, or all
    there are together with the way the body ended. *)
Lemma Peek_NewReader (n : nat) (b : Body) :
  (Peek n (NewReader b)).1
  = (takeBytes n (bodyData b),
     if decide (String.length (bodyData b) < n)%nat then bodyErr b else None).
Proof.
  destruct b as [data err]. unfold Peek, NewReader, unread. simpl.
  rewrite append_empty_l. case_decide; simpl; [|done]. by rewrite takeBytes_all.
Qed.

(** ** Format detection *)

(** C8, as amended. The peek hands out the first twenty bytes of the
    body, or the whole body when it is shorter, and leaves the whole body
    to be read by the decoder. It fails only for a body of fewer than
    twenty bytes whose read ends in an error: the call then fails with
    the peek error and takes neither path. In every other case the call
    is the streaming run over the lines of the whole body when the
    white-space-trimmed first bytes start with ["data: "], and otherwise
    the buffered path over the whole body, which fails with the read
    error when the body cannot be read to its end and with the decode
    error when it is not a JSON response. *)
Theorem format_detection (opt : CompletionOptions) (agentName : string)
    (body : Body) :
  let peeked := Peek 20 (NewReader body) in
  let firstBytes := peeked.1.1 in
  let err := peeked.1.2 in
  firstBytes = takeBytes 20 (bodyData body)
  ∧ err = (if decide (String.length (bodyData body) < 20)%nat
           then bodyErr body else None)
  ∧ unread peeked.2 = body
  ∧ decodeBody opt agentName body
    = match err with
      | Some e => ([], Failed (ErrPeek e))
      | None =>
          if HasPrefix (TrimSpace firstBytes) "data: "
          then runScanner opt agentName (scanBody body)
          else match bodyErr body with
               | Some e => ([], Failed (ErrReadBody e))
               | None =>
                   match unmarshalResponse (bodyData body) with
                   | Some decoded => publishComplete opt agentName decoded
                   | None => ([], Failed ErrDecodeComplete)
                   end
               end
      end.
Proof.
  cbv zeta.
  pose proof (Peek_NewReader 20 body) as Hfirst.
  pose proof (unread_Peek 20 body) as Hunread.
  unfold decodeBody.
  set (firstBytes := takeBytes 20 (bodyData body)) in *.
  set (err := if decide (String.length (bodyData body) < 20)%nat
              then bodyErr body else None) in *.
  clearbody firstBytes err.
  destruct (Peek 20 (NewReader body)) as [[fb e] rd]. cbn [fst snd] in *.
  assert (fb = firstBytes) as -> by exact (f_equal fst Hfirst).
  assert (e = err) as -> by exact (f_equal snd Hfirst).
  split; [done|]. split; [done|]. split; [exact Hunread|].
  destruct err as [e|]; [done|].
  unfold isSSE, dataPrefix.
  destruct (HasPrefix (TrimSpace firstBytes) "data: ").
  - unfold completeStreaming, NewScanner. by rewrite Hunread.
  - unfold completeBuffered, ReadAll. rewrite Hunread.
    by destruct (bodyErr body).
Qed.

(** ** The wire request *)

Lemma forceStreaming_flags (req : Request) :
  Stream (forceStreaming req) = true
  ∧ ReqStreamOptions (forceStreaming req) = Some {| IncludeUsage := true |}.
Proof. done. Qed.

(** C9. Whatever the request and the caller's options, the call hands
    the transport one request, and that request has [stream] true and
    [stream_options.include_usage] true, with the other fields of the
    caller's request as they were: the call is the transport's answer to
    this very request, turned into the transport error, the status error
    or the decoded body. So a transport that refuses every request with
    both flags set makes every call fail with its refusal, whatever the
    caller asked for; and the call asks the transport for nothing else: a
    transport that agrees with this one on every request with both flags
    set gives the same call. *)
Theorem wire_request_streams (env : Environment) (c : Config)
    (agentName : string) (req : Request) (opt : CompletionOptions) :
  let sent := buildHTTPRequest env c (forceStreaming req) in
  Stream (HTTPBody sent) = true
  ∧ ReqStreamOptions (HTTPBody sent) = Some {| IncludeUsage := true |}
  ∧ reqFields (HTTPBody sent) = reqFields req
  ∧ complete env c agentName req opt
    = match Do env sent with
      | inr e => ([], Failed (ErrTransport e))
      | inl httpResp =>
          if decide (StatusCode httpResp = 200)
          then decodeBody opt agentName (ResponseBody httpResp)
          else ([], Failed (ErrStatus (Status httpResp)
                              (bodyData (ResponseBody httpResp))))
      end
  ∧ (∀ (env' : Environment) (refusal : string),
       (∀ r : HTTPRequest,
          Stream (HTTPBody r) = true →
          ReqStreamOptions (HTTPBody r) = Some {| IncludeUsage := true |} →
          Do env' r = inr refusal) →
       complete env' c agentName req opt = ([], Failed (ErrTransport refusal)))
  ∧ ∀ env' : Environment,
      apiVersion env' = apiVersion env →
      (∀ r : HTTPRequest,
         Stream (HTTPBody r) = true →
         ReqStreamOptions (HTTPBody r) = Some {| IncludeUsage := true |} →
         Do env' r = Do env r) →
      complete env' c agentName req opt = complete env c agentName req opt.
Proof.
  intros sent. split; [done|]. split; [done|]. split; [done|]. split_and!.
  - unfold complete. fold sent. destruct (Do env sent) as [httpResp|e]; [|done].
    by case_decide.
  - intros env' refusal Hrefuse. unfold complete.
    by rewrite (Hrefuse (buildHTTPRequest env' c (forceStreaming req))).
  - intros env' Hversion Hagree. unfold complete.
    assert (buildHTTPRequest env' c (forceStreaming req) = sent) as ->.
    { unfold sent, buildHTTPRequest. by rewrite Hversion. }
    fold sent. by rewrite (Hagree sent).
Qed.

(** ** The accumulator turned into a list *)

Lemma storeToolCall_inrange (l : list ToolCall) (i : Z) (tc : ToolCall) :
  0 ≤ i < Z.of_nat (length l) →
  storeToolCall l i tc = mret (<[Z.to_nat i := tc]> l).
Proof. intros H. unfold storeToolCall. by rewrite decide_True. Qed.

Lemma storeToolCall_outside (l : list ToolCall) (i : Z) (tc : ToolCall) :
  ¬ (0 ≤ i < Z.of_nat (length l)) →
  storeToolCall l i tc = ([], Panicked IndexOutOfRange).
Proof. intros H. unfold storeToolCall. by rewrite decide_False. Qed.

(** Writes at distinct in-range indices: every entry lands at its own
    index, and the rest of the list is untouched. *)
Lemma fillToolCalls_inrange (entries : list (Z * ToolCall)) (l : list ToolCall) :
  NoDup entries.*1 →
  (∀ i tc, (i, tc) ∈ entries → 0 ≤ i < Z.of_nat (length l)) →
  ∃ l', fillToolCalls entries l = ([], Returned l')
        ∧ length l' = length l
        ∧ (∀ i tc, (i, tc) ∈ entries → l' !! Z.to_nat i = Some tc)
        ∧ (∀ k, (∀ i tc, (i, tc) ∈ entries → Z.to_nat i ≠ k) → l' !! k = l !! k).
Proof.
  revert l. induction entries as [|[i tc] rest IH]; intros l Hnodup Hrange.
  - exists l. split_and!; [done | done | | done].
    intros i tc Hin. by apply elem_of_nil in Hin.
  - rewrite fmap_cons in Hnodup. apply NoDup_cons in Hnodup as [Hfresh Hnodup].
    assert (0 ≤ i < Z.of_nat (length l)) as Hi by (apply (Hrange i tc); left).
    destruct (IH (<[Z.to_nat i := tc]> l) Hnodup) as (l' & Hrun & Hlen & Hat & Helse).
    { intros j tc' Hin. rewrite length_insert. apply (Hrange j tc'). by right. }
    exists l'. cbn [fillToolCalls]. rewrite storeToolCall_inrange, bind_mret by done.
    rewrite length_insert in Hlen. split_and!; [done | done | |].
    + intros j tc' Hin. apply elem_of_cons in Hin as [Heq | Hin]; [|by apply (Hat j tc')].
      injection Heq as -> ->. rewrite Helse.
      * apply list_lookup_insert_eq. lia.
      * intros j tc'' Hin Heq. apply Hfresh.
        assert (0 ≤ j < Z.of_nat (length l)) by (apply (Hrange j tc''); by right).
        assert (j = i) as -> by lia.
        apply list_elem_of_fmap. by exists (i, tc'').
    + intros k Hk. rewrite Helse.
      * apply list_lookup_insert_ne. apply (Hk i tc). left.
      * intros j tc' Hin. apply (Hk j tc'). by right.
Qed.

(** One write out of range makes the whole conversion panic, whatever
    the order. *)
Lemma fillToolCalls_outside (entries : list (Z * ToolCall)) (l : list ToolCall)
    (i : Z) (tc : ToolCall) :
  (i, tc) ∈ entries → ¬ (0 ≤ i < Z.of_nat (length l)) →
  fillToolCalls entries l = ([], Panicked IndexOutOfRange).
Proof.
  revert l. induction entries as [|[j tc'] rest IH]; intros l Hin Hout.
  - by apply elem_of_nil in Hin.
  - cbn [fillToolCalls]. destruct (decide (0 ≤ j < Z.of_nat (length l))) as [Hj | Hj].
    + rewrite storeToolCall_inrange, bind_mret by done.
      apply elem_of_cons in Hin as [Heq | Hin]; [injection Heq as -> ->; lia|].
      apply IH; [done|]. by rewrite length_insert.
    + by rewrite storeToolCall_outside.
Qed.

Lemma dense_order_length (acc : gmap Z ToolCall) (n : nat)
    (order : list (Z * ToolCall)) :
  dense acc n → order ≡ₚ map_to_list acc → length order = n.
Proof.
  intros Hdense Hperm.
  assert (order.*1 ≡ₚ Z.of_nat <$> seq 0 n) as Hkeys.
  { apply NoDup_Permutation.
    - rewrite Hperm. apply NoDup_fst_map_to_list.
    - apply NoDup_fmap_2; [intros ???; lia | apply NoDup_seq].
    - intros k. rewrite Hperm. split.
      + intros Hk. apply list_elem_of_fmap in Hk as ([k' tc] & -> & Hk).
        apply elem_of_map_to_list in Hk. simpl.
        assert (0 ≤ k' < Z.of_nat n) as Hr by (apply Hdense; eauto).
        apply list_elem_of_fmap. exists (Z.to_nat k'). split; [lia|].
        apply elem_of_seq. lia.
      + intros Hk. apply list_elem_of_fmap in Hk as (j & -> & Hj).
        apply elem_of_seq in Hj.
        destruct (proj2 (Hdense (Z.of_nat j))) as [tc Htc]; [lia|].
        apply list_elem_of_fmap. exists (Z.of_nat j, tc). split; [done|].
        by apply elem_of_map_to_list. }
  apply Permutation_length in Hkeys.
  by rewrite !length_fmap, length_seq in Hkeys.
Qed.

Lemma toolCallsToSlice_dense (acc : gmap Z ToolCall) (n : nat)
    (order : list (Z * ToolCall)) :
  dense acc n → order ≡ₚ map_to_list acc →
  ∃ l, toolCallsToSlice order = ([], Returned l)
       ∧ length l = n
       ∧ ∀ k, (k < n)%nat → l !! k = acc !! Z.of_nat k.
Proof.
  intros Hdense Hperm.
  pose proof (dense_order_length acc n order Hdense Hperm) as Hlen.
  assert (∀ i tc, (i, tc) ∈ order ↔ acc !! i = Some tc) as Hin.
  { intros i tc. rewrite Hperm. apply elem_of_map_to_list. }
  destruct (fillToolCalls_inrange order (replicate (length order) zeroToolCall))
    as (l & Hrun & Hl & Hat & _).
  - rewrite Hperm. apply NoDup_fst_map_to_list.
  - intros i tc Hi. rewrite length_replicate, Hlen. apply Hdense.
    exists tc. by apply Hin.
  - exists l. rewrite length_replicate, Hlen in Hl. split_and!; [done | done |].
    intros k Hk. destruct (proj2 (Hdense (Z.of_nat k))) as [tc Htc]; [lia|].
    rewrite Htc, <- (Hat (Z.of_nat k) tc), Nat2Z.id; [done|]. by apply Hin.
Qed.

(** ** The line loop *)

Lemma bind_ext {A B} (m : Go A) (f g : A → Go B) :
  (∀ a, f a = g a) → (m ≫= f) = (m ≫= g).
Proof.
  intros H. destruct m as [t [a|e|k]]; [|done..].
  by rewrite !bind_returned, H.
Qed.

Lemma readLines_other opt agentName line held rest fin st :
  HasPrefix line dataPrefix = false →
  readLines opt agentName ((line, held) :: rest) fin st
  = readLines opt agentName rest fin st.
Proof. intros H. cbn [readLines]. by rewrite H. Qed.

Lemma readLines_done opt agentName line held rest fin st :
  isDone line →
  readLines opt agentName ((line, held) :: rest) fin st = mret (st, held).
Proof. intros [H1 H2]. cbn [readLines]. by rewrite H1, decide_True. Qed.

Lemma readLines_chunk opt agentName line chunk held rest fin st :
  decodesTo line chunk →
  readLines opt agentName ((line, held) :: rest) fin st
  = (st' ← processChunk opt agentName chunk st;
     readLines opt agentName rest fin st').
Proof. intros (H1 & H2 & H3). cbn [readLines]. by rewrite H1, decide_False, H3. Qed.

Lemma readLines_undecodable opt agentName line held rest fin st :
  undecodable line →
  readLines opt agentName ((line, held) :: rest) fin st
  = (Errorf (payload line);; readLines opt agentName rest fin st).
Proof. intros (H1 & H2 & H3). cbn [readLines]. by rewrite H1, decide_False, H3. Qed.

(** Every line is of one of the four kinds. *)
Lemma line_cases (line : string) :
  HasPrefix line dataPrefix = false ∨ isDone line
  ∨ undecodable line ∨ ∃ chunk, decodesTo line chunk.
Proof.
  unfold isDone, undecodable, decodesTo.
  destruct (HasPrefix line dataPrefix); [|by left]. right.
  destruct (decide (payload line = doneSentinel)); [by left|]. right.
  destruct (unmarshalStreamChunk (payload line)) as [chunk|]; [right|left]; eauto.
Qed.

(** The sentinel stops the loop where it stands: the lines before it are
    processed as if the input ended there, with the error the scanner
    holds at the sentinel. *)
Lemma readLines_until_done opt agentName pre line held post fin st :
  isDone line →
  readLines opt agentName (pre ++ (line, held) :: post) fin st
  = readLines opt agentName pre held st.
Proof.
  intros Hdone. revert st. induction pre as [|[l h] pre IH]; intros st.
  - by rewrite app_nil_l, readLines_done.
  - rewrite <- app_comm_cons.
    destruct (line_cases l) as [H | [H | [H | [chunk H]]]].
    + by rewrite !readLines_other.
    + by rewrite !readLines_done.
    + rewrite !readLines_undecodable by done. by apply bind_ext.
    + rewrite !(readLines_chunk _ _ _ chunk) by done. by apply bind_ext.
Qed.

Lemma progressEvents_app (t1 t2 : list Effect) :
  progressEvents (t1 ++ t2) = progressEvents t1 ++ progressEvents t2.
Proof. apply omap_app. Qed.

Lemma sameResult_refl {A} (x : Go A) : sameResult x x.
Proof. done. Qed.

Lemma sameResult_bind {A B} (m : Go A) (f g : A → Go B) :
  (∀ a, sameResult (f a) (g a)) → sameResult (m ≫= f) (m ≫= g).
Proof.
  intros H. destruct m as [t [a|e|k]]; [|done..].
  rewrite !bind_returned. destruct (H a) as [H1 H2]. split; [done|].
  cbn [fst]. by rewrite !progressEvents_app, H2.
Qed.

Lemma sameResult_bind_both {A B} (m m' : Go A) (f : A → Go B) :
  sameResult m m' → sameResult (m ≫= f) (m' ≫= f).
Proof.
  destruct m as [t o], m' as [t' o']. intros [Ho Ht]. cbn [fst snd] in Ho, Ht.
  subst o'. destruct o as [a|e|k]; [|done..].
  rewrite !bind_returned. split; [done|].
  cbn [fst]. by rewrite !progressEvents_app, Ht.
Qed.

Lemma readLines_skip opt agentName pre line held post fin st :
  undecodable line →
  sameResult (readLines opt agentName (pre ++ (line, held) :: post) fin st)
             (readLines opt agentName (pre ++ post) fin st).
Proof.
  intros Hbad. revert st. induction pre as [|[l h] pre IH]; intros st.
  - rewrite !app_nil_l, readLines_undecodable by done.
    unfold Errorf, emit. rewrite bind_returned. done.
  - rewrite <- !app_comm_cons.
    destruct (line_cases l) as [H | [H | [H | [chunk H]]]].
    + by rewrite !readLines_other.
    + by rewrite !readLines_done.
    + rewrite !readLines_undecodable by done. by apply sameResult_bind.
    + rewrite !(readLines_chunk _ _ _ chunk) by done. by apply sameResult_bind.
Qed.

(** C6. A data line whose payload is neither the sentinel nor a chunk is
    logged and skipped: the loop goes on with the next line in the same
    state, and a stream with such a line anywhere in it ends as the same
    stream without the line does, with the same response (or the same
    failure) and the same progress events. *)
Theorem undecodable_line_skipped (opt : CompletionOptions) (agentName : string)
    (pre post : list (string * option ScanError)) (line : string)
    (held fin : option ScanError) :
  HasPrefix line dataPrefix = true →
  payload line ≠ doneSentinel →
  unmarshalStreamChunk (payload line) = None →
  (∀ st, readLines opt agentName ((line, held) :: post) fin st
         = (ErrorLogged (payload line) :: (readLines opt agentName post fin st).1,
            (readLines opt agentName post fin st).2))
  ∧ sameResult
      (runScanner opt agentName
         {| scanned := pre ++ (line, held) :: post; scanErr := fin |})
      (runScanner opt agentName {| scanned := pre ++ post; scanErr := fin |}).
Proof.
  intros H1 H2 H3. assert (undecodable line) as Hbad by done. split.
  - intros st. rewrite readLines_undecodable by done.
    unfold Errorf, emit. by rewrite bind_returned.
  - unfold runScanner. cbn [scanned scanErr].
    apply sameResult_bind_both, readLines_skip, Hbad.
Qed.

(** ** Effects and results of a computation *)

Lemma holds_mret {A} P (Q : A → Prop) (a : A) : Q a → holds P Q (mret a).
Proof.
  intros H. split_and!; [by apply Forall_nil | done |].
  intros a' Ha. by injection Ha as <-.
Qed.

Lemma holds_panic {A} P (Q : A → Prop) (k : PanicKind) : holds P Q (panic k).
Proof. split_and!; [by apply Forall_nil | done | done]. Qed.

Lemma holds_emit P (e : Effect) : P e → holds P (λ _, True) (emit e).
Proof. intros H. split_and!; [by apply Forall_singleton | done | done]. Qed.

Lemma holds_bind {A B} P (Q : A → Prop) (R : B → Prop) (m : Go A) (f : A → Go B) :
  holds P Q m → (∀ a, Q a → holds P R (f a)) → holds P R (m ≫= f).
Proof.
  destruct m as [t [a|e|k]]; intros (Ht & Hf & Hq) Hk; cbn [fst snd] in *.
  - destruct (Hk a (Hq a eq_refl)) as (Ht' & Hf' & Hq').
    rewrite bind_returned. split_and!; [by apply Forall_app | done | done].
  - by destruct (Hf e).
  - split_and!; done.
Qed.

Lemma holds_weaken {A} P (Q Q' : A → Prop) (m : Go A) :
  (∀ a, Q a → Q' a) → holds P Q m → holds P Q' m.
Proof. intros H (Ht & Hf & Hq). split_and!; [done | done | eauto]. Qed.

Lemma holds_Send P (p : CompletionProgress) (token : option Token) :
  (∀ tok, token = Some tok → P (ProgressSent p tok)) →
  holds P (λ _, True) (Send p token).
Proof.
  intros H. destruct token as [tok|]; [apply holds_emit; eauto | by apply holds_mret].
Qed.

Lemma holds_choiceAt P (cs : list Choice) (i : Z) :
  holds P (λ c, 0 ≤ i ∧ cs !! Z.to_nat i = Some c) (choiceAt cs i).
Proof.
  unfold choiceAt. case_decide; [|apply holds_panic].
  destruct (cs !! Z.to_nat i) eqn:?; [by apply holds_mret | apply holds_panic].
Qed.

Lemma holds_deref P (o : option Message) : holds P (λ m, o = Some m) (deref o).
Proof. destruct o; [by apply holds_mret | apply holds_panic]. Qed.

(** ** What one chunk does to the state *)

Lemma keeps_refl (r : Response) : keeps r r.
Proof. done. Qed.

Lemma keeps_trans (r1 r2 r3 : Response) : keeps r1 r2 → keeps r2 r3 → keeps r1 r3.
Proof.
  intros (H1 & H2 & H3) (H4 & H5 & H6). split_and!; [congruence | congruence | eauto].
Qed.

Lemma storeChoice_keeps (r : Response) (idx : Z) (c c' : Choice) :
  0 ≤ idx → Choices r !! Z.to_nat idx = Some c →
  (is_Some (ChoiceMessage c) → is_Some (ChoiceMessage c')) →
  keeps r (storeChoice r idx c').
Proof.
  intros Hidx Hc Hm. split_and!; [done | done |].
  intros (c0 & m & Hcs & Hm0). rewrite Hcs in Hc.
  destruct (Z.to_nat idx) as [|k] eqn:Hk; [|done]. injection Hc as <-.
  destruct Hm as [m' Hm']; [by eexists|].
  exists c', m'. split; [|done]. unfold storeChoice. simpl. by rewrite Hk, Hcs.
Qed.

Lemma mergeFragment_lookup (acc : gmap Z ToolCall) (index : Z) (tc : ToolCall) :
  is_Some (mergeFragment acc index tc !! index).
Proof.
  unfold mergeFragment. destruct (acc !! index); rewrite lookup_insert_eq; eauto.
Qed.

Lemma mergeToolCalls_holds P opt r agentName isFinished i frags acc :
  (nonEmpty (ID r) = true → ∀ tok index entry tc,
     ProgressToken opt = Some tok → tc ∈ frags →
     P (ProgressSent (fragmentEvent r agentName index isFinished entry tc) tok)) →
  holds P (λ acc', acc' = mergeAll i frags acc)
    (mergeToolCalls opt r agentName isFinished i frags acc).
Proof.
  revert i acc. induction frags as [|tc rest IH]; intros i acc HP.
  - by apply holds_mret.
  - cbn [mergeToolCalls mergeAll].
    eapply holds_bind with (Q := λ _, True).
    + destruct (nonEmpty (ID r) && hasToken opt) eqn:Hguard; [|by apply holds_mret].
      apply andb_prop in Hguard as [Hid _].
      destruct (mergeFragment_lookup acc (fragmentIndex i tc) tc) as [entry ->].
      apply holds_Send. intros tok Htok. apply HP; [done | done | left].
    + intros _ _. apply IH. intros Hid tok index entry tc' Htok Hin.
      apply HP; [done | done | by right].
Qed.

Lemma sendToolCalls_holds P opt r agentName i tcs :
  (∀ tok j tc, ProgressToken opt = Some tok → tc ∈ tcs →
     P (ProgressSent (toolCallEvent r agentName j tc) tok)) →
  holds P (λ _, True) (sendToolCalls opt r agentName i tcs).
Proof.
  revert i. induction tcs as [|tc rest IH]; intros i HP.
  - by apply holds_mret.
  - cbn [sendToolCalls]. eapply holds_bind with (Q := λ _, True).
    + apply holds_Send. intros tok Htok. apply HP; [done | left].
    + intros _ _. apply IH. intros tok j tc' Htok Hin. apply HP; [done | by right].
Qed.

Lemma contentEvent_keeps r r' agentName idx isFinished fragment :
  keeps r r' →
  contentEvent r' agentName idx isFinished fragment
  = contentEvent r agentName idx isFinished fragment.
Proof. intros (H1 & H2 & _). unfold contentEvent. by rewrite H1, H2. Qed.

Lemma fragmentEvent_keeps r r' agentName index isFinished entry tc :
  keeps r r' →
  fragmentEvent r' agentName index isFinished entry tc
  = fragmentEvent r agentName index isFinished entry tc.
Proof. intros (H1 & H2 & _). unfold fragmentEvent. by rewrite H1, H2. Qed.

(** The normal path: every event it sends is a content event for the
    fragment of this delta or a tool-call event for one of its fragments,
    sent while the identifier is not empty; the identifier and the model
    are left as they are, and the accumulator takes the fragments in. *)
Lemma handleDelta_holds P opt agentName choice delta st :
  (nonEmpty (ID (resp st)) = true → ∀ tok, ProgressToken opt = Some tok →
     (∀ f, deltaContent delta = Some f →
        P (ProgressSent (contentEvent (resp st) agentName (scIndex choice)
                           (isSome (scFinishReason choice)) f) tok))
     ∧ (∀ index entry tc, tc ∈ deltaToolCalls delta →
        P (ProgressSent (fragmentEvent (resp st) agentName index
                           (isSome (scFinishReason choice)) entry tc) tok))) →
  holds P (λ st', keeps (resp st) (resp st')
                  ∧ initialized st' = initialized st
                  ∧ toolCalls st' = mergeAll 0 (deltaToolCalls delta) (toolCalls st))
    (handleDelta opt agentName choice delta st).
Proof.
  intros HP. unfold handleDelta.
  eapply holds_bind with (Q := keeps (resp st)).
  { destruct (nonEmpty (deltaRole delta)); [|by apply holds_mret].
    eapply holds_bind; [apply holds_choiceAt|]. intros c [Hidx Hc].
    destruct (ChoiceMessage c) eqn:Hm; apply holds_mret; [|done].
    eapply storeChoice_keeps; [done | done | by eexists]. }
  intros r1 K1. eapply holds_bind with (Q := keeps (resp st)).
  { destruct (deltaContent delta) as [f|] eqn:Hf; [|by apply holds_mret].
    eapply holds_bind; [apply holds_choiceAt|]. intros c [Hidx Hc].
    eapply holds_bind; [apply holds_deref|]. intros m Hm.
    match goal with |- context [contentEvent ?x] => set (r' := x) end.
    assert (keeps (resp st) r') as K'.
    { eapply keeps_trans; [done|].
      eapply storeChoice_keeps; [done | done | by eexists]. }
    eapply holds_bind with (Q := λ _, True); [|intros _ _; by apply holds_mret].
    unfold when. destruct (nonEmpty (ID r') && hasToken opt) eqn:Hguard;
      [|by apply holds_mret].
    apply andb_prop in Hguard as [Hid _].
    apply holds_Send. intros tok Htok. rewrite (contentEvent_keeps _ _ _ _ _ _ K').
    destruct K' as (K' & _). rewrite K' in Hid. by apply (HP Hid tok Htok). }
  intros r2 K2. eapply holds_bind.
  { apply mergeToolCalls_holds. intros Hid tok index entry tc Htok Hin.
    rewrite (fragmentEvent_keeps _ _ _ _ _ _ _ K2).
    destruct K2 as (K2 & _). rewrite K2 in Hid. by apply (HP Hid tok Htok). }
  intros acc ->. eapply holds_bind with (Q := keeps (resp st)).
  { destruct (scFinishReason choice); [|by apply holds_mret].
    eapply holds_bind; [apply holds_choiceAt|]. intros c [Hidx Hc].
    apply holds_mret. eapply keeps_trans; [done|].
    by eapply storeChoice_keeps. }
  intros r3 K3. eapply holds_bind with (Q := keeps (resp st)).
  { destruct (deltaRefusal delta); [|by apply holds_mret].
    eapply holds_bind; [apply holds_choiceAt|]. intros c [Hidx Hc].
    eapply holds_bind; [apply holds_deref|]. intros m Hm.
    apply holds_mret. eapply keeps_trans; [done|].
    eapply storeChoice_keeps; [done | done | by eexists]. }
  intros r4 K4. by apply holds_mret.
Qed.

Lemma nonEmpty_true (s : string) : nonEmpty s = true ↔ s ≠ "".
Proof. unfold nonEmpty. apply bool_decide_eq_true. Qed.

Lemma nonEmpty_false (s : string) : nonEmpty s = false ↔ s = "".
Proof.
  unfold nonEmpty. rewrite bool_decide_eq_false. split; [|by intros ->; auto].
  intros H. by destruct (decide (s = "")).
Qed.

Lemma syntheticID_nonEmpty : nonEmpty syntheticID = true.
Proof. by apply nonEmpty_true. Qed.

Lemma extends_refl (r : Response) : extends r r.
Proof. done. Qed.

Lemma extends_trans (r1 r2 r3 : Response) :
  extends r1 r2 → extends r2 r3 → extends r1 r3.
Proof.
  intros (H1 & H2 & H3) (H4 & H5 & H6). split_and!; [|congruence|eauto].
  intros Hid. rewrite <- (H1 Hid). apply H4. by rewrite (H1 Hid).
Qed.

Lemma keeps_extends (r r' : Response) : keeps r r' → extends r r'.
Proof. intros (H1 & H2 & H3). done. Qed.

(** The quirk path: its events carry an identifier, and it leaves an
    identifier behind. *)
Lemma handleMessage_holds opt agentName choice msg r :
  holds identified (λ r', extends r r' ∧ nonEmpty (ID r') = true)
    (handleMessage opt agentName choice msg r).
Proof.
  unfold handleMessage.
  eapply holds_bind; [apply holds_choiceAt|]. intros c [Hidx Hc].
  match goal with |- context [nonEmpty (ID ?x)] => set (r1 := x) end.
  assert (keeps r r1) as K1 by (eapply storeChoice_keeps; [done | done | by eexists]).
  set (r2 := if nonEmpty (ID r1) then r1 else setID r1 syntheticID).
  assert (extends r r2 ∧ nonEmpty (ID r2) = true) as [E2 Hid2].
  { subst r2. destruct (nonEmpty (ID r1)) eqn:Hid.
    - split; [by apply keeps_extends | done].
    - split; [|apply syntheticID_nonEmpty].
      destruct K1 as (K1 & K2 & K3). split_and!; [|done|].
      + intros Hne. rewrite <- K1, Hid in Hne. done.
      + intros Hwf. destruct (K3 Hwf) as (c' & m' & ? & ?). by exists c', m'. }
  apply nonEmpty_true in Hid2.
  eapply holds_bind with (Q := λ _, True).
  { destruct (ProgressToken opt); [|by apply holds_mret].
    destruct (Text (Content msg)); [|by apply holds_mret].
    by apply holds_Send. }
  intros _ _. eapply holds_bind with (Q := λ _, True).
  { by apply sendToolCalls_holds. }
  intros _ _. apply holds_mret. split; [done | by apply nonEmpty_true].
Qed.

Lemma relates_refl (st : StreamState) : relates st st.
Proof. done. Qed.

Lemma relates_trans (s1 s2 s3 : StreamState) :
  relates s1 s2 → relates s2 s3 → relates s1 s3.
Proof.
  intros [H1 H2] [H3 H4]. split; [by eapply extends_trans | congruence].
Qed.

Lemma handleDelta_identified opt agentName choice delta st :
  holds identified (λ st', relates st st')
    (handleDelta opt agentName choice delta st).
Proof.
  eapply holds_weaken; [|apply handleDelta_holds].
  - intros st' (K & Hi & _). split; [by apply keeps_extends | done].
  - intros Hid tok _. apply nonEmpty_true in Hid. by split; intros.
Qed.

Lemma processChoice_holds opt agentName st choice :
  holds identified (λ st', relates st st') (processChoice opt agentName st choice).
Proof.
  unfold processChoice. case_decide; [by apply holds_mret|].
  destruct (scDelta choice) as [delta|]; [apply handleDelta_identified|].
  destruct (scMessage choice) as [msg|]; [|by apply holds_mret].
  eapply holds_bind; [apply handleMessage_holds|].
  intros r [E _]. by apply holds_mret.
Qed.

Lemma processChoices_holds opt agentName choices st :
  holds identified (λ st', relates st st') (processChoices opt agentName choices st).
Proof.
  revert st. induction choices as [|choice rest IH]; intros st.
  - by apply holds_mret.
  - cbn [processChoices]. eapply holds_bind; [apply processChoice_holds|].
    intros st1 R1. eapply holds_weaken; [|apply IH].
    intros st2 R2. by eapply relates_trans.
Qed.

Lemma invariant_initialState : invariant initialState.
Proof. done. Qed.

Lemma wellFormed_shell (chunk : StreamChunk) : wellFormed (shell chunk).
Proof. by eexists _, _. Qed.

Lemma processChunk_holds opt agentName chunk st :
  invariant st →
  holds identified (λ st', invariant st' ∧ initialized st' = true)
    (processChunk opt agentName chunk st).
Proof.
  intros [Hwf _]. unfold processChunk.
  match goal with |- context [processChoices _ _ _ ?x] => set (st0 := x) end.
  assert (wellFormed (resp st0)) as Hwf0.
  { assert (wellFormed (if initialized st then resp st else shell chunk)) as H.
    { destruct (initialized st); [by apply Hwf | apply wellFormed_shell]. }
    subst st0. cbn [resp]. unfold beginChunk.
    destruct H as (c & m & Hc & Hm).
    destruct (chunkUsage chunk), (negb _ && _); by exists c, m. }
  eapply holds_weaken; [|apply processChoices_holds].
  intros st' [(_ & _ & E) Hi]. subst st0. cbn [initialized resp] in Hi, E.
  split; [|done]. split; [by auto | intros H; congruence].
Qed.

Lemma readLines_holds opt agentName ls fin st :
  invariant st →
  holds (λ _, True)
    (λ '(st', e), invariant st'
                  ∧ (e = fin ∨ ∃ l h, (l, h) ∈ ls ∧ isDone l ∧ e = h))
    (readLines opt agentName ls fin st).
Proof.
  revert st. induction ls as [|[l h] ls IH]; intros st Hinv.
  - apply holds_mret. by split; [|left].
  - assert (∀ st1, invariant st1 →
      holds (λ _, True)
        (λ '(st', e), invariant st'
           ∧ (e = fin ∨ ∃ l0 h0, (l0, h0) ∈ (l, h) :: ls ∧ isDone l0 ∧ e = h0))
        (readLines opt agentName ls fin st1)) as IH'.
    { intros st1 H1. eapply holds_weaken; [|by apply IH].
      intros [st' e] [? [-> | (l0 & h0 & ? & ? & ->)]]; (split; [done|]);
        [by left | right; exists l0, h0; split_and!; [by right | done | done]]. }
    destruct (line_cases l) as [H | [H | [H | [chunk H]]]].
    + rewrite readLines_other by done. by apply IH'.
    + rewrite readLines_done by done. apply holds_mret. split; [done|].
      right. exists l, h. split_and!; [left | done | done].
    + rewrite readLines_undecodable by done.
      eapply holds_bind with (Q := λ _, True); [by apply holds_emit|].
      intros _ _. by apply IH'.
    + rewrite (readLines_chunk _ _ _ chunk) by done.
      eapply holds_bind with (Q := λ st', invariant st').
      * destruct (processChunk_holds opt agentName chunk st Hinv) as (_ & Hf & Hq).
        split_and!; [by apply Forall_true | done | intros a Ha; by apply Hq].
      * intros st1 H1. by apply IH'.
Qed.

Lemma choiceAt_here (c : Choice) : choiceAt [c] 0 = mret c.
Proof. done. Qed.

Lemma deref_Some (m : Message) : deref (Some m) = mret m.
Proof. done. Qed.

(** ** Runs that return *)

Lemma total_mret {A} (Q : A → Prop) (a : A) : Q a → total Q (mret a).
Proof. intros H. by exists [], a. Qed.

Lemma total_bind {A B} (Q : A → Prop) (R : B → Prop) (m : Go A) (f : A → Go B) :
  total Q m → (∀ a, Q a → total R (f a)) → total R (m ≫= f).
Proof.
  intros (t & a & -> & Ha) Hf. destruct (Hf a Ha) as (t' & b & Hb & HR).
  exists (t ++ t'), b. by rewrite bind_returned, Hb.
Qed.

Lemma total_weaken {A} (Q Q' : A → Prop) (m : Go A) :
  (∀ a, Q a → Q' a) → total Q m → total Q' m.
Proof. intros H (t & a & -> & Ha). exists t, a. eauto. Qed.

Lemma total_holds {A} P (Q R : A → Prop) (m : Go A) :
  total Q m → holds P R m → total (λ a, Q a ∧ R a) m.
Proof.
  intros (t & a & -> & Ha) (_ & _ & Hr). exists t, a. split_and!; [done | done |].
  by apply Hr.
Qed.

Lemma total_Send (p : CompletionProgress) (token : option Token) :
  total (λ _, True) (Send p token).
Proof. destruct token; by eexists _, _. Qed.

Lemma total_choiceAt (r : Response) :
  wellFormed r →
  total (λ c, Choices r = [c] ∧ is_Some (ChoiceMessage c)) (choiceAt (Choices r) 0).
Proof. intros (c & m & -> & Hm). apply total_mret. by split; [|eexists]. Qed.

Lemma storeChoice_wellFormed (r : Response) (c c' : Choice) :
  Choices r = [c] → is_Some (ChoiceMessage c') → wellFormed (storeChoice r 0 c').
Proof.
  intros Hc [m Hm]. exists c', m. split; [|done]. unfold storeChoice. simpl.
  by rewrite Hc.
Qed.

Lemma mergeToolCalls_total opt r agentName isFinished i frags acc :
  total (λ acc', acc' = mergeAll i frags acc)
    (mergeToolCalls opt r agentName isFinished i frags acc).
Proof.
  revert i acc. induction frags as [|tc rest IH]; intros i acc.
  - by apply total_mret.
  - cbn [mergeToolCalls mergeAll]. eapply total_bind with (Q := λ _, True).
    + destruct (nonEmpty (ID r) && hasToken opt); [|by apply total_mret].
      destruct (mergeFragment_lookup acc (fragmentIndex i tc) tc) as [entry ->].
      apply total_Send.
    + intros _ _. apply IH.
Qed.

Lemma sendToolCalls_total opt r agentName i tcs :
  total (λ _, True) (sendToolCalls opt r agentName i tcs).
Proof.
  revert i. induction tcs as [|tc rest IH]; intros i; [by apply total_mret|].
  cbn [sendToolCalls]. eapply total_bind; [apply total_Send|]. intros _ _. apply IH.
Qed.

(** On a well-formed response the normal path of choice 0 returns. *)
Lemma handleDelta_total opt agentName choice delta st :
  wellFormed (resp st) → scIndex choice = 0 →
  total (λ st', wellFormed (resp st')) (handleDelta opt agentName choice delta st).
Proof.
  intros Hwf Hidx. unfold handleDelta. rewrite Hidx.
  eapply total_bind with (Q := wellFormed).
  { destruct (nonEmpty (deltaRole delta)); [|by apply total_mret].
    eapply total_bind; [by apply total_choiceAt|]. intros c [Hc [m Hm]].
    rewrite Hm. apply total_mret. by eapply storeChoice_wellFormed. }
  intros r1 W1. eapply total_bind with (Q := wellFormed).
  { destruct (deltaContent delta); [|by apply total_mret].
    eapply total_bind; [by apply total_choiceAt|]. intros c [Hc [m Hm]].
    rewrite Hm, deref_Some, bind_mret.
    eapply total_bind with (Q := λ _, True).
    - unfold when. destruct (_ && _); [apply total_Send | by apply total_mret].
    - intros _ _. apply total_mret. by eapply storeChoice_wellFormed. }
  intros r2 W2. eapply total_bind; [apply mergeToolCalls_total|]. intros acc _.
  eapply total_bind with (Q := wellFormed).
  { destruct (scFinishReason choice); [|by apply total_mret].
    eapply total_bind; [by apply total_choiceAt|]. intros c [Hc Hm].
    apply total_mret. by eapply storeChoice_wellFormed. }
  intros r3 W3. eapply total_bind with (Q := wellFormed).
  { destruct (deltaRefusal delta); [|by apply total_mret].
    eapply total_bind; [by apply total_choiceAt|]. intros c [Hc [m Hm]].
    rewrite Hm, deref_Some, bind_mret. apply total_mret.
    by eapply storeChoice_wellFormed. }
  intros r4 W4. by apply total_mret.
Qed.

Lemma handleMessage_total opt agentName choice msg r :
  wellFormed r → scIndex choice = 0 →
  total wellFormed (handleMessage opt agentName choice msg r).
Proof.
  intros Hwf Hidx. unfold handleMessage. rewrite Hidx.
  eapply total_bind; [by apply total_choiceAt|]. intros c [Hc Hm].
  eapply total_bind with (Q := λ _, True).
  { destruct (ProgressToken opt); [|by apply total_mret].
    destruct (Text (Content msg)); [apply total_Send | by apply total_mret]. }
  intros _ _. eapply total_bind; [apply sendToolCalls_total|]. intros _ _.
  apply total_mret.
  assert (wellFormed (storeChoice r 0 (setMessage c (Some msg)))) as (c' & m' & ? & ?)
    by (eapply storeChoice_wellFormed; [done | by eexists]).
  destruct (nonEmpty _); by exists c', m'.
Qed.

(** A choice whose index is not negative is processed without panic. *)
Lemma processChoice_total opt agentName st choice :
  wellFormed (resp st) → 0 ≤ scIndex choice →
  total (λ st', wellFormed (resp st')) (processChoice opt agentName st choice).
Proof.
  intros Hwf Hidx. unfold processChoice.
  case_decide as Hlen; [by apply total_mret|].
  assert (scIndex choice = 0) as H0.
  { destruct Hwf as (c & m & Hc & _). rewrite Hc in Hlen. simpl in Hlen. lia. }
  destruct (scDelta choice) as [delta|]; [by apply handleDelta_total|].
  destruct (scMessage choice) as [msg|]; [|by apply total_mret].
  eapply total_bind; [by apply handleMessage_total|].
  intros r W. by apply total_mret.
Qed.

Lemma processChoices_total opt agentName choices st :
  wellFormed (resp st) → Forall (λ choice, 0 ≤ scIndex choice) choices →
  total (λ st', wellFormed (resp st')) (processChoices opt agentName choices st).
Proof.
  revert st. induction choices as [|choice rest IH]; intros st Hwf Hall.
  - by apply total_mret.
  - apply Forall_cons in Hall as [H1 Hall]. cbn [processChoices].
    eapply total_bind; [by apply processChoice_total|]. intros st1 W1. by apply IH.
Qed.

Lemma processChunk_total opt agentName chunk st :
  invariant st → indexed chunk →
  total (λ st', invariant st' ∧ initialized st' = true)
    (processChunk opt agentName chunk st).
Proof.
  intros Hinv Hidx.
  eapply total_weaken; [|eapply total_holds with (Q := λ _, True);
                          [|by apply processChunk_holds]].
  { by intros st' [_ H]. }
  destruct Hinv as [Hwf _]. unfold processChunk.
  eapply total_weaken; [|apply processChoices_total; [|done]]; [done|].
  cbn [resp]. unfold beginChunk.
  assert (wellFormed (if initialized st then resp st else shell chunk))
    as (c & m & Hc & Hm).
  { destruct (initialized st); [by apply Hwf | apply wellFormed_shell]. }
  destruct (chunkUsage chunk), (negb _ && _); by exists c, m.
Qed.

(** ** Finalization *)

Lemma finalizeIn_empty (r : Response) : finalizeIn [] r = mret r.
Proof. done. Qed.

Lemma dense_zero (acc : gmap Z ToolCall) : dense acc 0 ↔ acc = ∅.
Proof.
  split.
  - intros H. apply map_empty. intros k. apply eq_None_not_Some.
    intros Hk. apply H in Hk. lia.
  - intros -> k. rewrite lookup_empty. split; [by intros [? ?] | lia].
Qed.

(** With a dense accumulator the conversion returns, in whatever order
    the map is visited: the response as it is when nothing was
    accumulated, and otherwise the response with the list of the
    accumulated tool calls on choice 0. *)
Lemma finalizeIn_dense (st : StreamState) (n : nat) (order : list (Z * ToolCall)) :
  invariant st → dense (toolCalls st) n → order ≡ₚ map_to_list (toolCalls st) →
  ∃ r, finalizeIn order (resp st) = ([], Returned r)
       ∧ (n = 0%nat → r = resp st)
       ∧ (n ≠ 0%nat →
          ∃ c m l, Choices (resp st) = [c] ∧ ChoiceMessage c = Some m
                   ∧ r = setChoices (resp st) [setMessage c (Some (setToolCalls m l))]
                   ∧ length l = n
                   ∧ ∀ k, (k < n)%nat → l !! k = toolCalls st !! Z.of_nat k).
Proof.
  intros [Hwf Hini] Hdense Hperm.
  pose proof (dense_order_length _ _ _ Hdense Hperm) as Hlen.
  unfold finalizeIn. rewrite Hlen. destruct n as [|n].
  - exists (resp st). by rewrite decide_False by lia.
  - rewrite decide_True by lia.
    destruct (initialized st) eqn:Hi.
    2: { specialize (Hini eq_refl). destruct (proj2 (Hdense 0)) as [tc Htc]; [lia|].
         by rewrite Hini, lookup_empty in Htc. }
    destruct (Hwf eq_refl) as (c & m & Hc & Hm).
    destruct (toolCallsToSlice_dense _ _ _ Hdense Hperm) as (l & Hrun & Hl & Hat).
    rewrite Hc, choiceAt_here, bind_mret, Hm, deref_Some, bind_mret, Hrun.
    eexists. split; [reflexivity|]. split; [done|]. intros _.
    exists c, m, l. split_and!; try done.
    unfold storeChoice. by rewrite Hc.
Qed.

Lemma fillToolCalls_holds P (entries : list (Z * ToolCall)) (l : list ToolCall) :
  holds P (λ _, True) (fillToolCalls entries l).
Proof.
  revert l. induction entries as [|[i tc] rest IH]; intros l; [by apply holds_mret|].
  cbn [fillToolCalls]. eapply holds_bind with (Q := λ _, True); [|by intros].
  unfold storeToolCall. case_decide; [by apply holds_mret | apply holds_panic].
Qed.

(** The conversion has no effect and returns no error. *)
Lemma finalizeIn_holds P (order : list (Z * ToolCall)) (r : Response) :
  holds P (λ _, True) (finalizeIn order r).
Proof.
  unfold finalizeIn. case_decide; [|by apply holds_mret].
  eapply holds_bind; [apply holds_choiceAt|]. intros c _.
  eapply holds_bind; [apply holds_deref|]. intros m _.
  eapply holds_bind; [apply fillToolCalls_holds|]. intros l _. by apply holds_mret.
Qed.

Lemma finalizeIn_silent (order : list (Z * ToolCall)) (r : Response) :
  (finalizeIn order r).1 = [].
Proof.
  destruct (finalizeIn_holds (λ _, False) order r) as (Ht & _).
  destruct (finalizeIn order r).1 as [|e t]; [done|]. by inversion Ht.
Qed.

(** C7, as amended. Once a line carrying the sentinel is read, the call
    is the call over the lines before it, as if the input had ended
    there with what the scanner holds at the sentinel: no later line is
    processed and no further effect happens, whatever follows the
    sentinel. When the scanner holds a read error at the sentinel, the
    call returns that error. When it holds none, the call does not
    return an error, and when the lines before the sentinel were
    processed to a state whose tool-call indices are [0 .. n-1], that
    state is converted as it is and returned, whether or not a finish
    reason was seen. *)
Theorem sentinel_ends_stream (opt : CompletionOptions) (agentName : string)
    (pre post : list (string * option ScanError)) (line : string)
    (held fin : option ScanError) :
  HasPrefix line dataPrefix = true →
  payload line = doneSentinel →
  (∀ l h, (l, h) ∈ pre → ¬ isDone l) →
  let whole := runScanner opt agentName
                 {| scanned := pre ++ (line, held) :: post; scanErr := fin |} in
  whole = runScanner opt agentName {| scanned := pre; scanErr := held |}
  ∧ whole.1 = (readLines opt agentName pre held initialState).1
  ∧ (held = None → ∀ e, whole.2 ≠ Failed e)
  ∧ (∀ t st e,
       readLines opt agentName pre held initialState = (t, Returned (st, e)) →
       e = held
       ∧ match held with
         | Some x => whole = (t, Failed (ErrReadStreaming x))
         | None =>
             ∀ n, dense (toolCalls st) n →
               ∃ r, whole = (t, Returned r) ∧ finalize st = ([], Returned r)
         end).
Proof.
  intros H1 H2 Hpre whole.
  assert (whole = runScanner opt agentName {| scanned := pre; scanErr := held |})
    as Hwhole.
  { unfold whole, runScanner. cbn [scanned scanErr].
    by rewrite readLines_until_done. }
  split; [done|]. rewrite Hwhole. clear whole Hwhole.
  unfold runScanner. cbn [scanned scanErr].
  destruct (readLines_holds opt agentName pre held initialState
              invariant_initialState) as (_ & Hfail & Hret).
  destruct (readLines opt agentName pre held initialState) as [t0 [[st0 e0]|e0|k0]]
    eqn:Hrun; cbn [fst snd] in *.
  - destruct (Hret _ eq_refl) as [Hinv He].
    assert (e0 = held) as ->.
    { destruct He as [-> | (l & h & Hin & Hdone & _)]; [done|].
      by destruct (Hpre l h Hin). }
    rewrite bind_returned. cbn [fst snd]. split_and!.
    + destruct held as [x|]; cbn; [by rewrite app_nil_r|].
      unfold finalize. by rewrite finalizeIn_silent, app_nil_r.
    + intros ->. apply (finalizeIn_holds (λ _, True)).
    + intros t st e Heq. injection Heq as <- <- <-. split; [done|].
      destruct held as [x|]; [cbn; by rewrite app_nil_r|].
      intros n Hdense.
      destruct (finalizeIn_dense st0 n (map_to_list (toolCalls st0)) Hinv Hdense)
        as (r & Hr & _); [done|].
      exists r. unfold finalize. by rewrite Hr, app_nil_r.
  - by destruct (Hfail e0).
  - split_and!; [done|done|]. intros t st e Heq. done.
Qed.

(** The conversion gives the same result in whatever order the map is
    visited, so [finalize] may fix one. *)
Lemma fillToolCalls_order (order order' : list (Z * ToolCall)) (l : list ToolCall) :
  order ≡ₚ order' → NoDup order.*1 →
  fillToolCalls order l = fillToolCalls order' l.
Proof.
  intros Hperm Hnodup.
  destruct (decide (Forall (λ e, 0 ≤ e.1 < Z.of_nat (length l)) order)) as [Hin | Hout].
  - assert (∀ i tc, (i, tc) ∈ order → 0 ≤ i < Z.of_nat (length l)) as Hrange.
    { intros i tc Hi. by apply (proj1 (Forall_forall _ _) Hin (i, tc)). }
    destruct (fillToolCalls_inrange order l Hnodup Hrange) as (l1 & -> & Hl1 & Hat1 & He1).
    destruct (fillToolCalls_inrange order' l) as (l2 & -> & Hl2 & Hat2 & He2).
    { by rewrite <- Hperm. }
    { intros i tc Hi. apply (Hrange i tc). by rewrite Hperm. }
    f_equal. f_equal. apply list_eq. intros k.
    destruct (decide (Exists (λ e, Z.to_nat e.1 = k) order)) as [Hk | Hk].
    + apply Exists_exists in Hk as ([i tc] & Hi & <-). simpl.
      rewrite (Hat1 i tc Hi). symmetry. apply Hat2. by rewrite <- Hperm.
    + assert (∀ i tc, (i, tc) ∈ order → Z.to_nat i ≠ k) as Hno.
      { intros i tc Hi Heq. apply Hk, Exists_exists. by exists (i, tc). }
      rewrite He1 by done. symmetry. apply He2.
      intros i tc Hi. apply (Hno i tc). by rewrite Hperm.
  - apply not_Forall_Exists in Hout; [|apply _].
    apply Exists_exists in Hout as ([i tc] & Hi & Hbad). simpl in Hbad.
    rewrite (fillToolCalls_outside order l i tc) by done.
    symmetry. apply (fillToolCalls_outside order' l i tc); [|done]. by rewrite <- Hperm.
Qed.

Lemma finalizeIn_order (order order' : list (Z * ToolCall)) (r : Response) :
  order ≡ₚ order' → NoDup order.*1 →
  finalizeIn order r = finalizeIn order' r.
Proof.
  intros Hperm Hnodup. unfold finalizeIn, toolCallsToSlice.
  rewrite <- (Permutation_length Hperm).
  case_decide; [|done].
  apply bind_ext. intros c. apply bind_ext. intros m.
  by rewrite (fillToolCalls_order order order').
Qed.

(** C5. When the indices seen for tool-call fragments are exactly
    [0 .. n-1], every index the conversion writes at lies within the list
    it made, of as many entries as the accumulator has keys, and the
    conversion returns, in whatever order the map is iterated, a list of
    length [n] whose entry at every position [k] is the tool call
    accumulated under key [k]: it does not panic. So the finalization of
    a stream whose loop ended with such an accumulator returns: the
    response as the loop left it when [n] is zero, and otherwise that
    response with this list as the tool calls of the message of its one
    choice. *)
Theorem dense_accumulator_converts (acc : gmap Z ToolCall) (n : nat)
    (order : list (Z * ToolCall)) :
  dense acc n → order ≡ₚ map_to_list acc →
  (∀ i tc, (i, tc) ∈ order →
     0 ≤ i < Z.of_nat (length (replicate (length order) zeroToolCall)))
  ∧ (∃ l, toolCallsToSlice order = ([], Returned l)
          ∧ length l = n
          ∧ ∀ k, (k < n)%nat → l !! k = acc !! Z.of_nat k)
  ∧ ∀ (opt : CompletionOptions) (agentName : string)
      (ls : list (string * option ScanError)) (fin e : option ScanError)
      (t : list Effect) (st : StreamState),
      readLines opt agentName ls fin initialState = (t, Returned (st, e)) →
      toolCalls st = acc →
      ∃ r, finalize st = ([], Returned r)
           ∧ finalizeIn order (resp st) = ([], Returned r)
           ∧ (n = 0%nat → r = resp st)
           ∧ (n ≠ 0%nat →
              ∃ c m l, Choices (resp st) = [c] ∧ ChoiceMessage c = Some m
                       ∧ toolCallsToSlice order = ([], Returned l)
                       ∧ r = setChoices (resp st)
                               [setMessage c (Some (setToolCalls m l))]
                       ∧ length l = n
                       ∧ ∀ k, (k < n)%nat → l !! k = acc !! Z.of_nat k).
Proof.
  intros Hdense Hperm. split_and!.
  - intros i tc Hin.
    rewrite length_replicate, (dense_order_length acc n order Hdense Hperm).
    apply Hdense. exists tc. rewrite Hperm in Hin.
    by apply elem_of_map_to_list in Hin.
  - by apply toolCallsToSlice_dense.
  - intros opt agentName ls fin e t st Hrun Hacc. subst acc.
    destruct (readLines_holds opt agentName ls fin initialState
                invariant_initialState) as (_ & _ & Hret).
    rewrite Hrun in Hret. destruct (Hret _ eq_refl) as [Hinv _].
    destruct (finalizeIn_dense st n order Hinv Hdense Hperm)
      as (r & Hr & Hzero & Hshape).
    exists r. split_and!; [|done|done|].
    + unfold finalize. rewrite <- Hr. symmetry. apply finalizeIn_order; [done|].
      rewrite Hperm. apply NoDup_fst_map_to_list.
    + intros Hn. destruct (Hshape Hn) as (c & m & l & Hc & Hm & -> & Hlen & Hl).
      destruct (toolCallsToSlice_dense _ _ _ Hdense Hperm)
        as (l' & Hl' & Hlen' & Hlook').
      assert (l' = l) as ->.
      { apply list_eq. intros k. destruct (decide (k < n)%nat) as [Hk|Hk].
        - by rewrite Hl, Hlook'.
        - by rewrite !lookup_ge_None_2 by lia. }
      exists c, m, l. by split_and!.
Qed.

(** ** The normal path, in full *)

Lemma mergeToolCalls_ext opt r r' agentName isFinished i frags acc :
  ID r' = ID r → Model r' = Model r →
  mergeToolCalls opt r' agentName isFinished i frags acc
  = mergeToolCalls opt r agentName isFinished i frags acc.
Proof.
  intros Hid Hmodel. revert i acc. induction frags as [|tc rest IH]; intros i acc.
  - done.
  - cbn [mergeToolCalls]. rewrite Hid.
    assert (∀ index entry, fragmentEvent r' agentName index isFinished entry tc
                           = fragmentEvent r agentName index isFinished entry tc) as Hev.
    { intros. unfold fragmentEvent. by rewrite Hid, Hmodel. }
    destruct (nonEmpty (ID r) && hasToken opt);
      [destruct (mergeFragment _ _ _ !! _); [rewrite Hev|]|];
      by apply bind_ext.
Qed.

Ltac run_go :=
  repeat first
    [ rewrite bind_mret
    | rewrite bind_returned
    | rewrite choiceAt_here
    | rewrite deref_Some
    | progress change (Z.to_nat 0) with 0%nat
    | progress cbn ].

Lemma handleDelta_spec opt agentName choice delta st c m :
  Choices (resp st) = [c] → ChoiceMessage c = Some m → scIndex choice = 0 →
  handleDelta opt agentName choice delta st
  = (contentTrace opt (resp st) agentName choice delta
     ++ (mergeToolCalls opt (resp st) agentName (isSome (scFinishReason choice)) 0
           (deltaToolCalls delta) (toolCalls st)).1,
     Returned {| resp := setChoices (resp st) [deltaChoice choice delta c m];
                 initialized := initialized st;
                 toolCalls := mergeAll 0 (deltaToolCalls delta) (toolCalls st) |}).
Proof.
  intros Hc Hm Hidx.
  destruct st as [r ini acc], r as [id obj created model fp cs usage].
  destruct choice as [idx d msg finish], delta as [role content frags refusal].
  destruct c as [ci cm cf], m as [mrole [mtext] mtcs mref]. cbn in * |-. subst.
  cbn [resp toolCalls initialized scIndex scFinishReason deltaRole deltaContent
       deltaToolCalls deltaRefusal].
  match goal with |- context [contentTrace _ ?x] => set (r0 := x) end.
  set (tm := (mergeToolCalls opt r0 agentName (isSome finish) 0 frags acc).1).
  assert (∀ r2, ID r2 = id → Model r2 = model →
            mergeToolCalls opt r2 agentName (isSome finish) 0 frags acc
            = (tm, Returned (mergeAll 0 frags acc))) as Hmerge.
  { intros r2 H1 H2. rewrite (mergeToolCalls_ext opt r0 r2) by done. subst tm.
    by destruct (mergeToolCalls_total opt r0 agentName (isSome finish) 0 frags acc)
      as (t & a & -> & ->). }
  clearbody tm. subst r0.
  unfold handleDelta, contentTrace, deltaChoice, deltaMessage, when, Send, hasToken.
  cbn [resp toolCalls initialized scIndex scFinishReason deltaRole deltaContent
       deltaToolCalls deltaRefusal].
  destruct (nonEmpty role), content, finish, refusal, (ProgressToken opt);
    run_go; rewrite ?andb_true_r, ?andb_false_r;
    try destruct (nonEmpty id); run_go;
    rewrite Hmerge by done; run_go; rewrite ?app_nil_r; reflexivity.
Qed.

(** ** Chunks with one delta for choice 0 *)

Lemma beginChunk_wellFormed (chunk : StreamChunk) (st : StreamState) :
  invariant st → wellFormed (beginChunk chunk st).
Proof.
  intros [Hwf _]. unfold beginChunk.
  assert (wellFormed (if initialized st then resp st else shell chunk))
    as (c & m & Hc & Hm).
  { destruct (initialized st); [by apply Hwf | apply wellFormed_shell]. }
  destruct (chunkUsage chunk), (negb _ && _); by exists c, m.
Qed.

Lemma beginChunk_first (chunk : StreamChunk) (st : StreamState) :
  initialized st = false →
  ID (beginChunk chunk st) = chunkID chunk
  ∧ Model (beginChunk chunk st) = chunkModel chunk
  ∧ Choices (beginChunk chunk st)
    = [ {| Index := 0; ChoiceMessage := Some assistantMessage; FinishReason := None |} ].
Proof.
  intros Hi. unfold beginChunk. rewrite Hi.
  by destruct (chunkUsage chunk), (negb _ && _).
Qed.

Lemma beginChunk_next (chunk : StreamChunk) (st : StreamState) :
  initialized st = true →
  ID (beginChunk chunk st)
  = (if nonEmpty (ID (resp st)) then ID (resp st) else chunkID chunk)
  ∧ Model (beginChunk chunk st) = Model (resp st)
  ∧ Choices (beginChunk chunk st) = Choices (resp st).
Proof.
  intros Hi. unfold beginChunk. rewrite Hi.
  destruct (nonEmpty (ID (resp st))) eqn:Hid; cbn [negb andb].
  - by destruct (chunkUsage chunk).
  - destruct (nonEmpty (chunkID chunk)) eqn:Hc; cbn [negb andb];
      destruct (chunkUsage chunk); try done.
    all: apply nonEmpty_false in Hid, Hc; cbn; by rewrite Hid, Hc.
Qed.

(** A chunk with one delta for choice 0, on a state that satisfies the
    invariant: the normal path in full. *)
Lemma processChunk_oneDelta opt agentName chunk choice delta st c m :
  oneDelta chunk choice delta →
  Choices (beginChunk chunk st) = [c] → ChoiceMessage c = Some m →
  processChunk opt agentName chunk st
  = (contentTrace opt (beginChunk chunk st) agentName choice delta
     ++ (mergeToolCalls opt (beginChunk chunk st) agentName
           (isSome (scFinishReason choice)) 0 (deltaToolCalls delta) (toolCalls st)).1,
     Returned {| resp := setChoices (beginChunk chunk st) [deltaChoice choice delta c m];
                 initialized := true;
                 toolCalls := mergeAll 0 (deltaToolCalls delta) (toolCalls st) |}).
Proof.
  intros (Hcs & Hidx & Hd) Hc Hm. unfold processChunk. rewrite Hcs.
  cbn [processChoices]. unfold processChoice. cbn [resp]. rewrite Hc, Hidx.
  rewrite decide_False by (simpl; lia). rewrite Hd.
  rewrite (handleDelta_spec _ _ _ _ _ c m) by done.
  rewrite bind_returned. cbn [fst snd resp toolCalls initialized].
  by rewrite app_nil_r.
Qed.

Lemma processChunk_text_begin opt agentName chunk fragment finish :
  delivers chunk fragment finish →
  ∃ st', processChunk opt agentName chunk initialState
         = (match ProgressToken opt with
            | Some tok =>
                if nonEmpty (chunkID chunk)
                then [ProgressSent (textEvent (chunkID chunk) (chunkModel chunk)
                                      agentName fragment finish) tok]
                else []
            | None => []
            end, Returned st')
         ∧ streaming st' (chunkID chunk) (chunkModel chunk) (Some fragment).
Proof.
  intros (choice & delta & Hone & Hf & Htc & Hfin).
  destruct (beginChunk_first chunk initialState eq_refl) as (Bid & Bmodel & Bcs).
  eexists. split.
  - rewrite (processChunk_oneDelta _ _ _ choice delta _ _ assistantMessage Hone Bcs)
      by done.
    rewrite Htc. cbn [mergeToolCalls mergeAll fst]. rewrite app_nil_r.
    unfold contentTrace. rewrite Hf, Bid.
    unfold contentEvent, textEvent. destruct Hone as (_ & -> & _).
    by rewrite Bid, Bmodel, Hfin.
  - split_and!; try done. eexists _, _. split_and!; try done. cbn. by rewrite Hf.
Qed.

Lemma processChunk_text_step opt agentName chunk fragment finish st id model text :
  streaming st id model text →
  delivers chunk fragment finish →
  let id' := if nonEmpty id then id else chunkID chunk in
  ∃ st', processChunk opt agentName chunk st
         = (match ProgressToken opt with
            | Some tok =>
                if nonEmpty id'
                then [ProgressSent (textEvent id' model agentName fragment finish) tok]
                else []
            | None => []
            end, Returned st')
         ∧ streaming st' id' model (Some (default "" text +:+ fragment)).
Proof.
  intros (Hi & Sid & Smodel & Sacc & c & m & Hc & Hm & Ht)
    (choice & delta & Hone & Hf & Htc & Hfin) id'.
  destruct (beginChunk_next chunk st Hi) as (Bid & Bmodel & Bcs).
  rewrite Sid in Bid. fold id' in Bid. rewrite Smodel in Bmodel. rewrite Hc in Bcs.
  eexists. split.
  - rewrite (processChunk_oneDelta _ _ _ choice delta _ c m Hone Bcs) by done.
    rewrite Htc. cbn [mergeToolCalls mergeAll fst]. rewrite app_nil_r.
    unfold contentTrace. rewrite Hf, Bid.
    unfold contentEvent, textEvent. destruct Hone as (_ & -> & _).
    by rewrite Bid, Bmodel, Hfin.
  - split_and!; try done. eexists _, _. split_and!; try done. cbn. by rewrite Hf, Ht.
Qed.

Lemma choiceText_streaming st id model text :
  streaming st id model text → choiceText (resp st) = text.
Proof.
  intros (_ & _ & _ & _ & c & m & Hc & Hm & Ht).
  unfold choiceText. rewrite Hc. cbn. by rewrite Hm.
Qed.

Lemma finalize_empty (st : StreamState) :
  toolCalls st = ∅ → finalize st = mret (resp st).
Proof. intros H. unfold finalize. by rewrite H, map_to_list_empty. Qed.


(** ** Tool-call fragments *)

Lemma mergeFragment_first (acc : gmap Z ToolCall) (index : Z) (tc : ToolCall) :
  acc !! index = None →
  mergeFragment acc index tc = <[index := newEntry tc]> acc.
Proof. intros H. unfold mergeFragment. by rewrite H. Qed.

Lemma mergeFragment_later (acc : gmap Z ToolCall) (index : Z) (entry tc : ToolCall) :
  acc !! index = Some entry →
  mergeFragment acc index tc
  = <[index := appendArguments entry (fnArguments (tcFunction tc))]> acc.
Proof. intros H. unfold mergeFragment. by rewrite H. Qed.

Lemma mergeFragment_other (acc : gmap Z ToolCall) (index k : Z) (tc : ToolCall) :
  k ≠ index → mergeFragment acc index tc !! k = acc !! k.
Proof.
  intros H. unfold mergeFragment. destruct (acc !! index); by rewrite lookup_insert_ne.
Qed.

(** A chunk that carries tool-call fragments for choice 0 takes them into
    the accumulator and keeps the invariant. *)
Lemma processChunk_carries opt agentName chunk frags st :
  invariant st → carries chunk frags →
  ∃ t st', processChunk opt agentName chunk st = (t, Returned st')
           ∧ invariant st'
           ∧ toolCalls st' = mergeAll 0 frags (toolCalls st).
Proof.
  intros Hinv (choice & delta & Hone & Hf & Htc).
  destruct (beginChunk_wellFormed chunk st Hinv) as (c & m & Hc & Hm).
  eexists _, _. split.
  - by rewrite (processChunk_oneDelta _ _ _ choice delta _ c m Hone Hc).
  - cbn. rewrite Htc. split; [|done]. split; [|done]. intros _. by eexists _, _.
Qed.

(** ** Fragments that arrive before an identifier *)

(** C10. On the normal path every effect is a partial progress event sent
    while the identifier of the response is not empty, and it reports a
    fragment of the delta at hand only. So a delta that arrives while the
    identifier is empty has no effect at all, although on choice 0 of a
    well-formed response its text is appended and its tool-call fragments
    are merged; and when a first chunk without identifier delivers a
    fragment and a second chunk brings the identifier and another
    fragment, the one event of the run reports the second fragment, while
    the text holds both. *)
Theorem silent_without_identifier (opt : CompletionOptions) (agentName : string)
    (choice : StreamChoice) (delta : Delta) (st : StreamState) :
  Forall (λ e, ID (resp st) ≠ "" ∧ reportsDelta (ID (resp st)) delta e)
    (handleDelta opt agentName choice delta st).1
  ∧ (ID (resp st) = "" → (handleDelta opt agentName choice delta st).1 = [])
  ∧ (wellFormed (resp st) → scIndex choice = 0 →
     ∃ t st', handleDelta opt agentName choice delta st = (t, Returned st')
       ∧ ID (resp st') = ID (resp st)
       ∧ toolCalls st' = mergeAll 0 (deltaToolCalls delta) (toolCalls st)
       ∧ choiceText (resp st')
         = match deltaContent delta with
           | Some f => Some (default "" (choiceText (resp st)) +:+ f)
           | None => choiceText (resp st)
           end)
  ∧ (∀ tok c1 c2 f1 f2 fin1 fin2,
       ProgressToken opt = Some tok →
       chunkID c1 = "" → chunkID c2 ≠ "" →
       delivers c1 f1 fin1 → delivers c2 f2 fin2 →
       ∃ st1 st2,
         processChunk opt agentName c1 initialState = ([], Returned st1)
         ∧ processChunk opt agentName c2 st1
           = ([ProgressSent (textEvent (chunkID c2) (chunkModel c1) agentName f2 fin2)
                 tok], Returned st2)
         ∧ choiceText (resp st2) = Some (f1 +:+ f2)).
Proof.
  assert (Forall (λ e, ID (resp st) ≠ "" ∧ reportsDelta (ID (resp st)) delta e)
            (handleDelta opt agentName choice delta st).1) as Hall.
  { apply (handleDelta_holds _ opt agentName choice delta st).
    intros Hid tok Htok. apply nonEmpty_true in Hid. split.
    - intros f Hf. split; [done|]. eexists _, _. split_and!; [done..|].
      left. by exists f.
    - intros index entry tc Hin. split; [done|]. eexists _, _. split_and!; [done..|].
      right. by eexists tc, _. }
  split; [done|]. split_and!.
  - intros Hid. destruct (handleDelta opt agentName choice delta st).1 as [|e t];
      [done|]. apply Forall_cons in Hall as [[Hne _] _]. done.
  - intros (c & m & Hc & Hm) Hidx. eexists _, _. split.
    + by apply (handleDelta_spec _ _ _ _ _ c m).
    + cbn [resp toolCalls]. split_and!; [done | done |].
      unfold choiceText. rewrite Hc. cbn. rewrite Hm. cbn.
      by destruct (deltaContent delta).
  - intros tok c1 c2 f1 f2 fin1 fin2 Htok Hid1 Hid2 D1 D2.
    destruct (processChunk_text_begin opt agentName c1 f1 fin1 D1) as (st1 & R1 & S1).
    destruct (processChunk_text_step opt agentName c2 f2 fin2 st1 _ _ _ S1 D2)
      as (st2 & R2 & S2).
    exists st1, st2. rewrite Htok in R1, R2. rewrite Hid1 in R1, R2, S2.
    apply nonEmpty_true in Hid2.
    change (nonEmpty "") with false in R1, R2, S2. cbv beta iota in R1, R2, S2.
    rewrite Hid2 in R2.
    split_and!; [done | done |]. by rewrite (choiceText_streaming _ _ _ _ S2).
Qed.

(** ** The identifier of the returned response *)

Lemma isDone_doneLine : isDone doneLine.
Proof. by vm_compute. Qed.

(** The buffered path gives every response it returns an identifier. *)
Lemma publishComplete_identified opt agentName decoded t r :
  publishComplete opt agentName decoded = (t, Returned r) → ID r ≠ "".
Proof.
  unfold publishComplete.
  set (r0 := if nonEmpty (ID decoded) then decoded else setID decoded syntheticID).
  assert (ID r0 ≠ "") as Hid.
  { subst r0. destruct (nonEmpty (ID decoded)) eqn:H; [by apply nonEmpty_true | done]. }
  intros Hrun.
  match type of Hrun with (?m ≫= _) = _ => destruct m as [t0 [[]|e|k]] end;
    [|done..].
  rewrite bind_returned in Hrun. by injection Hrun as _ <-.
Qed.

(** The quirk path leaves an identifier on the response too. *)
Lemma handleMessage_identified opt agentName choice msg r t r' :
  handleMessage opt agentName choice msg r = (t, Returned r') → ID r' ≠ "".
Proof.
  intros Hrun.
  destruct (handleMessage_holds opt agentName choice msg r) as (_ & _ & Hq).
  rewrite Hrun in Hq. destruct (Hq r' eq_refl) as [_ Hid]. by apply nonEmpty_true.
Qed.

(** C1, at the failing inputs. On the streaming path nothing gives the
    response an identifier when no chunk brought one: a stream that is
    the sentinel alone returns the zero response, and a stream whose one
    chunk has no identifier and delivers a content fragment returns, with
    no effect, a response that holds the fragment under the empty
    identifier. *)
Theorem stream_without_identifier (opt : CompletionOptions) (agentName : string)
    (line : string) (chunk : StreamChunk) (fragment : string)
    (finish : option string) (held : option ScanError) :
  decodesTo line chunk →
  chunkID chunk = "" →
  delivers chunk fragment finish →
  decodeBody opt agentName
    {| bodyData := doneLine +:+ String newline EmptyString; bodyErr := None |}
  = ([], Returned zeroResponse)
  ∧ ID zeroResponse = ""
  ∧ ∃ r, runScanner opt agentName
           {| scanned := [(line, held); (doneLine, None)]; scanErr := None |}
         = ([], Returned r)
         ∧ ID r = "" ∧ choiceText r = Some fragment.
Proof.
  intros Hline Hid Hchunk. split; [by vm_compute|]. split; [done|].
  destruct (processChunk_text_begin opt agentName chunk fragment finish Hchunk)
    as (st1 & R1 & S1).
  rewrite Hid in R1, S1. change (nonEmpty "") with false in R1.
  assert (processChunk opt agentName chunk initialState = ([], Returned st1)) as R1'.
  { rewrite R1. by destruct (ProgressToken opt). }
  assert (readLines opt agentName [(line, held); (doneLine, None)] None initialState
          = ([], Returned (st1, None))) as Hread.
  { rewrite (readLines_chunk _ _ _ chunk), R1', bind_returned by done.
    by rewrite readLines_done by apply isDone_doneLine. }
  exists (resp st1). unfold runScanner. cbn [scanned scanErr].
  rewrite Hread, bind_returned. cbn [fst snd].
  pose proof (choiceText_streaming _ _ _ _ S1) as Htext.
  destruct S1 as (_ & Sid & _ & Sacc & _).
  by rewrite finalize_empty.
Qed.

(** ** The quirk path, in full *)

Lemma handleMessage_spec opt agentName choice msg r c :
  Choices r = [c] → scIndex choice = 0 →
  let r' := identify (setChoices r [setMessage c (Some msg)]) in
  handleMessage opt agentName choice msg r
  = (match ProgressToken opt, Text (Content msg) with
     | Some tok, Some text => [ProgressSent (messageEvent r' agentName "0" text) tok]
     | _, _ => []
     end ++ (sendToolCalls opt r' agentName 0 (ToolCalls msg)).1,
     Returned r').
Proof.
  intros Hc Hidx r'. unfold handleMessage. rewrite Hidx, Hc, choiceAt_here, bind_mret.
  assert (storeChoice r 0 (setMessage c (Some msg))
          = setChoices r [setMessage c (Some msg)]) as ->.
  { unfold storeChoice. by rewrite Hc. }
  fold (identify (setChoices r [setMessage c (Some msg)])). fold r'.
  destruct (sendToolCalls_total opt r' agentName 0 (ToolCalls msg))
    as (ts & [] & Hsend & _).
  rewrite Hsend. cbn [fst].
  destruct (ProgressToken opt) as [tok|], (Text (Content msg)) as [text|];
    unfold Send; run_go; by rewrite ?app_nil_r.
Qed.

Lemma runScanner_one opt agentName line held chunk t st :
  decodesTo line chunk →
  processChunk opt agentName chunk initialState = (t, Returned st) →
  runScanner opt agentName {| scanned := [(line, held)]; scanErr := None |}
  = (t ++ (finalize st).1, (finalize st).2).
Proof.
  intros Hline Hrun. unfold runScanner. cbn [scanned scanErr].
  assert (readLines opt agentName [(line, held)] None initialState
          = (t, Returned (st, None))) as ->.
  { rewrite (readLines_chunk _ _ _ chunk), Hrun, bind_returned by done.
    cbn. by rewrite app_nil_r. }
  by rewrite bind_returned.
Qed.

(** C3, at the failing input. A first chunk whose choice 0 carries a
    complete text message and a finish reason: the message is copied as
    it is, the response gets the identifier of the chunk or a synthetic
    one, and with a token configured one event that is not partial
    carries the text; but the finish reason of the chunk is dropped. The
    same role, text and finish reason brought by an ordinary delta leave
    the finish reason on the choice. *)
Theorem quirk_drops_finish_reason (opt : CompletionOptions) (agentName : string)
    (lq ld : string) (hq hd : option ScanError) (id model role text reason : string) :
  decodesTo lq (messageChunk id model 0 (textMessage role text) (Some reason)) →
  decodesTo ld (deltaChunk id model 0 (asDelta (textMessage role text)) (Some reason)) →
  ∃ tq td rq rd cq cd,
    runScanner opt agentName {| scanned := [(lq, hq)]; scanErr := None |}
    = (tq, Returned rq)
    ∧ runScanner opt agentName {| scanned := [(ld, hd)]; scanErr := None |}
      = (td, Returned rd)
    ∧ Choices rq = [cq] ∧ Choices rd = [cd]
    ∧ ChoiceMessage cq = Some (textMessage role text)
    ∧ ID rq = (if nonEmpty id then id else syntheticID)
    ∧ tq = match ProgressToken opt with
           | Some tok =>
               [ProgressSent
                  {| progressModel := model; progressAgent := agentName;
                     MessageID := ID rq;
                     Item := {| itemID := ID rq +:+ "-0"; Partial := false;
                                HasMore := false;
                                itemContent := Some {| contentType := "text";
                                                       contentText := text |};
                                itemToolCall := None |} |} tok]
           | None => []
           end
    ∧ FinishReason cq = None
    ∧ FinishReason cd = Some reason.
Proof.
  intros Lq Ld.
  set (shellChoice := {| Index := 0; ChoiceMessage := Some assistantMessage;
                         FinishReason := None |}).
  (* the quirk run *)
  set (chunkQ := messageChunk id model 0 (textMessage role text) (Some reason)).
  destruct (beginChunk_first chunkQ initialState eq_refl) as (Qid & Qmodel & Qcs).
  set (rq := identify (setChoices (beginChunk chunkQ initialState)
                         [setMessage shellChoice (Some (textMessage role text))])).
  assert (processChunk opt agentName chunkQ initialState
          = (match ProgressToken opt with
             | Some tok => [ProgressSent (messageEvent rq agentName "0" text) tok]
             | None => []
             end,
             Returned {| resp := rq; initialized := true; toolCalls := ∅ |})) as RQ.
  { unfold processChunk. cbn [chunkChoices chunkQ messageChunk processChoices].
    unfold processChoice. cbn [resp scIndex scDelta scMessage]. rewrite Qcs.
    rewrite decide_False by (simpl; lia).
    rewrite (handleMessage_spec _ _ _ _ _ shellChoice) by done.
    fold rq. rewrite !bind_returned. cbn.
    destruct (ProgressToken opt); by rewrite ?app_nil_r. }
  (* the run with an ordinary delta *)
  set (chunkD := deltaChunk id model 0 (asDelta (textMessage role text)) (Some reason)).
  destruct (beginChunk_first chunkD initialState eq_refl) as (Did & Dmodel & Dcs).
  pose proof (processChunk_oneDelta opt agentName chunkD _ _ initialState
                shellChoice assistantMessage
                (conj eq_refl (conj eq_refl eq_refl)) Dcs eq_refl) as RD.
  cbn [deltaToolCalls asDelta textMessage ToolCalls mergeToolCalls mergeAll fst
       toolCalls initialState] in RD.
  assert (Choices rq = [setMessage shellChoice (Some (textMessage role text))]) as Hcq.
  { unfold rq, identify. by destruct (nonEmpty _). }
  assert (Model rq = model) as Hmq.
  { unfold rq, identify. destruct (nonEmpty _); exact Qmodel. }
  assert (ID rq = if nonEmpty id then id else syntheticID) as Hiq.
  { unfold rq, identify.
    change (ID (setChoices (beginChunk chunkQ initialState)
                  [setMessage shellChoice (Some (textMessage role text))]))
      with (ID (beginChunk chunkQ initialState)).
    rewrite Qid. change (chunkID chunkQ) with id. by destruct (nonEmpty id). }
  eexists _, _, rq, _, (setMessage shellChoice (Some (textMessage role text))), _.
  split_and!.
  - rewrite (runScanner_one opt agentName lq hq chunkQ _ _ Lq RQ).
    rewrite finalize_empty by done. cbn [mret Go_ret fst snd resp].
    by rewrite app_nil_r.
  - rewrite (runScanner_one opt agentName ld hd chunkD _ _ Ld RD).
    rewrite finalize_empty by done. cbn [mret Go_ret fst snd resp].
    by rewrite app_nil_r.
  - done.
  - done.
  - done.
  - done.
  - destruct (ProgressToken opt); [|done]. unfold messageEvent. by rewrite Hmq.
  - done.
  - done.
Qed.

(** * Further properties *)

(** ** A stream and its chunks *)

Lemma bind_assoc {A B C} (m : Go A) (f : A → Go B) (g : B → Go C) :
  ((m ≫= f) ≫= g) = (m ≫= λ a, f a ≫= g).
Proof.
  unfold mbind, Go_bind. destruct m as [t [a|e|k]]; [|done..].
  destruct (f a) as [t' [b|e|k]]; [|done..].
  destruct (g b) as [t'' o]. by rewrite app_assoc.
Qed.

Lemma sameResult_trans {A} (x y z : Go A) :
  sameResult x y → sameResult y z → sameResult x z.
Proof. intros [H1 H2] [H3 H4]. split; congruence. Qed.

Lemma readLines_as_chunks opt agentName ls fin st :
  sameResult (readLines opt agentName ls fin st)
    (st' ← processChunks opt agentName (chunksOf ls) st;
     mret (st', stopsWith ls fin)).
Proof.
  revert st. induction ls as [|[l h] ls IH]; intros st.
  - cbn [chunksOf processChunks stopsWith readLines]. by rewrite bind_mret.
  - destruct (line_cases l) as [H | [H | [H | [chunk H]]]].
    + rewrite readLines_other by done. cbn [chunksOf stopsWith]. rewrite H.
      cbn [negb andb]. apply IH.
    + rewrite readLines_done by done. destruct H as [H1 H2].
      cbn [chunksOf stopsWith]. rewrite H1, H2. cbn [negb andb].
      rewrite decide_True, bool_decide_eq_true_2 by done.
      cbn [processChunks]. by rewrite bind_mret.
    + rewrite readLines_undecodable by done. destruct H as (H1 & H2 & H3).
      cbn [chunksOf stopsWith]. rewrite H1, H3. cbn [negb andb].
      rewrite decide_False, bool_decide_eq_false_2 by done.
      unfold Errorf, emit. rewrite bind_returned. cbn [fst snd].
      destruct (IH st) as [IH1 IH2]. split; [done|]. cbn [fst]. exact IH2.
    + rewrite (readLines_chunk _ _ _ chunk) by done. destruct H as (H1 & H2 & H3).
      cbn [chunksOf stopsWith]. rewrite H1, H3. cbn [negb andb].
      rewrite decide_False, bool_decide_eq_false_2 by done.
      cbn [processChunks]. rewrite bind_assoc.
      apply sameResult_bind. intros st1. apply IH.
Qed.

(** X1. A streaming call depends on the lines of the body only through
    the chunks its data lines decode to, up to the first sentinel: it
    ends as the chunks processed one after the other and then converted
    do, with the same progress events. Lines without the prefix, lines
    that do not decode and everything after the sentinel change neither
    the outcome nor the events. *)
Theorem stream_is_its_chunks (opt : CompletionOptions) (agentName : string)
    (lines : Scanner) :
  sameResult (runScanner opt agentName lines)
    (st ← processChunks opt agentName (chunksOf (scanned lines)) initialState;
     match stopsWith (scanned lines) (scanErr lines) with
     | Some e => fail (ErrReadStreaming e)
     | None => finalize st
     end).
Proof.
  unfold runScanner.
  eapply sameResult_trans.
  { apply sameResult_bind_both. apply readLines_as_chunks. }
  rewrite bind_assoc. apply sameResult_bind. intros st.
  rewrite bind_mret. apply sameResult_refl.
Qed.

(** X2. A stream whose chunks carry no negative choice index never
    panics in the loop: every line is read up to the sentinel or the end
    of the input, whatever the chunks hold besides, and the state the
    loop ends in is well formed. *)
Theorem indexed_stream_is_read (opt : CompletionOptions) (agentName : string)
    (ls : list (string * option ScanError)) (fin : option ScanError) :
  Forall indexed (chunksOf ls) →
  ∃ t st, readLines opt agentName ls fin initialState
          = (t, Returned (st, stopsWith ls fin))
          ∧ invariant st
          ∧ (chunksOf ls ≠ [] → wellFormed (resp st)).
Proof.
  intros Hall.
  assert (∀ st, invariant st →
            ∃ t st', readLines opt agentName ls fin st
                     = (t, Returned (st', stopsWith ls fin))
                     ∧ invariant st'
                     ∧ (chunksOf ls ≠ [] → wellFormed (resp st'))) as Hgen.
  { induction ls as [|[l h] ls IH]; intros st Hinv.
    - exists [], st. by split_and!.
    - destruct (line_cases l) as [H | [H | [H | [chunk H]]]].
      + rewrite readLines_other by done. cbn [chunksOf stopsWith] in Hall |- *.
        rewrite H in Hall |- *. cbn [negb andb] in Hall |- *. by apply IH.
      + rewrite readLines_done by done. destruct H as [H1 H2].
        cbn [chunksOf stopsWith]. rewrite H1, H2. cbn [negb andb].
        rewrite decide_True, bool_decide_eq_true_2 by done.
        exists [], st. by split_and!.
      + rewrite readLines_undecodable by done. destruct H as (H1 & H2 & H3).
        cbn [chunksOf stopsWith] in Hall |- *. rewrite H1, H3 in Hall |- *.
        cbn [negb andb] in Hall |- *.
        rewrite decide_False in Hall |- * by done.
        rewrite bool_decide_eq_false_2 by done.
        destruct (IH Hall st Hinv) as (t & st' & Hr & Hi & Hw).
        exists (ErrorLogged (payload l) :: t), st'.
        unfold Errorf, emit. rewrite bind_returned, Hr. by split_and!.
      + rewrite (readLines_chunk _ _ _ chunk) by done. destruct H as (H1 & H2 & H3).
        cbn [chunksOf stopsWith] in Hall |- *. rewrite H1, H3 in Hall |- *.
        cbn [negb andb] in Hall |- *.
        rewrite decide_False in Hall |- * by done.
        rewrite bool_decide_eq_false_2 by done.
        apply Forall_cons in Hall as [Hc Hall].
        destruct (processChunk_total opt agentName chunk st Hinv Hc)
          as (t1 & st1 & Hp & Hinv1 & Hinit1).
        destruct (IH Hall st1 Hinv1) as (t & st' & Hr & Hi & Hw).
        exists (t1 ++ t), st'. rewrite Hp, bind_returned, Hr. split_and!; [done..|].
        intros _. destruct (decide (chunksOf ls = [])) as [He|He]; [|by apply Hw].
        clear Hw. enough (initialized st' = true) as Hin by by apply Hi.
        pose proof (readLines_as_chunks opt agentName ls fin st1) as [Ho _].
        rewrite Hr, He in Ho. cbn [processChunks snd] in Ho.
        rewrite !bind_mret in Ho. cbn in Ho. by simplify_eq. }
  apply Hgen, invariant_initialState.
Qed.

(** ** A negative choice index *)

Lemma choiceAt_negative (cs : list Choice) (i : Z) :
  i < 0 → choiceAt cs i = ([], Panicked IndexOutOfRange).
Proof. intros H. unfold choiceAt. by rewrite decide_False by lia. Qed.


(** ** The conversion of a sparse accumulator *)

Lemma keys_in_range_dense (acc : gmap Z ToolCall) (order : list (Z * ToolCall)) :
  order ≡ₚ map_to_list acc →
  Forall (λ e, 0 ≤ e.1 < Z.of_nat (length order)) order →
  dense acc (length order).
Proof.
  intros Hperm Hall.
  assert (NoDup order.*1) as Hnd.
  { rewrite Hperm. apply NoDup_fst_map_to_list. }
  set (keys := Z.to_nat <$> order.*1).
  assert (NoDup keys) as Hkeys.
  { apply NoDup_fmap_2_strong; [|done].
    intros i j Hi Hj Heq.
    apply list_elem_of_fmap in Hi as ([i' tc] & -> & Hi).
    apply list_elem_of_fmap in Hj as ([j' tc'] & -> & Hj).
    rewrite Forall_forall in Hall.
    pose proof (Hall _ Hi). pose proof (Hall _ Hj). cbn [fst] in *. lia. }
  assert (keys ≡ₚ seq 0 (length order)) as Hall_keys.
  { apply submseteq_length_Permutation.
    - apply NoDup_submseteq; [done|]. intros k Hk.
      apply list_elem_of_fmap in Hk as (i & -> & Hi).
      apply list_elem_of_fmap in Hi as ([i' tc] & -> & Hi).
      rewrite Forall_forall in Hall. pose proof (Hall _ Hi). cbn [fst] in *.
      apply elem_of_seq. lia.
    - unfold keys. by rewrite length_seq, !length_fmap. }
  intros k. split.
  - intros [tc Hk]. apply elem_of_map_to_list in Hk. rewrite <- Hperm in Hk.
    rewrite Forall_forall in Hall. apply (Hall _ Hk).
  - intros Hk.
    assert (Z.to_nat k ∈ keys) as Hin.
    { rewrite Hall_keys. apply elem_of_seq. lia. }
    apply list_elem_of_fmap in Hin as (i & Heq & Hi).
    apply list_elem_of_fmap in Hi as ([i' tc] & -> & Hi).
    rewrite Forall_forall in Hall. pose proof (Hall _ Hi). cbn [fst] in *.
    assert (i' = k) as -> by lia.
    exists tc. apply elem_of_map_to_list. by rewrite <- Hperm.
Qed.

(** X4. When the keys of the accumulator are not exactly [0 .. n-1], the
    conversion panics with an index out of range, in whatever order the
    map iteration visits the entries: one of the keys lies outside the
    list of [n] entries that was made for them. So does the call, whose
    response had its message until then. *)
Theorem sparse_accumulator_panics (acc : gmap Z ToolCall)
    (order : list (Z * ToolCall)) (r : Response) :
  order ≡ₚ map_to_list acc →
  ¬ dense acc (length order) →
  (∃ i tc, (i, tc) ∈ order ∧ ¬ (0 ≤ i < Z.of_nat (length order)))
  ∧ toolCallsToSlice order = ([], Panicked IndexOutOfRange)
  ∧ (wellFormed r → finalizeIn order r = ([], Panicked IndexOutOfRange)).
Proof.
  intros Hperm Hsparse.
  assert (∃ i tc, (i, tc) ∈ order ∧ ¬ (0 ≤ i < Z.of_nat (length order)))
    as (i & tc & Hin & Hout).
  { destruct (decide (Forall (λ e : Z * ToolCall,
                                0 ≤ e.1 < Z.of_nat (length order)) order))
      as [Hall|Hex].
    - destruct Hsparse. by apply keys_in_range_dense.
    - apply not_Forall_Exists in Hex; [|intros e; apply _].
      apply Exists_exists in Hex as ([i tc] & Hin & Hout). by exists i, tc. }
  assert (toolCallsToSlice order = ([], Panicked IndexOutOfRange)) as Hslice.
  { unfold toolCallsToSlice. apply (fillToolCalls_outside _ _ i tc); [done|].
    by rewrite length_replicate. }
  split_and!; [by exists i, tc|done|].
  intros (c & m & Hc & Hm). unfold finalizeIn.
  rewrite decide_True by (destruct order; [by apply elem_of_nil in Hin|cbn; lia]).
  rewrite Hc, choiceAt_here, bind_mret, Hm, deref_Some, bind_mret.
  by rewrite Hslice.
Qed.

(** ** What the chunks leave of the response *)

Lemma sameChoice_refl (c : Choice) : sameChoice c c.
Proof. done. Qed.

Lemma framed_refl (r : Response) : framed r r.
Proof.
  split_and!; try done; [by left|]. apply Forall_Forall2_diag, Forall_forall.
  intros c _. apply sameChoice_refl.
Qed.

Lemma framed_trans (r1 r2 r3 : Response) : framed r1 r2 → framed r2 r3 → framed r1 r3.
Proof.
  intros (A1 & A2 & A3 & A4 & A5 & A6 & A7 & A8) (B1 & B2 & B3 & B4 & B5 & B6 & B7 & B8).
  split_and!; try congruence.
  - intros Hid. rewrite <- (A6 Hid). apply B6. by rewrite (A6 Hid).
  - destruct A7 as [A7|A7], B7 as [B7|B7]; [left; congruence|by right|..].
    + right. rewrite <- A7. apply B6. rewrite A7. apply syntheticID_nonEmpty.
    + by right.
  - eapply Forall2_trans; [|done..].
    intros c1 c2 c3 (C1 & C2 & C3) (D1 & D2 & D3).
    split_and!; [congruence|eauto..].
Qed.

Lemma storeChoice_framed (r : Response) (idx : Z) (c c' : Choice) :
  Choices r !! Z.to_nat idx = Some c → sameChoice c c' →
  framed r (storeChoice r idx c').
Proof.
  intros Hc Hsame. split_and!; try done; [by left|].
  unfold storeChoice. cbn [Choices setChoices].
  rewrite <- (list_insert_id (Choices r) (Z.to_nat idx) c) at 1 by done.
  apply Forall2_insert; [|done].
  apply Forall_Forall2_diag, Forall_forall. intros c0 _. apply sameChoice_refl.
Qed.

Lemma handleDelta_framed opt agentName choice delta st :
  holds (λ _, True) (λ st', framed (resp st) (resp st')
                            ∧ initialized st' = initialized st)
    (handleDelta opt agentName choice delta st).
Proof.
  unfold handleDelta.
  eapply holds_bind with (Q := framed (resp st)).
  { destruct (nonEmpty (deltaRole delta)); [|apply holds_mret, framed_refl].
    eapply holds_bind; [apply holds_choiceAt|]. intros c [Hidx Hc].
    destruct (ChoiceMessage c) eqn:Hm; apply holds_mret; [|apply framed_refl].
    eapply storeChoice_framed; [done|]. split_and!; [done| by eexists |done]. }
  intros r1 K1. eapply holds_bind with (Q := framed (resp st)).
  { destruct (deltaContent delta) as [f|] eqn:Hf; [|by apply holds_mret].
    eapply holds_bind; [apply holds_choiceAt|]. intros c [Hidx Hc].
    eapply holds_bind; [apply holds_deref|]. intros m Hm.
    eapply holds_bind with (Q := λ _, True).
    { unfold when. destruct (_ && _); [|by apply holds_mret]. by apply holds_Send. }
    intros _ _. apply holds_mret. eapply framed_trans; [done|].
    eapply storeChoice_framed; [done|]. split_and!; [done| by eexists |done]. }
  intros r2 K2. eapply holds_bind with (Q := λ _, True).
  { eapply holds_weaken; [|by apply mergeToolCalls_holds]. done. }
  intros acc _. eapply holds_bind with (Q := framed (resp st)).
  { destruct (scFinishReason choice); [|by apply holds_mret].
    eapply holds_bind; [apply holds_choiceAt|]. intros c [Hidx Hc].
    apply holds_mret. eapply framed_trans; [done|].
    eapply storeChoice_framed; [done|]. split_and!; [done|done|by eexists]. }
  intros r3 K3. eapply holds_bind with (Q := framed (resp st)).
  { destruct (deltaRefusal delta); [|by apply holds_mret].
    eapply holds_bind; [apply holds_choiceAt|]. intros c [Hidx Hc].
    eapply holds_bind; [apply holds_deref|]. intros m Hm.
    apply holds_mret. eapply framed_trans; [done|].
    eapply storeChoice_framed; [done|]. split_and!; [done| by eexists |done]. }
  intros r4 K4. by apply holds_mret.
Qed.

Lemma handleMessage_framed opt agentName choice msg r :
  holds (λ _, True) (framed r) (handleMessage opt agentName choice msg r).
Proof.
  unfold handleMessage.
  eapply holds_bind; [apply holds_choiceAt|]. intros c [Hidx Hc].
  match goal with |- context [nonEmpty (ID ?x)] => set (r1 := x) end.
  assert (framed r r1) as K1.
  { eapply storeChoice_framed; [done|]. split_and!; [done| by eexists |done]. }
  eapply holds_bind with (Q := λ _, True).
  { destruct (ProgressToken opt); [|by apply holds_mret].
    destruct (Text (Content msg)); [|by apply holds_mret].
    by apply holds_Send. }
  intros _ _. eapply holds_bind with (Q := λ _, True).
  { by apply sendToolCalls_holds. }
  intros _ _. apply holds_mret.
  destruct (nonEmpty (ID r1)) eqn:Hid; [done|].
  eapply framed_trans; [done|].
  split_and!; try done; [|by right|].
  - intros Hne. by rewrite Hid in Hne.
  - apply Forall_Forall2_diag, Forall_forall. intros c0 _. apply sameChoice_refl.
Qed.

Lemma processChoice_framed opt agentName st choice :
  holds (λ _, True) (λ st', framed (resp st) (resp st')
                            ∧ initialized st' = initialized st)
    (processChoice opt agentName st choice).
Proof.
  unfold processChoice. case_decide; [apply holds_mret; split; [apply framed_refl|done]|].
  destruct (scDelta choice) as [delta|]; [apply handleDelta_framed|].
  destruct (scMessage choice) as [msg|];
    [|apply holds_mret; split; [apply framed_refl|done]].
  eapply holds_bind; [apply handleMessage_framed|].
  intros r E. by apply holds_mret.
Qed.

Lemma processChoices_framed opt agentName choices st :
  holds (λ _, True) (λ st', framed (resp st) (resp st')
                            ∧ initialized st' = initialized st)
    (processChoices opt agentName choices st).
Proof.
  revert st. induction choices as [|choice rest IH]; intros st.
  - apply holds_mret. split; [apply framed_refl|done].
  - cbn [processChoices]. eapply holds_bind; [apply processChoice_framed|].
    intros st1 [R1 I1]. eapply holds_weaken; [|apply IH].
    intros st2 [R2 I2]. split; [by eapply framed_trans | congruence].
Qed.

(** X5. The choices of a chunk leave the frame of the response alone:
    after the chunk the object, the creation time, the model, the
    fingerprint and the usage are those the response had when the chunk
    began (lines 207-228), an identifier that was not empty is the same
    and one that was empty is still empty or the synthetic one, and the
    response has the same number of choices, each with the index it had,
    and with a message and a finish reason if it had one. The chunk never
    returns an error. *)
Theorem chunk_keeps_frame (opt : CompletionOptions) (agentName : string)
    (chunk : StreamChunk) (st : StreamState) :
  let m := processChunk opt agentName chunk st in
  (∀ e, m.2 ≠ Failed e)
  ∧ (∀ st', m.2 = Returned st' →
       initialized st' = true
       ∧ framed (beginChunk chunk st) (resp st')
       ∧ length (Choices (resp st')) = length (Choices (beginChunk chunk st))).
Proof.
  intros m.
  assert (holds (λ _, True)
            (λ st', framed (beginChunk chunk st) (resp st') ∧ initialized st' = true)
            m) as (_ & Hf & Hq).
  { unfold m, processChunk.
    eapply holds_weaken; [|apply processChoices_framed].
    intros st' [R I]. by split. }
  split; [done|].
  intros st' Hst'. destruct (Hq st' Hst') as [R I].
  split_and!; [done..|].
  destruct R as (_ & _ & _ & _ & _ & _ & _ & R).
  symmetry. by eapply Forall2_length.
Qed.

Lemma beginChunk_frame (chunk : StreamChunk) (st : StreamState) :
  let r0 := if initialized st then resp st else shell chunk in
  Object (beginChunk chunk st) = Object r0
  ∧ Created (beginChunk chunk st) = Created r0
  ∧ Model (beginChunk chunk st) = Model r0
  ∧ SystemFingerprint (beginChunk chunk st) = SystemFingerprint r0
  ∧ ResponseUsage (beginChunk chunk st)
    = match chunkUsage chunk with Some x => Some x | None => ResponseUsage r0 end
  ∧ ID (beginChunk chunk st)
    = (if nonEmpty (ID r0) then ID r0 else chunkID chunk)
  ∧ Choices (beginChunk chunk st) = Choices r0.
Proof.
  intros r0. unfold beginChunk. fold r0.
  destruct (nonEmpty (ID r0)) eqn:Hid; cbn [negb andb].
  - by destruct (chunkUsage chunk).
  - destruct (nonEmpty (chunkID chunk)) eqn:Hc, (chunkUsage chunk);
      cbn; split_and!; try done; apply nonEmpty_false in Hid, Hc; congruence.
Qed.

Lemma processChunks_framed opt agentName chunks st :
  initialized st = true →
  holds (λ _, True)
    (λ st', Object (resp st') = Object (resp st)
            ∧ Created (resp st') = Created (resp st)
            ∧ Model (resp st') = Model (resp st)
            ∧ SystemFingerprint (resp st') = SystemFingerprint (resp st)
            ∧ ResponseUsage (resp st') = lastUsage chunks (ResponseUsage (resp st))
            ∧ (nonEmpty (ID (resp st)) = true → ID (resp st') = ID (resp st))
            ∧ Forall2 sameChoice (Choices (resp st)) (Choices (resp st'))
            ∧ initialized st' = true)
    (processChunks opt agentName chunks st).
Proof.
  revert st. induction chunks as [|chunk chunks IH]; intros st Hinit.
  - apply holds_mret. split_and!; try done.
    apply Forall_Forall2_diag, Forall_forall. intros c _. apply sameChoice_refl.
  - cbn [processChunks]. eapply holds_bind.
    { unfold processChunk. apply processChoices_framed. }
    cbn [resp initialized]. intros st1 [R1 I1].
    eapply holds_weaken; [|by apply IH].
    intros st2 (B1 & B2 & B3 & B4 & B5 & B6 & B7 & B8).
    destruct R1 as (A1 & A2 & A3 & A4 & A5 & A6 & _ & A8).
    pose proof (beginChunk_frame chunk st) as (F1 & F2 & F3 & F4 & F5 & F6 & F7).
    rewrite Hinit in F1, F2, F3, F4, F5, F6, F7.
    cbn [lastUsage foldl]. fold (lastUsage chunks).
    split_and!; [congruence..| | | |done].
    + rewrite B5, A5, F5. done.
    + intros Hid. rewrite Hid in F6. rewrite <- F6 in Hid.
      rewrite B6; rewrite (A6 Hid); [done|by rewrite F6 in *].
    + rewrite F7 in A8. eapply Forall2_trans; [|done..].
      intros c1 c2 c3 (C1 & C2 & C3) (D1 & D2 & D3).
      split_and!; [congruence|eauto..].
Qed.

Lemma runScanner_returned opt agentName lines r :
  (runScanner opt agentName lines).2 = Returned r →
  ∃ st, (processChunks opt agentName (chunksOf (scanned lines)) initialState).2
        = Returned st
        ∧ stopsWith (scanned lines) (scanErr lines) = None
        ∧ (finalize st).2 = Returned r.
Proof.
  unfold runScanner. intros Hr.
  pose proof (readLines_as_chunks opt agentName (scanned lines) (scanErr lines)
                initialState) as [Ho _].
  destruct (readLines opt agentName (scanned lines) (scanErr lines) initialState)
    as [t1 [[st e]|e|k]]; [|done..].
  rewrite bind_returned in Hr. cbn [fst snd] in Hr, Ho.
  destruct (processChunks opt agentName (chunksOf (scanned lines)) initialState)
    as [t2 [st2|e2|k2]]; [|done..].
  rewrite bind_returned in Ho. cbn in Ho. injection Ho as -> ->.
  exists st2. split_and!; [done| |].
  - by destruct (stopsWith _ _).
  - by destruct (stopsWith _ _).
Qed.

Lemma finalizeIn_framed (order : list (Z * ToolCall)) (r : Response) :
  holds (λ _, True) (framed r) (finalizeIn order r).
Proof.
  unfold finalizeIn. case_decide; [|apply holds_mret, framed_refl].
  eapply holds_bind; [apply holds_choiceAt|]. intros c [_ Hc].
  eapply holds_bind; [apply holds_deref|]. intros m Hm.
  eapply holds_bind; [apply fillToolCalls_holds|]. intros l _.
  apply holds_mret. eapply storeChoice_framed; [done|].
  split_and!; [done| by eexists |done].
Qed.

Lemma bind_returned_inv {A B} (m : Go A) (f : A → Go B) (b : B) :
  (m ≫= f).2 = Returned b → ∃ a, m.2 = Returned a ∧ (f a).2 = Returned b.
Proof.
  destruct m as [t [a|e|k]]; [|done..].
  rewrite bind_returned. cbn [snd]. by exists a.
Qed.

(** What a stream that returns leaves in the response, given the chunks
    it decoded. *)
Lemma runScanner_frame opt agentName lines r chunk chunks :
  (runScanner opt agentName lines).2 = Returned r →
  chunksOf (scanned lines) = chunk :: chunks →
  Object r = "chat.completion"
  ∧ Created r = chunkCreated chunk
  ∧ Model r = chunkModel chunk
  ∧ SystemFingerprint r = chunkSystemFingerprint chunk
  ∧ ResponseUsage r = lastUsage (chunk :: chunks) None
  ∧ (chunkID chunk ≠ "" → ID r = chunkID chunk)
  ∧ ∃ c m, Choices r = [c] ∧ Index c = 0 ∧ ChoiceMessage c = Some m.
Proof.
  intros Hr Hchunks.
  apply runScanner_returned in Hr as (st & Hst & _ & Hfin).
  rewrite Hchunks in Hst. cbn [processChunks] in Hst.
  apply bind_returned_inv in Hst as (st1 & Hst1 & Hst).
  destruct (processChoices_framed opt agentName (chunkChoices chunk)
              {| resp := beginChunk chunk initialState; initialized := true;
                 toolCalls := toolCalls initialState |}) as (_ & _ & H1).
  destruct (H1 st1 Hst1) as [(A1 & A2 & A3 & A4 & A5 & A6 & _ & A8) I1].
  cbn [resp initialized] in *.
  destruct (processChunks_framed opt agentName chunks st1 I1) as (_ & _ & H2).
  destruct (H2 st Hst) as (B1 & B2 & B3 & B4 & B5 & B6 & B7 & _).
  destruct (finalizeIn_framed (map_to_list (toolCalls st)) (resp st)) as (_ & _ & H3).
  destruct (H3 r Hfin) as (C1 & C2 & C3 & C4 & C5 & C6 & _ & C8).
  pose proof (beginChunk_frame chunk initialState) as (F1 & F2 & F3 & F4 & F5 & F6 & F7).
  cbn [initialized initialState shell ID Object Created Model SystemFingerprint
       ResponseUsage Choices] in F1, F2, F3, F4, F5, F6, F7.
  split_and!; [congruence..| | |].
  - rewrite C5, B5, A5, F5. cbn [lastUsage foldl]. done.
  - intros Hid. apply nonEmpty_true in Hid. rewrite Hid in F6.
    assert (nonEmpty (ID (beginChunk chunk initialState)) = true) as G0
      by by rewrite F6.
    pose proof (A6 G0) as G1. rewrite <- G1 in G0.
    pose proof (B6 G0) as G2. rewrite <- G2 in G0.
    rewrite (C6 G0), G2, G1, F6. done.
  - rewrite F7 in A8.
    apply Forall2_cons_inv_l in A8 as (c1 & l1 & (D1 & D2 & _) & Hnil & E1).
    apply Forall2_nil_inv_l in Hnil as ->. rewrite E1 in B7.
    apply Forall2_cons_inv_l in B7 as (c2 & l2 & (D3 & D4 & _) & Hnil & E2).
    apply Forall2_nil_inv_l in Hnil as ->. rewrite E2 in C8.
    apply Forall2_cons_inv_l in C8 as (c3 & l3 & (D5 & D6 & _) & Hnil & E3).
    apply Forall2_nil_inv_l in Hnil as ->.
    destruct D6 as [m Hm]; [apply D4, D2; by eexists|].
    exists c3, m. split_and!; [done| |done]. cbn in D1. congruence.
Qed.

Lemma runScanner_no_chunks opt agentName lines r :
  (runScanner opt agentName lines).2 = Returned r →
  chunksOf (scanned lines) = [] → r = zeroResponse.
Proof.
  intros Hr Hchunks.
  apply runScanner_returned in Hr as (st & Hst & _ & Hfin).
  rewrite Hchunks in Hst. cbn in Hst. injection Hst as <-.
  rewrite finalize_empty in Hfin by done. cbn in Hfin. by injection Hfin as <-.
Qed.

(** X6. The frame of a streamed response is the frame of its first
    chunk: the object is [chat.completion], the creation time, the model
    and the fingerprint are those of the first chunk that decodes,
    whatever the later chunks say, and so is the identifier when that
    chunk has one; the response has the one choice of the shell, with
    index 0 and a message. A stream that returns without any chunk
    returns the zero response. *)
Theorem first_chunk_frames_response (opt : CompletionOptions)
    (agentName : string) (lines : Scanner) :
  ∀ r, (runScanner opt agentName lines).2 = Returned r →
    match chunksOf (scanned lines) with
    | [] => r = zeroResponse
    | chunk :: _ =>
        Object r = "chat.completion"
        ∧ Created r = chunkCreated chunk
        ∧ Model r = chunkModel chunk
        ∧ SystemFingerprint r = chunkSystemFingerprint chunk
        ∧ (chunkID chunk ≠ "" → ID r = chunkID chunk)
        ∧ ∃ c m, Choices r = [c] ∧ Index c = 0 ∧ ChoiceMessage c = Some m
    end.
Proof.
  intros r Hr.
  destruct (chunksOf (scanned lines)) as [|chunk chunks] eqn:Hchunks.
  - by eapply runScanner_no_chunks.
  - destruct (runScanner_frame _ _ _ _ _ _ Hr Hchunks)
      as (H1 & H2 & H3 & H4 & _ & H6 & H7).
    by split_and!.
Qed.

(** X7. The usage of a streamed response is the usage of the last chunk
    that brings one, and none when no chunk does: each chunk with a usage
    overwrites what the chunks before it reported (lines 226-228). *)
Theorem usage_of_last_chunk (opt : CompletionOptions) (agentName : string)
    (lines : Scanner) :
  ∀ r, (runScanner opt agentName lines).2 = Returned r →
    ResponseUsage r = lastUsage (chunksOf (scanned lines)) None
    ∧ (∀ pre chunk post u,
         chunksOf (scanned lines) = pre ++ chunk :: post →
         chunkUsage chunk = Some u →
         Forall (λ c, chunkUsage c = None) post →
         ResponseUsage r = Some u).
Proof.
  intros r Hr.
  assert (ResponseUsage r = lastUsage (chunksOf (scanned lines)) None) as Hu.
  { destruct (chunksOf (scanned lines)) as [|chunk chunks] eqn:Hchunks.
    - by rewrite (runScanner_no_chunks _ _ _ _ Hr Hchunks).
    - by destruct (runScanner_frame _ _ _ _ _ _ Hr Hchunks) as (_ & _ & _ & _ & H5 & _). }
  split; [done|].
  intros pre chunk post u Heq Hchunk Hpost. rewrite Hu, Heq.
  unfold lastUsage. rewrite foldl_app. cbn [foldl]. rewrite Hchunk.
  clear Hu Hr Heq. induction Hpost as [|c post Hc _ IH]; [done|].
  cbn [foldl]. rewrite Hc. apply IH.
Qed.

(** ** One identifier for all the events of a call *)

Lemma stamped_change opt agentName id id' model (t : list Effect) :
  (id ≠ "" → id' = id) →
  Forall (stamped opt agentName id model) t →
  Forall (stamped opt agentName id' model) t.
Proof.
  intros Hid Ht. eapply Forall_impl; [done|]. intros [p tok|data]; [|done].
  intros (H1 & H2 & H3 & H4 & H5). rewrite (Hid H4). by split_and!.
Qed.

Lemma settles_bind {A B} opt agentName (va : A → Response) (vb : B → Response)
    (r : Response) (m : Go A) (f : A → Go B) :
  settles opt agentName va r m →
  (∀ a, m.2 = Returned a → settles opt agentName vb (va a) (f a)) →
  settles opt agentName vb r (m ≫= f).
Proof.
  destruct m as [t [a|e|k]]; unfold settles; cbn [fst snd]; [|done..].
  intros (Hm & Hid & Ht) Hf. specialize (Hf a eq_refl).
  rewrite bind_returned. cbn [fst snd].
  destruct (f a) as [t' [b|e|k]]; cbn [fst snd] in *.
  - destruct Hf as (Hm' & Hid' & Ht'). rewrite Hm in Hm', Ht'.
    split_and!; [done| |].
    + intros Hne. rewrite Hid'; [by apply Hid|]. by rewrite Hid.
    + apply Forall_app. split; [|done].
      eapply stamped_change; [|done]. intros Hne. apply Hid'.
      by apply nonEmpty_true.
  - destruct Hf as (id & Hid' & Ht'). rewrite Hm in Ht'. exists id. split.
    + intros Hne. rewrite Hid'; [by apply Hid|]. by rewrite Hid.
    + apply Forall_app. split; [|done].
      eapply stamped_change; [|done]. intros Hne. apply Hid'.
      by apply nonEmpty_true.
  - destruct Hf as (id & Hid' & Ht'). rewrite Hm in Ht'. exists id. split.
    + intros Hne. rewrite Hid'; [by apply Hid|]. by rewrite Hid.
    + apply Forall_app. split; [|done].
      eapply stamped_change; [|done]. intros Hne. apply Hid'.
      by apply nonEmpty_true.
Qed.

Lemma holds_settles {A} opt agentName (view : A → Response) (r : Response)
    (id : string) (m : Go A) :
  holds (stamped opt agentName id (Model r))
        (λ a, ID (view a) = id ∧ Model (view a) = Model r) m →
  (nonEmpty (ID r) = true → id = ID r) →
  settles opt agentName view r m.
Proof.
  intros (Ht & Hf & Hq) Hid. unfold settles.
  destruct m as [t [a|e|k]]; cbn [fst snd] in *.
  - destruct (Hq a eq_refl) as [H1 H2]. rewrite H1. split_and!; [done|done|done].
  - by destruct (Hf e).
  - by exists id.
Qed.

Lemma settles_from {A} opt agentName (view : A → Response) (r r0 : Response)
    (m : Go A) :
  Model r0 = Model r → (nonEmpty (ID r) = true → ID r0 = ID r) →
  settles opt agentName view r0 m → settles opt agentName view r m.
Proof.
  intros Hm Hid. unfold settles. rewrite Hm. destruct m.2.
  - intros (H1 & H2 & H3). split_and!; [done| |done].
    intros Hne. rewrite H2; [by apply Hid|]. by rewrite Hid.
  - intros (id & H1 & H2). exists id. split; [|done].
    intros Hne. rewrite H1; [by apply Hid|]. by rewrite Hid.
  - intros (id & H1 & H2). exists id. split; [|done].
    intros Hne. rewrite H1; [by apply Hid|]. by rewrite Hid.
Qed.

Lemma settles_mret {A} opt agentName (view : A → Response) (a : A) :
  settles opt agentName view (view a) (mret a).
Proof. apply (holds_settles _ _ _ _ (ID (view a))); [by apply holds_mret|done]. Qed.

Lemma handleDelta_settles opt agentName choice delta st :
  settles opt agentName resp (resp st) (handleDelta opt agentName choice delta st).
Proof.
  apply (holds_settles _ _ _ _ (ID (resp st))); [|done].
  eapply holds_weaken; [|apply handleDelta_holds].
  - by intros st' ((K1 & K2 & _) & _).
  - intros Hid tok Htok. apply nonEmpty_true in Hid. by split; intros.
Qed.

Lemma handleMessage_stamped opt agentName choice msg r :
  holds (stamped opt agentName (ID (identify r)) (Model r))
        (λ r', ID r' = ID (identify r) ∧ Model r' = Model r)
    (handleMessage opt agentName choice msg r).
Proof.
  unfold handleMessage.
  eapply holds_bind; [apply holds_choiceAt|]. intros c [Hidx Hc].
  match goal with |- context [nonEmpty (ID ?x)] => set (r1 := x) end.
  set (r2 := if nonEmpty (ID r1) then r1 else setID r1 syntheticID).
  assert (ID r2 = ID (identify r) ∧ Model r2 = Model r ∧ ID r2 ≠ "")
    as (Hid & Hmodel & Hne).
  { unfold r2, identify. change (ID r1) with (ID r).
    destruct (nonEmpty (ID r)) eqn:Hid; [by apply nonEmpty_true in Hid|done]. }
  eapply holds_bind with (Q := λ _, True).
  { destruct (ProgressToken opt) eqn:Htok; [|by apply holds_mret].
    destruct (Text (Content msg)); [|by apply holds_mret].
    apply holds_Send. intros tok [= ->]. cbn. rewrite <- Hid. by split_and!. }
  intros _ _. eapply holds_bind with (Q := λ _, True).
  { apply sendToolCalls_holds. intros tok j tc Htok _. cbn. rewrite <- Hid.
    by split_and!. }
  intros _ _. by apply holds_mret.
Qed.

Lemma processChoice_settles opt agentName st choice :
  settles opt agentName resp (resp st) (processChoice opt agentName st choice).
Proof.
  unfold processChoice.
  case_decide; [apply (settles_mret _ _ resp)|].
  destruct (scDelta choice) as [delta|]; [apply handleDelta_settles|].
  destruct (scMessage choice) as [msg|];
    [|apply (settles_mret _ _ resp)].
  apply (holds_settles _ _ _ _ (ID (identify (resp st)))).
  - eapply holds_bind; [apply handleMessage_stamped|].
    intros r Hr. by apply holds_mret.
  - intros Hne. unfold identify. by rewrite Hne.
Qed.

Lemma processChoices_settles opt agentName choices st :
  settles opt agentName resp (resp st) (processChoices opt agentName choices st).
Proof.
  revert st. induction choices as [|choice rest IH]; intros st.
  - apply (settles_mret _ _ resp).
  - cbn [processChoices]. eapply settles_bind; [apply processChoice_settles|].
    intros st1 _. apply IH.
Qed.

(** The response the first chunk of the input starts from, or [r] when
    there is none. *)
Lemma readLines_settles opt agentName ls fin st :
  ∃ r0, (initialized st = true → r0 = resp st)
        ∧ settles opt agentName (λ x, resp x.1) r0
            (readLines opt agentName ls fin st).
Proof.
  revert st. induction ls as [|[l h] ls IH]; intros st.
  - exists (resp st). split; [done|]. apply (settles_mret _ _ (λ x, resp x.1) (st, fin)).
  - destruct (line_cases l) as [H | [H | [H | [chunk H]]]].
    + rewrite readLines_other by done. apply IH.
    + rewrite readLines_done by done. exists (resp st). split; [done|].
      apply (settles_mret _ _ (λ x, resp x.1) (st, h)).
    + rewrite readLines_undecodable by done.
      destruct (IH st) as (r0 & Hr0 & Hs). exists r0. split; [done|].
      unfold Errorf, emit. rewrite bind_returned. cbn [fst snd].
      unfold settles in *. cbn [fst snd].
      destruct (readLines opt agentName ls fin st).2.
      * destruct Hs as (H1 & H2 & H3). split_and!; [done..|].
        by apply Forall_cons.
      * destruct Hs as (id & H1 & H2). exists id. split; [done|].
        by apply Forall_cons.
      * destruct Hs as (id & H1 & H2). exists id. split; [done|].
        by apply Forall_cons.
    + rewrite (readLines_chunk _ _ _ chunk) by done.
      exists (if initialized st then resp st else shell chunk).
      split; [by intros ->|].
      pose proof (beginChunk_frame chunk st) as (_ & _ & F3 & _ & _ & F6 & _).
      cbn zeta in F3, F6.
      eapply settles_bind with (va := resp).
      * unfold processChunk.
        eapply settles_from; [| |apply processChoices_settles]; cbn [resp].
        -- done.
        -- intros Hne. by rewrite F6, Hne.
      * intros st1 Hst1.
        destruct (processChoices_framed opt agentName (chunkChoices chunk)
                    {| resp := beginChunk chunk st; initialized := true;
                       toolCalls := toolCalls st |}) as (_ & _ & Hq).
        destruct (Hq st1 Hst1) as [_ Hinit]. cbn [initialized] in Hinit.
        destruct (IH st1) as (r1 & Hr1 & Hs). by rewrite (Hr1 Hinit) in Hs.
Qed.

Lemma finalizeIn_keeps P (order : list (Z * ToolCall)) (r : Response) :
  holds P (keeps r) (finalizeIn order r).
Proof.
  unfold finalizeIn. case_decide; [|apply holds_mret, keeps_refl].
  eapply holds_bind; [apply holds_choiceAt|]. intros c [Hidx Hc].
  eapply holds_bind; [apply holds_deref|]. intros m Hm.
  eapply holds_bind; [apply fillToolCalls_holds|]. intros l _.
  apply holds_mret. eapply storeChoice_keeps; [done|done|by eexists].
Qed.

Lemma runScanner_settles opt agentName lines :
  ∃ r0, settles opt agentName id r0 (runScanner opt agentName lines).
Proof.
  destruct (readLines_settles opt agentName (scanned lines) (scanErr lines)
              initialState) as (r0 & _ & Hs).
  exists r0. unfold runScanner. eapply settles_bind; [done|].
  intros [st [e|]] _; cbn [fst].
  - unfold settles. cbn. by exists (ID (resp st)).
  - apply (holds_settles _ _ _ _ (ID (resp st))); [|done].
    eapply holds_weaken; [|apply finalizeIn_keeps]. by intros r (H1 & H2 & _).
Qed.

Lemma publishComplete_stamped opt agentName decoded :
  holds (stamped opt agentName (ID (identify decoded)) (Model decoded))
        (λ r, r = identify decoded)
    (publishComplete opt agentName decoded).
Proof.
  unfold publishComplete. fold (identify decoded).
  assert (ID (identify decoded) ≠ "" ∧ Model (identify decoded) = Model decoded)
    as [Hne Hmodel].
  { unfold identify. destruct (nonEmpty (ID decoded)) eqn:Hid; [|done].
    by apply nonEmpty_true in Hid. }
  eapply holds_bind with (Q := λ _, True); [|intros _ _; by apply holds_mret].
  destruct (ProgressToken opt) as [tok|] eqn:Htok; [|by apply holds_mret].
  destruct (Choices (identify decoded)) as [|choice rest]; [by apply holds_mret|].
  eapply holds_bind with (Q := λ _, True).
  { destruct (ChoiceMessage choice) as [m|]; [|by apply holds_mret].
    destruct (Text (Content m)); [|by apply holds_mret].
    apply holds_Send. intros tok' [= ->]. cbn. by split_and!. }
  intros _ _. eapply holds_bind; [apply holds_deref|]. intros m Hm.
  apply sendToolCalls_holds. intros tok' j tc Htok' _. cbn. by split_and!.
Qed.

Lemma decodeBody_settles opt agentName body :
  ∃ r0, settles opt agentName id r0 (decodeBody opt agentName body).
Proof.
  unfold decodeBody. destruct (Peek 20 (NewReader body)) as [[firstBytes [e|]] reader].
  { exists zeroResponse. unfold settles. cbn. by exists "". }
  destruct (isSSE firstBytes); [apply runScanner_settles|].
  unfold completeBuffered. destruct (ReadAll reader) as [bodyBytes|e].
  2: { exists zeroResponse. unfold settles. cbn. by exists "". }
  destruct (unmarshalResponse bodyBytes) as [decoded|].
  2: { exists zeroResponse. unfold settles. cbn. by exists "". }
  exists decoded. apply (holds_settles _ _ _ _ (ID (identify decoded))).
  - eapply holds_weaken; [|apply publishComplete_stamped].
    intros r ->. split; [done|]. unfold identify. by destruct (nonEmpty _).
  - intros Hne. unfold identify. by rewrite Hne.
Qed.

(** X8. All the progress events of one call are sent to the configured
    token in the name of the agent and carry one message identifier,
    which is not empty, and one model, on the streaming and on the
    buffered path, and also when the call panics or fails after some
    events; when the call returns, they are the identifier and the model
    of the response it returns. So a call that returns a response without
    identifier has sent no event at all. *)
Theorem events_carry_response_identity (env : Environment) (c : Config)
    (agentName : string) (req : Request) (opt : CompletionOptions) :
  let m := complete env c agentName req opt in
  (∃ id model, Forall (stamped opt agentName id model) m.1)
  ∧ (∀ r, m.2 = Returned r →
       Forall (stamped opt agentName (ID r) (Model r)) m.1
       ∧ (ID r = "" → progressEvents m.1 = [])).
Proof.
  intros m.
  assert (∃ r0, settles opt agentName id r0 m) as (r0 & Hs).
  { unfold m, complete.
    destruct (Do env _) as [httpResp|e].
    2: { exists zeroResponse. unfold settles. cbn. by exists "". }
    case_decide; [apply decodeBody_settles|].
    exists zeroResponse. unfold settles. cbn. by exists "". }
  unfold settles in Hs. split.
  - destruct m.2; [|destruct Hs as (i & _ & Hs); by eauto..].
    destruct Hs as (_ & _ & Hs). by eauto.
  - intros r Hr. rewrite Hr in Hs. destruct Hs as (Hm & _ & Hs). cbn [id] in *.
    rewrite <- Hm in Hs. split; [done|].
    intros Hid. clear Hr. induction Hs as [|e t He _ IH]; [done|].
    destruct e as [p tok|data]; [|done].
    by destruct He as (_ & _ & _ & Hne & _).
Qed.

(** ** The accumulator, key by key *)

Lemma append_assoc (a b c : string) : (a +:+ b) +:+ c = a +:+ (b +:+ c).
Proof.
  induction a as [|x a IH]; [by rewrite !append_empty_l|].
  by rewrite !append_String, IH.
Qed.

Lemma appendArguments_empty (e : ToolCall) : appendArguments e "" = e.
Proof.
  destruct e as [i id ty [name args]]. unfold appendArguments. cbn.
  by rewrite append_empty_r.
Qed.

Lemma appendArguments_twice (e : ToolCall) (a b : string) :
  appendArguments (appendArguments e a) b = appendArguments e (a +:+ b).
Proof. unfold appendArguments. cbn. by rewrite append_assoc. Qed.

Lemma argumentsOf_app (xs ys : list ToolCall) :
  argumentsOf (xs ++ ys) = argumentsOf xs +:+ argumentsOf ys.
Proof.
  induction xs as [|x xs IH]; [by rewrite append_empty_l|].
  cbn. unfold argumentsOf in IH. by rewrite IH, append_assoc.
Qed.

Lemma absorbed_nil (entry : option ToolCall) : absorbed entry [] = entry.
Proof. destruct entry as [e|]; [|done]. cbn. by rewrite appendArguments_empty. Qed.

Lemma absorbed_app (entry : option ToolCall) (xs ys : list ToolCall) :
  absorbed (absorbed entry xs) ys = absorbed entry (xs ++ ys).
Proof.
  destruct entry as [e|]; [|destruct xs as [|x xs]]; cbn [absorbed app].
  - by rewrite appendArguments_twice, argumentsOf_app.
  - by destruct ys.
  - by rewrite appendArguments_twice, argumentsOf_app.
Qed.

Lemma mergeAll_lookup (k : Z) (i : nat) (frags : list ToolCall)
    (acc : gmap Z ToolCall) :
  mergeAll i frags acc !! k = absorbed (acc !! k) (fragmentsAt k i frags).
Proof.
  revert i acc. induction frags as [|tc rest IH]; intros i acc.
  - cbn [mergeAll fragmentsAt]. by rewrite absorbed_nil.
  - cbn [mergeAll fragmentsAt]. rewrite IH.
    destruct (decide (fragmentIndex i tc = k)) as [->|Hk].
    + change (tc :: fragmentsAt k (S i) rest)
        with ([tc] ++ fragmentsAt k (S i) rest).
      rewrite <- absorbed_app. f_equal. unfold mergeFragment.
      destruct (acc !! k) as [e|] eqn:He; rewrite lookup_insert_eq; cbn.
      * by rewrite append_empty_r.
      * by rewrite appendArguments_empty.
    + by rewrite mergeFragment_other.
Qed.

(** X9. The tool-call loop of one delta treats the keys of the
    accumulator apart: it returns, and the entry it leaves under a key is
    the entry that was there with the arguments of the fragments
    addressed to that key appended in their order, or, when there was
    none, the entry made from the identifier, the type and the name of
    the first such fragment with the arguments of all of them; a key no
    fragment is addressed to keeps what it had. The identifier, the type
    and the name of later fragments are dropped. *)
Theorem fragments_merge_by_key (opt : CompletionOptions) (r : Response)
    (agentName : string) (isFinished : bool) (i : nat) (frags : list ToolCall)
    (acc : gmap Z ToolCall) :
  ∃ t acc',
    mergeToolCalls opt r agentName isFinished i frags acc = (t, Returned acc')
    ∧ (∀ k, acc' !! k = absorbed (acc !! k) (fragmentsAt k i frags))
    ∧ (∀ k e, acc !! k = Some e →
         ∃ e', acc' !! k = Some e'
               ∧ tcID e' = tcID e ∧ tcType e' = tcType e
               ∧ fnName (tcFunction e') = fnName (tcFunction e)
               ∧ fnArguments (tcFunction e')
                 = fnArguments (tcFunction e) +:+ argumentsOf (fragmentsAt k i frags)).
Proof.
  destruct (mergeToolCalls_total opt r agentName isFinished i frags acc)
    as (t & acc' & Hrun & ->).
  exists t, (mergeAll i frags acc). split_and!; [done| |].
  - intros k. apply mergeAll_lookup.
  - intros k e He. rewrite mergeAll_lookup, He. cbn [absorbed].
    eexists. split; [done|]. by split_and!.
Qed.

Lemma holds_and {A} P (Q Q' : A → Prop) (m : Go A) :
  holds P Q m → holds P Q' m → holds P (λ a, Q a ∧ Q' a) m.
Proof. intros (H1 & H2 & H3) (_ & _ & H4). split_and!; [done|done|]. eauto. Qed.

Lemma framed_length (r r' : Response) :
  framed r r' → length (Choices r') = length (Choices r).
Proof.
  intros (_ & _ & _ & _ & _ & _ & _ & R). symmetry. by eapply Forall2_length.
Qed.

Lemma processChoice_accumulates opt agentName st choice :
  length (Choices (resp st)) = 1%nat →
  holds (λ _, True)
    (λ st', length (Choices (resp st')) = 1%nat
            ∧ initialized st' = initialized st
            ∧ ∀ k, toolCalls st' !! k
                   = absorbed (toolCalls st !! k)
                       (fragmentsAt k 0 (choiceFragments choice)))
    (processChoice opt agentName st choice).
Proof.
  intros Hlen. unfold processChoice, choiceFragments. rewrite Hlen.
  change (Z.of_nat 1) with 1.
  destruct (decide (1 ≤ scIndex choice)) as [Hskip|Hidx].
  { apply holds_mret. split_and!; [done..|]. intros k. by rewrite absorbed_nil. }
  destruct (scDelta choice) as [delta|].
  - eapply holds_weaken;
      [|apply holds_and; [apply handleDelta_framed|by apply handleDelta_holds]].
    intros st' ([R I] & _ & _ & Hacc). split_and!; [|done|].
    + by rewrite (framed_length _ _ R).
    + intros k. rewrite Hacc. apply mergeAll_lookup.
  - destruct (scMessage choice) as [msg|].
    + eapply holds_bind; [apply handleMessage_framed|].
      intros r R. apply holds_mret. cbn. split_and!; [|done|].
      * by rewrite (framed_length _ _ R).
      * intros k. by rewrite absorbed_nil.
    + apply holds_mret. split_and!; [done..|]. intros k. by rewrite absorbed_nil.
Qed.

Lemma processChoices_accumulates opt agentName choices st :
  length (Choices (resp st)) = 1%nat →
  holds (λ _, True)
    (λ st', length (Choices (resp st')) = 1%nat
            ∧ initialized st' = initialized st
            ∧ ∀ k, toolCalls st' !! k
                   = absorbed (toolCalls st !! k)
                       (choice ← choices; fragmentsAt k 0 (choiceFragments choice)))
    (processChoices opt agentName choices st).
Proof.
  revert st. induction choices as [|choice rest IH]; intros st Hlen.
  - apply holds_mret. split_and!; [done..|]. intros k. by rewrite absorbed_nil.
  - cbn [processChoices]. eapply holds_bind; [by apply processChoice_accumulates|].
    intros st1 (L1 & I1 & A1). eapply holds_weaken; [|by apply IH].
    intros st2 (L2 & I2 & A2). split_and!; [done|congruence|].
    intros k. rewrite A2, A1, absorbed_app. done.
Qed.

Lemma processChunks_accumulates opt agentName chunks st :
  (initialized st = true → length (Choices (resp st)) = 1%nat) →
  holds (λ _, True)
    (λ st', (initialized st' = true → length (Choices (resp st')) = 1%nat)
            ∧ ∀ k, toolCalls st' !! k
                   = absorbed (toolCalls st !! k) (addressed k chunks))
    (processChunks opt agentName chunks st).
Proof.
  revert st. induction chunks as [|chunk chunks IH]; intros st Hlen.
  - apply holds_mret. split; [done|]. intros k. by rewrite absorbed_nil.
  - cbn [processChunks]. eapply holds_bind.
    { unfold processChunk. apply processChoices_accumulates. cbn [resp].
      pose proof (beginChunk_frame chunk st) as (_ & _ & _ & _ & _ & _ & ->).
      destruct (initialized st); [by apply Hlen|done]. }
    cbn [toolCalls]. intros st1 (L1 & _ & A1).
    eapply holds_weaken; [|by apply IH].
    intros st2 (L2 & A2). split; [done|].
    intros k. rewrite A2, A1, absorbed_app. done.
Qed.

Lemma processChunks_holds_invariant opt agentName chunks st :
  invariant st →
  holds identified invariant (processChunks opt agentName chunks st).
Proof.
  revert st. induction chunks as [|chunk chunks IH]; intros st Hinv.
  - by apply holds_mret.
  - cbn [processChunks]. eapply holds_bind; [by apply processChunk_holds|].
    intros st1 [Hinv1 _]. by apply IH.
Qed.

Lemma toolCallsToSlice_returned (acc : gmap Z ToolCall)
    (order : list (Z * ToolCall)) (slice : list ToolCall) :
  order ≡ₚ map_to_list acc →
  (toolCallsToSlice order).2 = Returned slice →
  ∀ k : nat, slice !! k = acc !! Z.of_nat k.
Proof.
  intros Hperm Hret.
  destruct (decide (Forall (λ e : Z * ToolCall,
                              0 ≤ e.1 < Z.of_nat (length order)) order))
    as [Hall|Hex].
  - pose proof (keys_in_range_dense _ _ Hperm Hall) as Hdense.
    destruct (toolCallsToSlice_dense _ _ _ Hdense Hperm) as (l' & Hrun & Hlen & Hl).
    rewrite Hrun in Hret. injection Hret as <-.
    intros k. destruct (decide (k < length order)%nat) as [Hk|Hk]; [by apply Hl|].
    rewrite lookup_ge_None_2 by lia. symmetry.
    destruct (acc !! Z.of_nat k) eqn:Hacc; [|done].
    assert (is_Some (acc !! Z.of_nat k)) as Hs by by eexists.
    apply Hdense in Hs. lia.
  - apply not_Forall_Exists in Hex; [|intros e; apply _].
    apply Exists_exists in Hex as ([i tc] & Hin & Hout).
    unfold toolCallsToSlice in Hret.
    rewrite (fillToolCalls_outside _ _ i tc) in Hret; [done|done|].
    by rewrite length_replicate.
Qed.

(** X10. The tool calls of a streamed response, over the whole stream:
    when the stream brings tool-call fragments and the call returns, the
    message of the one choice holds, at position [k], the entry made from
    the identifier, the type and the name of the first fragment addressed
    to [k] and from the arguments of all the fragments addressed to [k],
    in the order of their arrival; fragments for different keys may
    arrive in any interleaving, in one delta or spread over many chunks.
    Whatever a complete message put into the tool calls is replaced. *)
Theorem tool_calls_of_stream (opt : CompletionOptions) (agentName : string)
    (lines : Scanner) :
  ∀ r, (runScanner opt agentName lines).2 = Returned r →
    ∀ key, addressed key (chunksOf (scanned lines)) ≠ [] →
    ∃ c m, Choices r = [c] ∧ ChoiceMessage c = Some m
      ∧ ∀ k : nat,
          ToolCalls m !! k
          = absorbed None (addressed (Z.of_nat k) (chunksOf (scanned lines))).
Proof.
  intros r Hr key Hkey.
  apply runScanner_returned in Hr as (st & Hst & _ & Hfin).
  destruct (processChunks_accumulates opt agentName (chunksOf (scanned lines))
              initialState) as (_ & _ & Hq); [done|].
  destruct (Hq st Hst) as [_ Hacc]. clear Hq.
  assert (∀ k, toolCalls st !! k
               = absorbed None (addressed k (chunksOf (scanned lines)))) as Hacc'.
  { intros k. rewrite Hacc. cbn [toolCalls initialState]. by rewrite lookup_empty. }
  clear Hacc. unfold finalize, finalizeIn in Hfin.
  assert (map_to_list (toolCalls st) ≠ []) as Hne.
  { intros Hnil. apply map_to_list_empty_iff in Hnil.
    specialize (Hacc' key). rewrite Hnil, lookup_empty in Hacc'.
    destruct (addressed key (chunksOf (scanned lines))); [done|by cbn in Hacc']. }
  rewrite decide_True in Hfin
    by (destruct (map_to_list (toolCalls st)); [done|cbn; lia]).
  apply bind_returned_inv in Hfin as (c & Hc & Hfin).
  apply bind_returned_inv in Hfin as (m & Hm & Hfin).
  apply bind_returned_inv in Hfin as (l & Hl & Hfin).
  cbn in Hfin. injection Hfin as <-.
  destruct (processChunks_accumulates opt agentName (chunksOf (scanned lines))
              initialState) as (_ & _ & Hq); [done|].
  destruct (Hq st Hst) as [Hlen _]. clear Hq.
  destruct (holds_choiceAt (λ _, True) (Choices (resp st)) 0) as (_ & _ & Hq).
  destruct (Hq c Hc) as [_ Hc0]. clear Hq. change (Z.to_nat 0) with 0%nat in Hc0.
  destruct (holds_deref (λ _, True) (ChoiceMessage c)) as (_ & _ & Hq).
  pose proof (Hq m Hm) as Hm0. clear Hq.
  destruct (Choices (resp st)) as [|c0 cs] eqn:Hcs; [done|].
  injection Hc0 as ->.
  exists (setMessage c (Some (setToolCalls m l))), (setToolCalls m l).
  split_and!.
  - unfold storeChoice. cbn. rewrite Hcs. cbn.
    destruct cs as [|c1 cs]; [done|].
    assert (initialized st = true) as Hinit.
    { destruct (initialized st) eqn:Hi; [done|]. exfalso.
      destruct (processChunks_holds_invariant opt agentName
                  (chunksOf (scanned lines)) initialState invariant_initialState)
        as (_ & _ & Hq).
      destruct (Hq st Hst) as [_ Hempty]. specialize (Hempty Hi).
      apply Hne. by rewrite Hempty, map_to_list_empty. }
    specialize (Hlen Hinit). by cbn in Hlen.
  - done.
  - intros k. cbn [ToolCalls setToolCalls]. rewrite <- Hacc'.
    eapply toolCallsToSlice_returned; [reflexivity|exact Hl].
Qed.

(** ** Fragments that interleave *)

Lemma processChunks_total opt agentName chunks st :
  invariant st → Forall indexed chunks →
  total invariant (processChunks opt agentName chunks st).
Proof.
  intros Hinv Hall. revert st Hinv.
  induction Hall as [|chunk chunks Hc _ IH]; intros st Hinv.
  - by apply total_mret.
  - cbn [processChunks]. eapply total_bind.
    + by apply processChunk_total.
    + intros st' [Hinv' _]. by apply IH.
Qed.

(** A fragment that names its index is addressed to it wherever it
    stands in its delta. *)
Lemma fragmentsAt_explicit (k : Z) (i : nat) (frags : list ToolCall) :
  Forall (λ tc, is_Some (tcIndex tc)) frags →
  fragmentsAt k i frags = filter (λ tc, tcIndex tc = Some k) frags.
Proof.
  intros Hall. revert i. induction Hall as [|tc rest [j Hj] _ IH]; intros i; [done|].
  cbn [fragmentsAt]. unfold fragmentIndex. rewrite Hj. simpl default.
  destruct (decide (j = k)) as [Hjk|Hjk].
  - rewrite filter_cons_True by (rewrite Hj; congruence). by rewrite IH.
  - rewrite filter_cons_False by (rewrite Hj; congruence). apply IH.
Qed.

Lemma addressed_explicit (k : Z) (chunks : list StreamChunk) :
  Forall (λ tc, is_Some (tcIndex tc)) (fragmentsOf chunks) →
  addressed k chunks = filter (λ tc, tcIndex tc = Some k) (fragmentsOf chunks).
Proof.
  unfold addressed, fragmentsOf.
  induction chunks as [|chunk chunks IH]; [done|].
  cbn [mbind list_bind]. rewrite Forall_app, filter_app. intros [Hchunk Hrest].
  rewrite (IH Hrest). f_equal. clear IH Hrest.
  induction (chunkChoices chunk) as [|choice choices IH]; [done|].
  cbn [mbind list_bind] in *. apply Forall_app in Hchunk as [Hchoice Hrest].
  rewrite filter_app, (IH Hrest). f_equal. by apply fragmentsAt_explicit.
Qed.

(** C2. Fragments are filed under their position index. The tool-call
    loop of a delta, over all the fragments the delta brings, leaves
    under every key the entry that was there with the arguments of the
    fragments for that key appended in their order, or, when there was
    none, the entry made from the identifier, the type, the function
    name and the arguments of the first fragment for that key with the
    arguments of the later ones appended; what a single fragment does to
    the accumulator is the same rule for one fragment. So a stream that
    delivers, in this order, the fragments (index 0, [{"a":]),
    (index 1, [{"b":]), (index 0, [1}]) and (index 1, [2}]), however they
    are spread over deltas and chunks, ends in a response whose tool-call
    list has length 2, with arguments [{"a":1}] at position 0 and
    [{"b":2}] at position 1, under the identifier, type and name the
    first fragment of each index brought. *)
Theorem interleaved_fragments (opt : CompletionOptions) (agentName : string)
    (lines : Scanner) (f1 f2 f3 f4 : ToolCall) :
  Forall indexed (chunksOf (scanned lines)) →
  stopsWith (scanned lines) (scanErr lines) = None →
  fragmentsOf (chunksOf (scanned lines)) = [f1; f2; f3; f4] →
  tcIndex f1 = Some 0 → fnArguments (tcFunction f1) = json "{'a':" →
  tcIndex f2 = Some 1 → fnArguments (tcFunction f2) = json "{'b':" →
  tcIndex f3 = Some 0 → fnArguments (tcFunction f3) = "1}" →
  tcIndex f4 = Some 1 → fnArguments (tcFunction f4) = "2}" →
  (∀ (r : Response) (isFinished : bool) (i : nat) (frags : list ToolCall)
     (acc : gmap Z ToolCall),
     ∃ t acc',
       mergeToolCalls opt r agentName isFinished i frags acc = (t, Returned acc')
       ∧ ∀ k, acc' !! k
              = match acc !! k, fragmentsAt k i frags with
                | Some entry, later =>
                    Some {| tcIndex := tcIndex entry; tcID := tcID entry;
                            tcType := tcType entry;
                            tcFunction :=
                              {| fnName := fnName (tcFunction entry);
                                 fnArguments := fnArguments (tcFunction entry)
                                                +:+ argumentsOf later |} |}
                | None, first :: later =>
                    Some {| tcIndex := None; tcID := tcID first;
                            tcType := tcType first;
                            tcFunction :=
                              {| fnName := fnName (tcFunction first);
                                 fnArguments := fnArguments (tcFunction first)
                                                +:+ argumentsOf later |} |}
                | None, [] => None
                end)
  ∧ (∀ (acc : gmap Z ToolCall) (index : Z) (tc : ToolCall),
     (acc !! index = None →
      mergeFragment acc index tc !! index
      = Some {| tcIndex := None; tcID := tcID tc; tcType := tcType tc;
                tcFunction := {| fnName := fnName (tcFunction tc);
                                 fnArguments := fnArguments (tcFunction tc) |} |})
     ∧ (∀ entry, acc !! index = Some entry →
        mergeFragment acc index tc !! index
        = Some {| tcIndex := tcIndex entry; tcID := tcID entry;
                  tcType := tcType entry;
                  tcFunction := {| fnName := fnName (tcFunction entry);
                                   fnArguments := fnArguments (tcFunction entry)
                                                  +:+ fnArguments (tcFunction tc) |} |})
     ∧ (∀ k, k ≠ index → mergeFragment acc index tc !! k = acc !! k))
  ∧ ∃ t r c m,
      runScanner opt agentName lines = (t, Returned r)
      ∧ Choices r = [c] ∧ ChoiceMessage c = Some m
      ∧ ToolCalls m
        = [ {| tcIndex := None; tcID := tcID f1; tcType := tcType f1;
               tcFunction := {| fnName := fnName (tcFunction f1);
                                fnArguments := json "{'a':1}" |} |};
            {| tcIndex := None; tcID := tcID f2; tcType := tcType f2;
               tcFunction := {| fnName := fnName (tcFunction f2);
                                fnArguments := json "{'b':2}" |} |} ].
Proof.
  intros Hall Hstop Hfrags I1 A1 I2 A2 I3 A3 I4 A4. split_and!.
  { intros r isFinished i frags acc.
    destruct (mergeToolCalls_total opt r agentName isFinished i frags acc)
      as (t & acc' & Hrun & ->).
    exists t, (mergeAll i frags acc). split; [done|].
    intros k. rewrite mergeAll_lookup.
    destruct (acc !! k) as [entry|]; [done|].
    by destruct (fragmentsAt k i frags). }
  { intros acc index tc. split_and!.
    - intros H. by rewrite mergeFragment_first, lookup_insert_eq.
    - intros entry H. by rewrite (mergeFragment_later _ _ entry), lookup_insert_eq.
    - intros k Hk. by apply mergeFragment_other. }
  set (chunks := chunksOf (scanned lines)) in *.
  destruct (processChunks_total opt agentName chunks initialState
              invariant_initialState Hall) as (t1 & st & Hrun & Hinv).
  pose proof (readLines_as_chunks opt agentName (scanned lines) (scanErr lines)
                initialState) as [Ho _].
  fold chunks in Ho. rewrite Hrun, bind_returned, Hstop in Ho. cbn in Ho.
  destruct (readLines opt agentName (scanned lines) (scanErr lines) initialState)
    as [t0 o0] eqn:Hread. cbn [snd] in Ho. subst o0.
  destruct (processChunks_accumulates opt agentName chunks initialState)
    as (_ & _ & Hq); [done|].
  rewrite Hrun in Hq. destruct (Hq st eq_refl) as [_ Hacc]. clear Hq.
  assert (∀ k, toolCalls st !! k
               = absorbed None (filter (λ tc, tcIndex tc = Some k) [f1; f2; f3; f4]))
    as Hkeys.
  { intros k. rewrite Hacc. cbn [toolCalls initialState]. rewrite lookup_empty.
    rewrite addressed_explicit; rewrite Hfrags; [done|].
    repeat constructor; by eexists. }
  set (e0 := {| tcIndex := None; tcID := tcID f1; tcType := tcType f1;
                tcFunction := {| fnName := fnName (tcFunction f1);
                                 fnArguments := json "{'a':1}" |} |}).
  set (e1 := {| tcIndex := None; tcID := tcID f2; tcType := tcType f2;
                tcFunction := {| fnName := fnName (tcFunction f2);
                                 fnArguments := json "{'b':2}" |} |}).
  assert (toolCalls st !! 0 = Some e0 ∧ toolCalls st !! 1 = Some e1
          ∧ ∀ k, k ≠ 0 → k ≠ 1 → toolCalls st !! k = None) as (H0 & H1 & Hk).
  { split_and!.
    - rewrite Hkeys.
      rewrite filter_cons_True by done. rewrite filter_cons_False by (rewrite I2; done).
      rewrite filter_cons_True by done. rewrite filter_cons_False by (rewrite I4; done).
      rewrite filter_nil. unfold absorbed, appendArguments, newEntry, argumentsOf, e0.
      cbn. by rewrite A1, A3.
    - rewrite Hkeys.
      rewrite filter_cons_False by (rewrite I1; done). rewrite filter_cons_True by done.
      rewrite filter_cons_False by (rewrite I3; done). rewrite filter_cons_True by done.
      rewrite filter_nil. unfold absorbed, appendArguments, newEntry, argumentsOf, e1.
      cbn. by rewrite A2, A4.
    - intros k K0 K1. rewrite Hkeys.
      rewrite !filter_cons_False, filter_nil; [done|..];
        rewrite ?I1, ?I2, ?I3, ?I4; congruence. }
  assert (dense (toolCalls st) 2) as Hdense.
  { intros k. destruct (decide (k = 0)) as [->|K0]; [rewrite H0; split; [lia | eauto]|].
    destruct (decide (k = 1)) as [->|K1]; [rewrite H1; split; [lia | eauto]|].
    rewrite Hk by done. split; [by intros [? ?] | lia]. }
  destruct (finalizeIn_dense st 2 (map_to_list (toolCalls st)) Hinv Hdense)
    as (r & Hr & _ & Hshape); [done|].
  destruct (Hshape ltac:(lia)) as (c & m & l & Hc & Hm & -> & Hlen & Hl).
  pose proof (Hl 0%nat ltac:(lia)) as Hl0. pose proof (Hl 1%nat ltac:(lia)) as Hl1.
  change (Z.of_nat 0) with 0 in Hl0. change (Z.of_nat 1) with 1 in Hl1.
  rewrite H0 in Hl0. rewrite H1 in Hl1.
  destruct l as [|a [|b [|x l]]]; try done. injection Hl0 as ->. injection Hl1 as ->.
  exists t0,
    (setChoices (resp st) [setMessage c (Some (setToolCalls m [e0; e1]))]),
    (setMessage c (Some (setToolCalls m [e0; e1]))), (setToolCalls m [e0; e1]).
  split_and!; [|done..].
  unfold runScanner. rewrite Hread, bind_returned.
  cbn [fst snd]. unfold finalize. by rewrite Hr, app_nil_r.
Qed.

(** ** The choice of a streamed response, as a fold *)

Lemma holds_pair {A} (Q : A → Prop) (t : list Effect) (a : A) :
  Q a → holds (λ _, True) Q (t, Returned a).
Proof.
  intros H. split_and!; [by apply Forall_forall|done|].
  intros a' Ha. by injection Ha as <-.
Qed.

Lemma handleDelta_negative opt agentName choice delta st :
  scIndex choice < 0 →
  holds (λ _, True) (λ st', resp st' = resp st ∧ touchesChoice choice delta = false)
    (handleDelta opt agentName choice delta st).
Proof.
  intros Hneg. unfold handleDelta, touchesChoice.
  destruct (nonEmpty (deltaRole delta)); cbn [orb];
    [rewrite choiceAt_negative by done; apply holds_panic|rewrite bind_mret].
  destruct (deltaContent delta) as [f|]; cbn [orb isSome];
    [rewrite choiceAt_negative by done; apply holds_panic|rewrite bind_mret].
  eapply holds_bind with (Q := λ _, True).
  { eapply holds_weaken; [|by apply mergeToolCalls_holds]. done. }
  intros acc _.
  destruct (scFinishReason choice) as [reason|]; cbn [orb isSome];
    [rewrite choiceAt_negative by done; apply holds_panic|rewrite bind_mret].
  destruct (deltaRefusal delta) as [refusal|]; cbn [orb isSome];
    [rewrite choiceAt_negative by done; apply holds_panic|rewrite bind_mret].
  by apply holds_mret.
Qed.

Lemma deltaChoice_untouched choice delta c m :
  ChoiceMessage c = Some m → touchesChoice choice delta = false →
  deltaChoice choice delta c m = c.
Proof.
  unfold touchesChoice, deltaChoice, deltaMessage. intros Hm Ht.
  apply orb_false_elim in Ht as [Ht Hrefusal].
  apply orb_false_elim in Ht as [Ht Hfinish].
  apply orb_false_elim in Ht as [Hrole Hcontent].
  rewrite Hrole.
  destruct (deltaContent delta); [done|]. destruct (scFinishReason choice); [done|].
  destruct (deltaRefusal delta); [done|].
  destruct c as [i msg fin]. cbn in *. subst msg.
  by destruct m as [role [text] tcs refusal].
Qed.

Lemma processChoice_choice opt agentName st choice c m :
  Choices (resp st) = [c] → ChoiceMessage c = Some m →
  holds (λ _, True)
    (λ st', Choices (resp st') = [choiceAfter c choice]
            ∧ is_Some (ChoiceMessage (choiceAfter c choice)))
    (processChoice opt agentName st choice).
Proof.
  intros Hc Hm. unfold processChoice, choiceAfter. rewrite Hc, Hm.
  change (Z.of_nat (length [c])) with 1.
  destruct (decide (1 ≤ scIndex choice)) as [Hskip|Hidx].
  { apply holds_mret. split; [done|by eexists]. }
  destruct (scDelta choice) as [delta|].
  - destruct (decide (scIndex choice = 0)) as [H0|H0].
    + rewrite (handleDelta_spec _ _ _ _ _ c m) by done. by apply holds_pair.
    + eapply holds_weaken; [|apply handleDelta_negative; lia].
      intros st' [-> Ht]. rewrite deltaChoice_untouched by done.
      split; [done|by eexists].
  - destruct (scMessage choice) as [msg|]; [|apply holds_mret; split; [done|by eexists]].
    destruct (decide (scIndex choice = 0)) as [H0|H0].
    + rewrite (handleMessage_spec _ _ _ _ _ c) by done.
      rewrite bind_returned. apply holds_pair. cbn [resp].
      split; [|by eexists]. unfold identify. by destruct (nonEmpty _).
    + unfold handleMessage. rewrite choiceAt_negative by lia. apply holds_panic.
Qed.

Lemma processChoices_choice opt agentName choices st c m :
  Choices (resp st) = [c] → ChoiceMessage c = Some m →
  holds (λ _, True)
    (λ st', Choices (resp st') = [foldl choiceAfter c choices]
            ∧ is_Some (ChoiceMessage (foldl choiceAfter c choices)))
    (processChoices opt agentName choices st).
Proof.
  revert st c m. induction choices as [|choice rest IH]; intros st c m Hc Hm.
  - apply holds_mret. split; [done|by eexists].
  - cbn [processChoices foldl].
    eapply holds_bind; [by eapply processChoice_choice|].
    intros st1 [Hc1 [m1 Hm1]]. by eapply IH.
Qed.

Lemma processChunks_choice opt agentName chunks st c m :
  initialized st = true → Choices (resp st) = [c] → ChoiceMessage c = Some m →
  holds (λ _, True)
    (λ st', Choices (resp st') = [foldl choiceAfter c (choicesOf chunks)]
            ∧ is_Some (ChoiceMessage (foldl choiceAfter c (choicesOf chunks))))
    (processChunks opt agentName chunks st).
Proof.
  revert st c m. induction chunks as [|chunk chunks IH]; intros st c m Hinit Hc Hm.
  - apply holds_mret. split; [done|by eexists].
  - cbn [processChunks]. unfold choicesOf. cbn [mbind list_bind].
    rewrite foldl_app. fold (choicesOf chunks).
    eapply holds_bind.
    { unfold processChunk.
      eapply holds_and; [apply (processChoices_choice _ _ _ _ c m)|
                         apply processChoices_framed]; [|done].
      cbn [resp].
      pose proof (beginChunk_frame chunk st) as (_ & _ & _ & _ & _ & _ & ->).
      by rewrite Hinit. }
    intros st1 ([Hc1 [m1 Hm1]] & _ & Hinit1). by eapply IH.
Qed.

(** X11. The choice of a streamed response is a fold over the choices of
    its chunks, in order, from the choice of the shell: each choice of a
    chunk with an index below one applies its delta (role, appended
    content, finish reason, refusal) or puts its complete message in the
    place of the message so far, and the others are skipped. When the
    call returns, the index, the finish reason, the role, the text and
    the refusal of the one choice are those of the fold, and so are the
    tool calls of its message when the stream brought no fragment. *)
Theorem choice_of_stream (opt : CompletionOptions) (agentName : string)
    (lines : Scanner) :
  ∀ r, (runScanner opt agentName lines).2 = Returned r →
    chunksOf (scanned lines) ≠ [] →
    let folded := foldl choiceAfter shellChoice (choicesOf (chunksOf (scanned lines))) in
    ∃ c m m', Choices r = [c] ∧ ChoiceMessage c = Some m
      ∧ ChoiceMessage folded = Some m'
      ∧ Index c = Index folded ∧ FinishReason c = FinishReason folded
      ∧ Role m = Role m' ∧ Content m = Content m' ∧ Refusal m = Refusal m'
      ∧ ((∀ k, addressed k (chunksOf (scanned lines)) = []) → c = folded).
Proof.
  intros r Hr Hne folded.
  apply runScanner_returned in Hr as (st & Hst & _ & Hfin).
  destruct (processChunks_accumulates opt agentName (chunksOf (scanned lines))
              initialState) as (_ & _ & Hq); [done|].
  destruct (Hq st Hst) as [_ Hacc]. clear Hq.
  assert (Choices (resp st) = [folded] ∧ is_Some (ChoiceMessage folded))
    as [Hc [m' Hm']].
  { unfold folded. destruct (chunksOf (scanned lines)) as [|chunk chunks]; [done|].
    cbn [processChunks] in Hst.
    apply bind_returned_inv in Hst as (st1 & Hst1 & Hst).
    unfold choicesOf. cbn [mbind list_bind]. rewrite foldl_app.
    fold (choicesOf chunks). unfold processChunk in Hst1.
    destruct (processChoices_choice opt agentName (chunkChoices chunk)
                {| resp := beginChunk chunk initialState; initialized := true;
                   toolCalls := toolCalls initialState |} shellChoice assistantMessage)
      as (_ & _ & Hq); [|done|].
    { cbn [resp].
      by pose proof (beginChunk_frame chunk initialState)
        as (_ & _ & _ & _ & _ & _ & ->). }
    destruct (Hq st1 Hst1) as [Hc1 [m1 Hm1]]. clear Hq.
    destruct (processChoices_framed opt agentName (chunkChoices chunk)
                {| resp := beginChunk chunk initialState; initialized := true;
                   toolCalls := toolCalls initialState |}) as (_ & _ & Hq).
    destruct (Hq st1 Hst1) as [_ Hinit1]. clear Hq. cbn [initialized] in Hinit1.
    destruct (processChunks_choice opt agentName chunks st1 _ m1 Hinit1 Hc1 Hm1)
      as (_ & _ & Hq).
    by apply Hq. }
  unfold finalize, finalizeIn in Hfin.
  destruct (decide (0 < length (map_to_list (toolCalls st)))%nat) as [Hsome|Hnone].
  - rewrite Hc, choiceAt_here, bind_mret, Hm', deref_Some, bind_mret in Hfin.
    apply bind_returned_inv in Hfin as (l & Hl & Hfin).
    cbn in Hfin. injection Hfin as <-.
    exists (setMessage folded (Some (setToolCalls m' l))), (setToolCalls m' l), m'.
    split_and!; try done.
    + unfold storeChoice. by rewrite Hc.
    + intros Hall. exfalso.
      destruct (map_to_list (toolCalls st)) as [|[k tc] rest] eqn:Hlist;
        [cbn in Hsome; lia|].
      assert (toolCalls st !! k = Some tc) as Hk.
      { apply elem_of_map_to_list. rewrite Hlist. by left. }
      by rewrite Hacc, Hall in Hk.
  - cbn in Hfin. injection Hfin as <-. exists folded, m', m'. by split_and!.
Qed.

(** ** The buffered path *)

Lemma sendToolCalls_events opt r agentName tok i tcs :
  ProgressToken opt = Some tok →
  sendToolCalls opt r agentName i tcs
  = (imap (λ j tc, ProgressSent (toolCallEvent r agentName (i + j) tc) tok) tcs,
     Returned tt).
Proof.
  intros Htok. revert i. induction tcs as [|tc rest IH]; intros i; [done|].
  cbn [sendToolCalls imap]. rewrite Htok. unfold Send, emit.
  rewrite bind_returned, IH. cbn [fst snd app]. rewrite Nat.add_0_r.
  do 2 f_equal. apply imap_ext. intros j tc' _. cbn. by rewrite Nat.add_succ_r.
Qed.

(** X12. The buffered path publishes the first choice only. The response
    it returns is the decoded one, given the synthetic identifier when it
    has none. Without a token, or without choices, nothing is sent. With
    a token and a first choice, the text of its message is sent first, if
    there is one, and then its tool calls in order, numbered from zero,
    each event complete and under the identifier of the response; when
    the first choice has no message the call panics on the nil message
    before anything is sent (line 156). *)
Theorem buffered_response_published (opt : CompletionOptions)
    (agentName : string) (decoded : Response) :
  publishComplete opt agentName decoded
  = match ProgressToken opt, Choices decoded with
    | Some tok, choice :: _ =>
        match ChoiceMessage choice with
        | Some m => (completeEvents (identify decoded) agentName tok m,
                     Returned (identify decoded))
        | None => ([], Panicked NilDereference)
        end
    | _, _ => ([], Returned (identify decoded))
    end.
Proof.
  unfold publishComplete. fold (identify decoded).
  assert (Choices (identify decoded) = Choices decoded) as ->.
  { unfold identify. by destruct (nonEmpty _). }
  destruct (ProgressToken opt) as [tok|] eqn:Htok; [|by rewrite !bind_mret].
  destruct (Choices decoded) as [|choice rest]; [by rewrite !bind_mret|].
  destruct (ChoiceMessage choice) as [m|]; [|by rewrite bind_mret].
  unfold completeEvents.
  destruct (Text (Content m)) as [text|]; unfold Send, emit.
  - rewrite bind_returned, deref_Some, bind_mret.
    rewrite (sendToolCalls_events _ _ _ tok) by done.
    cbn [fst snd]. rewrite bind_returned. cbn [fst snd mret Go_ret].
    by rewrite app_nil_r.
  - rewrite bind_mret, deref_Some, bind_mret.
    rewrite (sendToolCalls_events _ _ _ tok) by done.
    rewrite bind_returned. cbn [fst snd mret Go_ret app]. by rewrite app_nil_r.
Qed.

(** ** Failures *)

Lemma runScanner_fails opt agentName lines e :
  (runScanner opt agentName lines).2 = Failed e → ∃ x, e = ErrReadStreaming x.
Proof.
  unfold runScanner.
  destruct (readLines_holds opt agentName (scanned lines) (scanErr lines)
              initialState invariant_initialState) as (_ & Hf & _).
  destruct (readLines opt agentName (scanned lines) (scanErr lines) initialState)
    as [t [[st err]|e'|k]]; [|by destruct (Hf e')|done].
  rewrite bind_returned. cbn [fst snd]. destruct err as [x|].
  - cbn. intros [= <-]. by exists x.
  - destruct (finalizeIn_holds (λ _, True) (map_to_list (toolCalls st)) (resp st))
      as (_ & Hf' & _).
    intros Hfail. by destruct (Hf' e).
Qed.

(** X13. An error that the call returns after it has sent an event or
    logged a line can only be the read error of the stream: the
    transport error, the status error, the peek error, the read error of
    a buffered body and the decode error of a buffered body are all
    returned with nothing sent and nothing logged; and a read error of
    the stream is only returned for a 200 response. *)
Theorem early_failures_are_silent (env : Environment) (c : Config)
    (agentName : string) (req : Request) (opt : CompletionOptions) :
  let m := complete env c agentName req opt in
  ∀ e, m.2 = Failed e →
    match e with
    | ErrReadStreaming _ =>
        ∃ httpResp, Do env (buildHTTPRequest env c (forceStreaming req)) = inl httpResp
                    ∧ StatusCode httpResp = 200
    | _ => m.1 = []
    end.
Proof.
  intros m e. unfold m, complete.
  destruct (Do env _) as [httpResp|x] eqn:Hdo; [|by intros [= <-]].
  case_decide as Hstatus; [|by intros [= <-]].
  unfold decodeBody.
  destruct (Peek 20 (NewReader (ResponseBody httpResp))) as [[firstBytes [x|]] reader];
    [by intros [= <-]|].
  destruct (isSSE firstBytes).
  - intros Hfail. destruct (runScanner_fails _ _ _ _ Hfail) as [x ->].
    by exists httpResp.
  - unfold completeBuffered. destruct (ReadAll reader) as [bodyBytes|x];
      [|by intros [= <-]].
    destruct (unmarshalResponse bodyBytes) as [decoded|]; [|by intros [= <-]].
    destruct (publishComplete_stamped opt agentName decoded) as (_ & Hf & _).
    intros Hfail. by destruct (Hf e).
Qed.

(** ** A stream without chunks *)

(** X14. A stream that brings no chunk before its sentinel or its end,
    and whose scanner reports no error there, is no error: the call
    returns the zero response, without identifier and without choices,
    and sends nothing. *)
Theorem stream_without_chunks (opt : CompletionOptions) (agentName : string)
    (lines : Scanner) :
  chunksOf (scanned lines) = [] →
  stopsWith (scanned lines) (scanErr lines) = None →
  (runScanner opt agentName lines).2 = Returned zeroResponse
  ∧ progressEvents (runScanner opt agentName lines).1 = []
  ∧ Choices zeroResponse !! 0%nat = None.
Proof.
  intros Hchunks Hstop. unfold runScanner.
  pose proof (readLines_as_chunks opt agentName (scanned lines) (scanErr lines)
                initialState) as [Ho Ht].
  rewrite Hchunks, Hstop in Ho, Ht. cbn [processChunks] in Ho, Ht.
  rewrite !bind_mret in Ho, Ht. cbn in Ho, Ht.
  destruct (readLines opt agentName (scanned lines) (scanErr lines) initialState)
    as [t o]. cbn [fst snd] in Ho, Ht. subst o.
  rewrite bind_returned. cbn [fst snd].
  rewrite finalize_empty by done. cbn.
  split_and!; [done| |done]. by rewrite app_nil_r.
Qed.

(** ** The client *)

Lemma NewClient_headers (cfg : Config) (key : string) :
  Headers (ClientConfig (NewClient cfg)) !! key
  = match Headers cfg !! key with
    | Some v => Some v
    | None => defaultHeader cfg key
    end.
Proof.
  unfold NewClient, defaultHeader. cbn [ClientConfig Headers].
  destruct (Headers cfg !! "Authorization") as [a|] eqn:Ha;
    [|destruct (decide (APIKey cfg ≠ "")) as [Hk|Hk]].
  - destruct (Headers cfg !! "Content-Type") as [ct|] eqn:Hc.
    + destruct (Headers cfg !! key) eqn:Hkey; [done|].
      repeat case_decide; congruence.
    + destruct (decide (key = "Content-Type")) as [->|Hct].
      * rewrite lookup_insert_eq, Hc. reflexivity.
      * rewrite lookup_insert_ne by done.
        destruct (Headers cfg !! key) eqn:Hkey; [done|].
        repeat case_decide; congruence.
  - rewrite lookup_insert_ne by done.
    destruct (Headers cfg !! "Content-Type") as [ct|] eqn:Hc.
    + destruct (decide (key = "Authorization")) as [->|Hauth].
      * rewrite lookup_insert_eq, Ha. cbn. by rewrite decide_False.
      * rewrite lookup_insert_ne by done.
        destruct (Headers cfg !! key) eqn:Hkey; [done|].
        repeat case_decide; congruence.
    + destruct (decide (key = "Content-Type")) as [->|Hct].
      * rewrite lookup_insert_eq, Hc. reflexivity.
      * rewrite lookup_insert_ne by done.
        destruct (decide (key = "Authorization")) as [->|Hauth].
        -- rewrite lookup_insert_eq, Ha. cbn. by rewrite decide_False.
        -- rewrite lookup_insert_ne by done.
           by destruct (Headers cfg !! key).
  - assert (APIKey cfg = "") as Hempty by by destruct (decide (APIKey cfg = "")).
    destruct (Headers cfg !! "Content-Type") as [ct|] eqn:Hc.
    + destruct (Headers cfg !! key) eqn:Hkey; [done|].
      repeat case_decide; congruence.
    + destruct (decide (key = "Content-Type")) as [->|Hct].
      * rewrite lookup_insert_eq, Hc. reflexivity.
      * rewrite lookup_insert_ne by done.
        destruct (Headers cfg !! key) eqn:Hkey; [done|].
        repeat case_decide; congruence.
Qed.

(** X15. [NewClient] only fills gaps: a header the caller set keeps its
    value, whatever its key; a key the caller left out gets a value only
    if it is [Content-Type], which becomes [application/json], or
    [Authorization] while the API key is not empty, which becomes the
    bearer form of the key; the API key is kept, and the base URL is the
    caller's unless that is empty. *)
Theorem client_defaults_fill_gaps (cfg : Config) :
  let c := ClientConfig (NewClient cfg) in
  APIKey c = APIKey cfg
  ∧ BaseURL c = (if decide (BaseURL cfg = "") then "https://api.openai.com/v1"
                 else BaseURL cfg)
  ∧ BaseURL c ≠ ""
  ∧ (∀ key v, Headers cfg !! key = Some v → Headers c !! key = Some v)
  ∧ (∀ key, Headers cfg !! key = None → Headers c !! key = defaultHeader cfg key)
  ∧ is_Some (Headers c !! "Content-Type")
  ∧ (is_Some (Headers c !! "Authorization")
     ↔ is_Some (Headers cfg !! "Authorization") ∨ APIKey cfg ≠ "").
Proof.
  intros c. split_and!.
  - done.
  - done.
  - unfold c, NewClient. cbn. by case_decide.
  - intros key v Hv. unfold c. by rewrite NewClient_headers, Hv.
  - intros key Hv. unfold c. by rewrite NewClient_headers, Hv.
  - unfold c. rewrite NewClient_headers.
    destruct (Headers cfg !! "Content-Type"); [by eexists|by eexists].
  - unfold c. rewrite NewClient_headers.
    destruct (Headers cfg !! "Authorization") as [v|].
    + split; [intros _; left|]; by eexists.
    + unfold defaultHeader. rewrite decide_True by done.
      destruct (decide (APIKey cfg = "")) as [Hk|Hk].
      * split; [by intros [? ?]|]. by intros [[? ?]|?].
      * split; [by right|by eexists].
Qed.

(** X16. [NewClient] is idempotent: a configuration that went through
    it once comes back unchanged from a second pass, so a client built
    from the configuration of a client is that client. *)
Theorem client_of_client (cfg : Config) :
  NewClient (ClientConfig (NewClient cfg)) = NewClient cfg.
Proof.
  set (c := ClientConfig (NewClient cfg)).
  assert (BaseURL c ≠ "") as Hbase.
  { unfold c, NewClient. cbn. by case_decide. }
  assert (∀ key, Headers (ClientConfig (NewClient c)) !! key = Headers c !! key)
    as Hheaders.
  { intros key. rewrite NewClient_headers.
    destruct (Headers c !! key) as [v|] eqn:Hv; [done|].
    unfold c in Hv. rewrite NewClient_headers in Hv.
    destruct (Headers cfg !! key); [done|].
    unfold defaultHeader in *. change (APIKey c) with (APIKey cfg).
    repeat case_decide; done. }
  apply map_eq in Hheaders.
  unfold NewClient at 1. fold c. rewrite decide_False by done.
  change (NewClient cfg) with {| ClientConfig := c |}. f_equal.
  unfold NewClient in Hheaders. cbn [ClientConfig Headers] in Hheaders.
  rewrite Hheaders. by destruct c.
Qed.

(** ** The identifier of a streamed response, as a fold *)

Lemma holds_any {A} P (Q : A → Prop) (m : Go A) :
  holds P Q m → holds (λ _, True) Q m.
Proof. intros (_ & Hf & Hq). split_and!; [by apply Forall_forall|done..]. Qed.

Lemma processChoice_id opt agentName st choice :
  length (Choices (resp st)) = 1%nat →
  holds (λ _, True)
    (λ st', length (Choices (resp st')) = 1%nat
            ∧ ID (resp st') = (if quirkChoice choice then ID (identify (resp st))
                               else ID (resp st)))
    (processChoice opt agentName st choice).
Proof.
  intros Hlen. unfold processChoice, quirkChoice. rewrite Hlen.
  change (Z.of_nat 1) with 1.
  destruct (decide (1 ≤ scIndex choice)) as [Hskip|Hidx].
  { rewrite bool_decide_eq_false_2 by lia. by apply holds_mret. }
  rewrite bool_decide_eq_true_2 by lia. cbn [andb].
  destruct (scDelta choice) as [delta|]; cbn [isSome negb andb].
  - eapply holds_weaken;
      [|apply holds_and; [apply handleDelta_framed|by apply handleDelta_holds]].
    intros st' ([R _] & (K & _) & _). split; [|done].
    by rewrite (framed_length _ _ R).
  - destruct (scMessage choice) as [msg|]; cbn [isSome]; [|by apply holds_mret].
    eapply holds_bind.
    { apply holds_and; [apply handleMessage_framed|].
      eapply holds_any, handleMessage_stamped. }
    intros r [R [Hid _]]. apply holds_mret. cbn [resp]. split; [|done].
    by rewrite (framed_length _ _ R).
Qed.

Lemma processChoices_id opt agentName choices st :
  length (Choices (resp st)) = 1%nat →
  holds (λ _, True)
    (λ st', length (Choices (resp st')) = 1%nat
            ∧ ID (resp st') = (if existsb quirkChoice choices
                               then ID (identify (resp st)) else ID (resp st)))
    (processChoices opt agentName choices st).
Proof.
  revert st. induction choices as [|choice rest IH]; intros st Hlen.
  - by apply holds_mret.
  - cbn [processChoices existsb].
    eapply holds_bind; [by apply processChoice_id|].
    intros st1 [L1 I1]. eapply holds_weaken; [|by apply IH].
    intros st2 [L2 I2]. split; [done|]. rewrite I2.
    destruct (quirkChoice choice); cbn [orb].
    + destruct (existsb quirkChoice rest); [|done].
      unfold identify at 1. rewrite I1.
      assert (nonEmpty (ID (identify (resp st))) = true) as ->; [|done].
      unfold identify. destruct (nonEmpty (ID (resp st))) eqn:Hid; [done|].
      apply syntheticID_nonEmpty.
    + destruct (existsb quirkChoice rest); [|done].
      unfold identify. rewrite I1. by destruct (nonEmpty (ID (resp st))).
Qed.

Lemma processChunk_id opt agentName chunk st :
  (initialized st = true → length (Choices (resp st)) = 1%nat) →
  holds (λ _, True)
    (λ st', length (Choices (resp st')) = 1%nat ∧ initialized st' = true
            ∧ ID (resp st')
              = idAfter (if initialized st then ID (resp st) else "") chunk)
    (processChunk opt agentName chunk st).
Proof.
  intros Hlen. unfold processChunk.
  pose proof (beginChunk_frame chunk st) as (_ & _ & _ & _ & _ & F6 & F7).
  cbn zeta in F6, F7.
  eapply holds_weaken;
    [|apply holds_and; [apply processChoices_id|apply processChoices_framed]].
  2: { cbn [resp]. rewrite F7. destruct (initialized st); [by apply Hlen|done]. }
  cbn [resp initialized]. intros st' ([L I] & _ & Hinit). split_and!; [done..|].
  rewrite I. clear I. unfold idAfter, identify.
  set (b := beginChunk chunk st) in *.
  set (id0 := if initialized st then ID (resp st) else "").
  assert (ID b = (if nonEmpty id0 then id0 else chunkID chunk)) as Hb.
  { rewrite F6. unfold id0. destruct (initialized st); [done|].
    cbn [ID shell]. change (nonEmpty "") with false. by destruct (nonEmpty _). }
  rewrite <- Hb.
  destruct (nonEmpty (ID b)) eqn:Hne, (existsb quirkChoice (chunkChoices chunk));
    try done.
  by apply nonEmpty_false in Hne.
Qed.

Lemma processChunks_id opt agentName chunks st :
  (initialized st = true → length (Choices (resp st)) = 1%nat) →
  holds (λ _, True)
    (λ st', ID (resp st')
            = foldl idAfter (if initialized st then ID (resp st) else "") chunks
            ∨ (chunks = [] ∧ st' = st))
    (processChunks opt agentName chunks st).
Proof.
  revert st. induction chunks as [|chunk chunks IH]; intros st Hlen.
  - apply holds_mret. by right.
  - cbn [processChunks foldl].
    eapply holds_bind; [by apply processChunk_id|].
    intros st1 (L1 & I1 & Hid1). eapply holds_weaken; [|by apply IH].
    intros st2 [H2|[-> ->]]; left.
    + by rewrite H2, I1, Hid1.
    + done.
Qed.

(** X22. The identifier of a streamed response is a fold over its
    chunks, from the empty identifier: an identifier that is not empty
    stays; while it is empty, a chunk that has an identifier gives it to
    the response, and a chunk that has none leaves the response without
    one unless it brings a complete message, which makes the response
    take the synthetic identifier. The deltas of a stream never give the
    response an identifier. *)
Theorem identifier_of_stream (opt : CompletionOptions) (agentName : string)
    (lines : Scanner) :
  ∀ r, (runScanner opt agentName lines).2 = Returned r →
    ID r = foldl idAfter "" (chunksOf (scanned lines))
    ∧ (Forall (λ chunk, chunkID chunk = ""
                        ∧ existsb quirkChoice (chunkChoices chunk) = false)
         (chunksOf (scanned lines)) → ID r = "").
Proof.
  intros r Hr.
  apply runScanner_returned in Hr as (st & Hst & _ & Hfin).
  destruct (processChunks_id opt agentName (chunksOf (scanned lines)) initialState)
    as (_ & _ & Hq); [done|].
  specialize (Hq st Hst). cbn [initialized initialState] in Hq.
  destruct (finalizeIn_keeps (λ _, True) (map_to_list (toolCalls st)) (resp st))
    as (_ & _ & Hk).
  destruct (Hk r Hfin) as (Hid & _).
  assert (ID r = foldl idAfter "" (chunksOf (scanned lines))) as Hfold.
  { rewrite Hid. destruct Hq as [Hq|[-> ->]]; done. }
  split; [done|].
  intros Hall. rewrite Hfold. clear -Hall.
  induction Hall as [|chunk chunks [Hc Hquirk] _ IH]; [done|].
  cbn [foldl]. unfold idAfter at 2. change (nonEmpty "") with false.
  cbn match. by rewrite Hc, Hquirk.
Qed.

End Completions.

(** * The properties at the sample streams

    The decoders are the sample decoders, the usage summary and the other
    request fields are left out ([unit]), and the progress token is a
    string. *)

Definition sampleOptions : @CompletionOptions string :=
  {| ProgressToken := Some "progress-1" |}.

Definition sampleDecode : string → option (@StreamChunk unit) :=
  sampleUnmarshalStreamChunk.

Definition sampleDecodeResponse : string → option (@Response unit) :=
  sampleUnmarshalResponse.

(** Two chunks that bring two fragments each. *)
Definition samplePairOpen : string :=
  json "{'id':'chatcmpl-8','choices':[{'index':0,'delta':{'tool_calls':[{'index':0,'id':'call_a','type':'function','function':{'name':'f','arguments':'{\'a\':'}},{'index':1,'id':'call_b','type':'function','function':{'name':'g','arguments':'{\'b\':'}}]}}]}".
Definition samplePairClose : string :=
  json "{'id':'chatcmpl-8','choices':[{'index':0,'delta':{'tool_calls':[{'index':0,'function':{'arguments':'1}'}},{'index':1,'function':{'arguments':'2}'}}]}}]}".

Definition pairDecode (data : string) : option (@StreamChunk unit) :=
  if decide (data = samplePairOpen)
  then Some (deltaChunk "chatcmpl-8" "" 0
               (toolDelta [fragment 0 "call_a" "function" "f" (json "{'a':");
                           fragment 1 "call_b" "function" "g" (json "{'b':")]) None)
  else if decide (data = samplePairClose)
  then Some (deltaChunk "chatcmpl-8" "" 0
               (toolDelta [fragment 0 "" "" "" "1}"; fragment 1 "" "" "" "2}"]) None)
  else None.

Definition pairLines : Scanner :=
  {| scanned := [(dataLine samplePairOpen, None); (dataLine samplePairClose, None);
                 (doneLine, None)];
     scanErr := None |}.

Lemma interleaved_fragments_witness :
  ∃ t r c m,
    runScanner pairDecode 0 sampleOptions "agent" pairLines = (t, Returned r)
    ∧ Choices r = [c] ∧ ChoiceMessage c = Some m
    ∧ ToolCalls m
      = [ {| tcIndex := None; tcID := "call_a"; tcType := "function";
             tcFunction := {| fnName := "f"; fnArguments := json "{'a':1}" |} |};
          {| tcIndex := None; tcID := "call_b"; tcType := "function";
             tcFunction := {| fnName := "g"; fnArguments := json "{'b':2}" |} |} ].
Proof.
  assert (chunksOf pairDecode (scanned pairLines)
          = [deltaChunk "chatcmpl-8" "" 0
               (toolDelta [fragment 0 "call_a" "function" "f" (json "{'a':");
                           fragment 1 "call_b" "function" "g" (json "{'b':")]) None;
             deltaChunk "chatcmpl-8" "" 0
               (toolDelta [fragment 0 "" "" "" "1}"; fragment 1 "" "" "" "2}"]) None])
    as Hchunks by (vm_compute; reflexivity).
  assert (Forall indexed (chunksOf pairDecode (scanned pairLines))) as Hindexed.
  { rewrite Hchunks. unfold indexed. by repeat constructor. }
  assert (stopsWith (scanned pairLines) (scanErr pairLines) = None) as Hstop
    by (vm_compute; reflexivity).
  assert (fragmentsOf (chunksOf pairDecode (scanned pairLines))
          = [fragment 0 "call_a" "function" "f" (json "{'a':");
             fragment 1 "call_b" "function" "g" (json "{'b':");
             fragment 0 "" "" "" "1}"; fragment 1 "" "" "" "2}"]) as Hfrags
    by (rewrite Hchunks; reflexivity).
  exact (proj2 (proj2 (@interleaved_fragments unit string pairDecode 0 sampleOptions
                         "agent" pairLines _ _ _ _ Hindexed Hstop Hfrags
                         eq_refl eq_refl eq_refl eq_refl
                         eq_refl eq_refl eq_refl eq_refl))).
Defined.


Lemma dense_accumulator_converts_witness :
  let entry id name args : ToolCall :=
    {| tcIndex := None; tcID := id; tcType := "function";
       tcFunction := {| fnName := name; fnArguments := args |} |} in
  let acc : gmap Z ToolCall :=
    <[1 := entry "call_b" "g" (json "{'b':2}")]>
      (<[0 := entry "call_a" "f" (json "{'a':1}")]> ∅) in
  let ls := [(dataLine sampleA0, None); (dataLine sampleB0, None);
             (dataLine sampleA1, None); (dataLine sampleB1, None)] in
  dense acc 2
  ∧ ∃ t st r c m,
      readLines sampleDecode 0 sampleOptions "agent" ls None initialState
      = (t, Returned (st, None))
      ∧ toolCalls st = acc
      ∧ finalize (Token := string) st = ([], Returned r)
      ∧ Choices r = [c] ∧ ChoiceMessage c = Some m
      ∧ ToolCalls m = [entry "call_a" "f" (json "{'a':1}");
                       entry "call_b" "g" (json "{'b':2}")].
Proof.
  intros entry acc ls.
  assert (dense acc 2) as Hdense.
  { intros k. unfold acc.
    destruct (decide (k = 1)) as [->|K1];
      [rewrite lookup_insert_eq; split; [lia | eauto]|].
    rewrite lookup_insert_ne by done.
    destruct (decide (k = 0)) as [->|K0];
      [rewrite lookup_insert_eq; split; [lia | eauto]|].
    rewrite lookup_insert_ne, lookup_empty by done.
    split; [by intros [? ?] | lia]. }
  split; [exact Hdense|].
  destruct (@dense_accumulator_converts unit string sampleDecode 0 acc 2
              (map_to_list acc) Hdense (reflexivity _)) as (_ & _ & Hfinal).
  destruct (readLines sampleDecode 0 sampleOptions "agent" ls None initialState)
    as [t [[st e]|e|k]] eqn:Hrun; [|by vm_compute in Hrun..].
  assert (e = None ∧ toolCalls st = acc) as [-> Hacc].
  { vm_compute in Hrun. injection Hrun as _ <- <-. split; reflexivity. }
  destruct (Hfinal sampleOptions "agent" ls None None t st Hrun Hacc)
    as (r & Hr & _ & _ & Hshape).
  destruct (Hshape ltac:(lia)) as (c & m & l & Hc & Hm & _ & -> & Hlen & Hl).
  pose proof (Hl 0%nat ltac:(lia)) as Hl0. pose proof (Hl 1%nat ltac:(lia)) as Hl1.
  destruct l as [|a [|b [|x l]]]; try discriminate Hlen.
  exists t, st, (setChoices (resp st) [setMessage c (Some (setToolCalls m [a; b]))]),
    (setMessage c (Some (setToolCalls m [a; b]))), (setToolCalls m [a; b]).
  vm_compute in Hl0, Hl1. injection Hl0 as Ha. injection Hl1 as Hb.
  split_and!; [reflexivity|exact Hacc|exact Hr|reflexivity|reflexivity|].
  cbn [ToolCalls setToolCalls]. by rewrite Ha, Hb.
Defined.

Lemma undecodable_line_skipped_witness :
  sameResult
    (runScanner sampleDecode 0 sampleOptions "agent"
       {| scanned := [(dataLine sampleHel, None)]
                     ++ (dataLine sampleGarbage, None) :: [(dataLine sampleLo, None)];
          scanErr := None |})
    (runScanner sampleDecode 0 sampleOptions "agent"
       {| scanned := [(dataLine sampleHel, None)] ++ [(dataLine sampleLo, None)];
          scanErr := None |}).
Proof.
  refine (proj2 (@undecodable_line_skipped unit string sampleDecode 0 sampleOptions
                   "agent" [(dataLine sampleHel, None)] [(dataLine sampleLo, None)]
                   (dataLine sampleGarbage) None None _ _ _)).
  - by vm_compute.
  - by vm_compute.
  - by vm_compute.
Defined.

Lemma sentinel_ends_stream_witness :
  let ended held :=
    {| scanned := [(dataLine sampleHel, None)]
                  ++ (doneLine, held) :: [("event: end", None)];
       scanErr := Some (ErrRead "connection reset") |} in
  (runScanner sampleDecode 0 sampleOptions "agent" (ended None)
   = runScanner sampleDecode 0 sampleOptions "agent"
       {| scanned := [(dataLine sampleHel, None)]; scanErr := None |}
   ∧ ∃ t r, runScanner sampleDecode 0 sampleOptions "agent" (ended None)
            = (t, Returned r))
  ∧ ∃ t, runScanner sampleDecode 0 sampleOptions "agent"
           (ended (Some (ErrRead "unexpected EOF")))
         = (t, Failed (ErrReadStreaming (ErrRead "unexpected EOF"))).
Proof.
  intros ended.
  assert (HasPrefix doneLine dataPrefix = true) as Hprefix by (vm_compute; reflexivity).
  assert (payload doneLine = doneSentinel) as Hpayload by (vm_compute; reflexivity).
  assert (∀ l h, (l, h) ∈ [(dataLine sampleHel, @None ScanError)] → ¬ isDone l)
    as Hpre.
  { intros l h Hin [_ Hdone]. apply list_elem_of_singleton in Hin.
    injection Hin as -> _. by vm_compute in Hdone. }
  split.
  - destruct (@sentinel_ends_stream unit string sampleDecode 0 sampleOptions "agent"
                [(dataLine sampleHel, None)] [("event: end", None)] doneLine
                None (Some (ErrRead "connection reset")) Hprefix Hpayload Hpre)
      as (Hsame & _ & _ & Hreturns).
    split; [exact Hsame|].
    destruct (readLines sampleDecode 0 sampleOptions "agent"
                [(dataLine sampleHel, None)] None initialState)
      as [t [[st e]|e|k]] eqn:Hrun; [|by vm_compute in Hrun..].
    destruct (Hreturns t st e eq_refl) as [_ Hdense].
    destruct (Hdense 0%nat) as (r & Hr & _).
    + apply dense_zero. vm_compute in Hrun. by injection Hrun as _ <- _.
    + exists t, r. exact Hr.
  - destruct (@sentinel_ends_stream unit string sampleDecode 0 sampleOptions "agent"
                [(dataLine sampleHel, None)] [("event: end", None)] doneLine
                (Some (ErrRead "unexpected EOF")) (Some (ErrRead "connection reset"))
                Hprefix Hpayload Hpre)
      as (_ & _ & _ & Hfails).
    destruct (readLines sampleDecode 0 sampleOptions "agent"
                [(dataLine sampleHel, None)] (Some (ErrRead "unexpected EOF"))
                initialState)
      as [t [[st e]|e|k]] eqn:Hrun; [|by vm_compute in Hrun..].
    destruct (Hfails t st e eq_refl) as [_ Hfail].
    exists t. exact Hfail.
Defined.

(** C8 as it was stated fails on a short body whose read ends in an
    error: the twelve bytes that arrive start with the marker, yet the
    peek returns the read error, and the call fails with it without
    taking either path: the streaming run over the same body would have
    returned the read error of the stream, and the buffered path the
    read error of the body. *)
Lemma peek_error_takes_neither_path :
  let body := {| bodyData := "data: [DONE]"; bodyErr := Some "unexpected EOF" |} in
  HasPrefix (TrimSpace (Peek 20 (NewReader body)).1.1) "data: " = true
  ∧ decodeBody sampleDecode sampleDecodeResponse 0 sampleOptions "agent" body
    = ([], Failed (ErrPeek "unexpected EOF"))
  ∧ runScanner sampleDecode 0 sampleOptions "agent" (scanBody body)
    = ([], Failed (ErrReadStreaming (ErrRead "unexpected EOF")))
  ∧ completeBuffered sampleDecodeResponse 0 sampleOptions "agent"
      (Peek 20 (NewReader body)).2
    = ([], Failed (ErrReadBody "unexpected EOF")).
Proof.
  split_and!; by vm_compute.
Defined.

Lemma stream_without_identifier_witness :
  ∃ r, runScanner sampleDecode 0 sampleOptions "agent"
         {| scanned := [(dataLine sampleNoID, None); (doneLine, None)];
            scanErr := None |}
       = ([], Returned r)
       ∧ ID r = "" ∧ choiceText r = Some "hi".
Proof.
  refine (proj2 (proj2 (@stream_without_identifier unit string sampleDecode
                          sampleDecodeResponse 0 sampleOptions "agent"
                          (dataLine sampleNoID)
                          (deltaChunk "" "" 0 (textDelta "hi") None)
                          "hi" None None _ _ _))).
  - split_and!; [by vm_compute | by vm_compute | vm_compute; reflexivity].
  - reflexivity.
  - eexists _, _. unfold oneDelta. split_and!; reflexivity.
Defined.

Lemma quirk_drops_finish_reason_witness :
  ∃ tq td rq rd cq cd,
    runScanner sampleDecode 0 sampleOptions "agent"
      {| scanned := [(dataLine sampleQuirk, None)]; scanErr := None |}
    = (tq, Returned rq)
    ∧ runScanner sampleDecode 0 sampleOptions "agent"
        {| scanned := [(dataLine sampleQuirkAsDelta, None)]; scanErr := None |}
      = (td, Returned rd)
    ∧ Choices rq = [cq] ∧ Choices rd = [cd]
    ∧ FinishReason cq = None
    ∧ FinishReason cd = Some "stop".
Proof.
  assert (decodesTo sampleDecode (dataLine sampleQuirk)
            (messageChunk "chatcmpl-5" "" 0 (textMessage "assistant" "hi")
               (Some "stop"))) as Hq.
  { split_and!; [by vm_compute | by vm_compute | vm_compute; reflexivity]. }
  assert (decodesTo sampleDecode (dataLine sampleQuirkAsDelta)
            (deltaChunk "chatcmpl-5" "" 0 (asDelta (textMessage "assistant" "hi"))
               (Some "stop"))) as Hd.
  { split_and!; [by vm_compute | by vm_compute | vm_compute; reflexivity]. }
  destruct (@quirk_drops_finish_reason unit string sampleDecode 0 sampleOptions "agent"
              (dataLine sampleQuirk) (dataLine sampleQuirkAsDelta) None None
              "chatcmpl-5" "" "assistant" "hi" "stop" Hq Hd)
    as (tq & td & rq & rd & cq & cd & H1 & H2 & H3 & H4 & _ & _ & _ & H8 & H9).
  exists tq, td, rq, rd, cq, cd. split_and!; assumption.
Defined.

(** C7 as it was stated fails on two inputs. A chunk files a tool-call
    fragment under index 1 and nothing under index 0, and the sentinel
    follows: the sentinel is read, and the conversion panics. The body
    ends with the sentinel line, not terminated, and the read then fails:
    the sentinel is read, and the call returns the read error. *)
Lemma sentinel_read_without_response :
  isDone doneLine
  ∧ decodesTo sampleDecode (dataLine sampleSparse)
      (deltaChunk "chatcmpl-9" "" 0 (toolDelta [fragment 1 "" "" "" "{}"]) None)
  ∧ (decodeBody sampleDecode sampleDecodeResponse 0 sampleOptions "agent"
       {| bodyData := bodyOf [dataLine sampleSparse; doneLine]; bodyErr := None |}).2
    = Panicked IndexOutOfRange
  ∧ (decodeBody sampleDecode sampleDecodeResponse 0 sampleOptions "agent"
       {| bodyData := dataLine sampleHel +:+ String newline doneLine;
          bodyErr := Some "unexpected EOF" |}).2
    = Failed (ErrReadStreaming (ErrRead "unexpected EOF")).
Proof.
  split_and!; [by vm_compute | | by vm_compute | by vm_compute].
  split_and!; [by vm_compute | by vm_compute | vm_compute; reflexivity].
Defined.

(** * The title of a thread *)

Section DescribeSession.

Import AgentUI.

Context {Args SessionFields : Type}.

Implicit Types (w : @Answers SessionFields) (args : Args)
  (e : @Event Args SessionFields).

(** The events of the database part: no call of the summary tool, no
    title, no closing. *)
Definition databaseEvent e : Prop :=
  match e with
  | LogError _ _ | LogInfo _ _ | DBGet _ | DBUpdate _ | Sleep _ => True
  | _ => False
  end.

(** The contents before the first one of type [text]. *)
Definition firstText (contents pre : list Content) (c : Content) : Prop :=
  ∃ post, contents = pre ++ c :: post
          ∧ Forall (λ x, contentType x ≠ "text") pre
          ∧ contentType c = "text".

Lemma updateSession_events w description sessionID :
  Forall databaseEvent (updateSession (Args := Args) w description sessionID).
Proof.
  unfold updateSession.
  destruct (dbGet w sessionID) as [[old|] [err|]]; repeat constructor.
  destruct (dbUpdate w _); repeat constructor.
Qed.

Lemma updateDatabase_events w description :
  Forall databaseEvent (updateDatabase (Args := Args) w description).
Proof.
  unfold updateDatabase. destruct (hasManager w); [|repeat constructor].
  constructor; [done|].
  destruct (sessionState w) as [[sessionID|] [err|]]; try (repeat constructor; done).
  constructor; [done|]. case_decide; [constructor|apply updateSession_events].
Qed.

(** The loop either finds no text, or stops at the first one. *)
Lemma titleFrom_cases w (contents : list Content) :
  (Forall (λ c, contentType c ≠ "text") contents
   ∧ titleFrom (Args := Args) w contents = [])
  ∨ ∃ pre c,
      firstText contents pre c
      ∧ titleFrom (Args := Args) w contents
        = LogInfo "Generated title: %q" [contentText c]
          :: SetDescription (contentText c)
          :: updateDatabase w (contentText c).
Proof.
  induction contents as [|c rest IH]; [left; by split|].
  cbn [titleFrom]. destruct (decide (contentType c = "text")) as [Hc|Hc].
  - right. exists [], c. split; [|done]. exists rest. by split_and!.
  - destruct IH as [[Hall Hnil]|(pre & c' & (post & -> & Hall & Hc') & Ht)].
    + left. split; [by constructor|done].
    + right. exists (c :: pre), c'. split; [|done].
      exists post. split_and!; [done|by constructor|done].
Qed.

Lemma databaseEvent_not_close (t : list (@Event Args SessionFields)) :
  Forall databaseEvent t →
  (CloseResult ∉ t) ∧ (Panic ∉ t)
  ∧ (∀ d, SetDescription d ∉ t) ∧ (∀ s l a, CallSummary s l a ∉ t).
Proof.
  intros Hall. rewrite Forall_forall in Hall.
  split_and!; repeat intros ?; by match goal with H : _ ∈ t |- _ => apply Hall in H end.
Qed.

(** X17. The channel [describeSession] returns is closed exactly once,
    by the last thing the call does, on every path: when the session has
    a title already, in which case nothing else happens at all; when the
    summary tool fails; when its answer holds no text; and after the
    title was stored, however the database part went. The one exception
    is a summary tool that answers with neither a result nor an error:
    the goroutine then panics on the nil result right after the call, and
    the channel is never closed. The summary tool is called once, and
    only for a session without title. *)
Theorem result_closed_exactly_once w args :
  let t := describeSession w args in
  (storedDescription w ≠ "" → t = [CloseResult])
  ∧ (storedDescription w = "" →
     ∃ rest, t = CallSummary "nanobot.summary" "nanobot.summary" args :: rest
             ∧ (∀ s l a, CallSummary s l a ∉ rest))
  ∧ ((∃ pre, t = pre ++ [CloseResult] ∧ (CloseResult ∉ pre) ∧ (Panic ∉ pre))
     ∨ (storedDescription w = "" ∧ summary w = (None, None)
        ∧ t = [CallSummary "nanobot.summary" "nanobot.summary" args; Panic])).
Proof.
  intros t. unfold t, describeSession.
  destruct (decide (storedDescription w = "")) as [Hd|Hd].
  2: { split_and!; [done|done|]. left. exists []. split_and!; [done|..]; apply not_elem_of_nil. }
  split; [done|].
  assert (∀ contents,
            (CloseResult ∉ titleFrom (Args := Args) w contents)
            ∧ (Panic ∉ titleFrom (Args := Args) w contents)
            ∧ ∀ s l a, CallSummary s l a ∉ titleFrom (Args := Args) w contents)
    as Htitle.
  { intros contents.
    destruct (titleFrom_cases w contents) as [[_ ->]|(pre & c & _ & ->)].
    - split_and!; [apply not_elem_of_nil..|]. intros s l a. apply not_elem_of_nil.
    - destruct (databaseEvent_not_close _ (updateDatabase_events w (contentText c)))
        as (H1 & H2 & _ & H4).
      split_and!; [| |intros s l a]; rewrite !not_elem_of_cons; split_and!; done. }
  destruct (summary w) as [[contents|] [err|]].
  - split.
    + intros _. eexists. split; [done|]. intros s l a.
      rewrite !not_elem_of_cons. split_and!; [done..|]. apply not_elem_of_nil.
    + left. eexists [_; _]. split_and!; [done|..];
        rewrite !not_elem_of_cons; split_and!; try done; apply not_elem_of_nil.
  - destruct (Htitle contents) as (H1 & H2 & H3). split.
    + intros _. eexists. split; [done|]. intros s l a.
      rewrite not_elem_of_app. split; [done|].
      rewrite not_elem_of_cons. split; [done|apply not_elem_of_nil].
    + left. exists (CallSummary "nanobot.summary" "nanobot.summary" args
                     :: titleFrom w contents).
      split_and!; [done|..]; rewrite not_elem_of_cons; by split.
  - split.
    + intros _. eexists. split; [done|]. intros s l a.
      rewrite !not_elem_of_cons. split_and!; [done..|]. apply not_elem_of_nil.
    + left. eexists [_; _]. split_and!; [done|..];
        rewrite !not_elem_of_cons; split_and!; try done; apply not_elem_of_nil.
  - split.
    + intros _. eexists. split; [done|]. intros s l a.
      rewrite !not_elem_of_cons. split_and!; [done|]. apply not_elem_of_nil.
    + by right.
Qed.

(** X18. The title is the text of the first content of type [text] in
    the answer of the summary tool: the contents before it are passed
    over, the ones after it are never looked at, and the title is stored
    in the session once, before anything is read from the database. A
    session that has a title, a failed summary and an answer without text
    store nothing. *)
Theorem title_is_first_text w args (description : string) :
  SetDescription description ∈ describeSession w args →
  storedDescription w = ""
  ∧ ∃ contents pre c,
      summary w = (Some contents, None)
      ∧ firstText contents pre c
      ∧ description = contentText c
      ∧ describeSession w args
        = [CallSummary "nanobot.summary" "nanobot.summary" args;
           LogInfo "Generated title: %q" [description];
           SetDescription description]
          ++ updateDatabase w description ++ [CloseResult].
Proof.
  unfold describeSession.
  destruct (decide (storedDescription w = "")) as [Hd|Hd].
  2: { intros Hin. apply list_elem_of_singleton in Hin. done. }
  intros Hin. split; [done|].
  apply elem_of_cons in Hin as [Hin|Hin]; [done|].
  destruct (summary w) as [[contents|] [err|]].
  - repeat (apply elem_of_cons in Hin as [Hin|Hin]; [done|]).
    by apply elem_of_nil in Hin.
  - apply elem_of_app in Hin as [Hin|Hin].
    2: { apply list_elem_of_singleton in Hin. done. }
    destruct (titleFrom_cases w contents) as [[_ Hnil]|(pre & c & Hfirst & Ht)].
    { rewrite Hnil in Hin. by apply elem_of_nil in Hin. }
    rewrite Ht in Hin |- *.
    apply elem_of_cons in Hin as [Hin|Hin]; [done|].
    apply elem_of_cons in Hin as [Hin|Hin].
    + injection Hin as ->. by exists contents, pre, c.
    + destruct (databaseEvent_not_close _ (updateDatabase_events w (contentText c)))
        as (_ & _ & H3 & _).
      by destruct (H3 description).
  - repeat (apply elem_of_cons in Hin as [Hin|Hin]; [done|]).
    by apply elem_of_nil in Hin.
  - repeat (apply elem_of_cons in Hin as [Hin|Hin]; [done|]).
    by apply elem_of_nil in Hin.
Qed.

Ltac among :=
  repeat match goal with
         | H : _ ∈ [] |- _ => by apply elem_of_nil in H
         | H : _ ∈ _ :: _ |- _ => apply elem_of_cons in H as [H|H]; [try done|]
         | H : _ ∈ _ ++ _ |- _ => apply elem_of_app in H as [H|H]
         end.

(** No database update among the events. *)
Definition noUpdate (t : list (@Event Args SessionFields)) : Prop :=
  ∀ s, DBUpdate s ∉ t.

Lemma updateDatabase_update w description (s : @DBSession SessionFields) :
  DBUpdate s ∈ updateDatabase (Args := Args) w description →
  Description s = description
  ∧ (∃ sessionID old,
       hasManager w = true ∧ sessionState w = (Some sessionID, None)
       ∧ sessionID ≠ "" ∧ dbGet w sessionID = (Some old, None)
       ∧ sessionFields s = sessionFields old)
  ∧ (Sleep 200 ∈ updateDatabase (Args := Args) w description ↔ dbUpdate w s = None)
  ∧ ∃ pre post, updateDatabase (Args := Args) w description = pre ++ DBUpdate s :: post
                ∧ noUpdate pre ∧ noUpdate post.
Proof.
  unfold updateDatabase, updateSession.
  destruct (hasManager w); [|intros Hin; among].
  destruct (sessionState w) as [[sessionID|] [err|]]; try (intros Hin; by among).
  destruct (decide (sessionID = "")) as [Hid|Hid]; [intros Hin; among|].
  destruct (dbGet w sessionID) as [[old|] [err|]] eqn:Hget; try (intros Hin; by among).
  set (updated := {| Description := description; sessionFields := sessionFields old |}).
  intros Hin. among.
  - injection Hin as ->. split; [done|]. split; [by exists sessionID, old|].
    destruct (dbUpdate w updated) as [err|].
    + split; [split; [intros Hs; among|done]|].
      eexists [_; _; _; _], [_]. split; [done|].
      split; intros s' Hs'; among.
    + split; [split; [done|]; intros _; do 6 right; by left|].
      eexists [_; _; _; _], [_; _]. split; [done|].
      split; intros s' Hs'; among.
  - destruct (dbUpdate w updated); among.
Qed.

(** The paths of one call. *)
Lemma describeSession_cases w args :
  (∀ s d, (DBUpdate s ∉ describeSession w args)
          ∧ (SetDescription d ∉ describeSession w args))
  ∨ ∃ contents pre c,
      storedDescription w = "" ∧ summary w = (Some contents, None)
      ∧ firstText contents pre c
      ∧ describeSession w args
        = [CallSummary "nanobot.summary" "nanobot.summary" args;
           LogInfo "Generated title: %q" [contentText c];
           SetDescription (contentText c)]
          ++ updateDatabase w (contentText c) ++ [CloseResult].
Proof.
  unfold describeSession.
  destruct (decide (storedDescription w = "")) as [Hd|Hd].
  2: { left. intros s d. split; intros Hin; among. }
  destruct (summary w) as [[contents|] [err|]].
  - left. intros s d. split; intros Hin; among.
  - destruct (titleFrom_cases w contents) as [[_ ->]|(pre & c & Hfirst & ->)].
    + left. intros s d. split; intros Hin; among.
    + right. by exists contents, pre, c.
  - left. intros s d. split; intros Hin; among.
  - left. intros s d. split; intros Hin; among.
Qed.

(** X19. The database is written at most once, and only after the title
    was stored in the session: an update carries the session the
    database returned for the identifier of the session state, with the
    new title as its description and everything else as it was; it is
    made only when the session holds a manager, the state was read
    without error and has an identifier that is not empty, and the
    database returned a session without error. The call pauses for 200
    milliseconds before it closes the channel exactly when the update
    succeeded. *)
Theorem database_updated_after_title w args (s : @DBSession SessionFields) :
  DBUpdate s ∈ describeSession w args →
  let t := describeSession w args in
  (∃ pre post, t = pre ++ DBUpdate s :: post
               ∧ SetDescription (Description s) ∈ pre
               ∧ noUpdate pre ∧ noUpdate post)
  ∧ (∃ sessionID old,
       hasManager w = true ∧ sessionState w = (Some sessionID, None)
       ∧ sessionID ≠ "" ∧ dbGet w sessionID = (Some old, None)
       ∧ sessionFields s = sessionFields old)
  ∧ (Sleep 200 ∈ t ↔ dbUpdate w s = None).
Proof.
  intros Hin t. unfold t.
  destruct (describeSession_cases w args)
    as [Hnone|(contents & pre & c & Hd & Hsum & Hfirst & Ht)].
  { by destruct (Hnone s ""). }
  rewrite Ht in Hin |- *. clear Ht.
  among. destruct (updateDatabase_update _ _ _ Hin)
    as (Hdesc & Hwhere & Hsleep & pre' & post' & Hsplit & Hpre & Hpost).
  split_and!; [|done|].
  - rewrite Hsplit. eexists (_ :: _ :: _ :: pre'), (post' ++ [CloseResult]).
    split_and!.
    + cbn [app]. by rewrite <- app_assoc.
    + rewrite Hdesc. do 2 right. by left.
    + intros s' Hs'. among. by destruct (Hpre s').
    + intros s' Hs'. among. by destruct (Hpost s').
  - rewrite <- Hsleep. split.
    + intros Hs. by among.
    + intros Hs. do 3 right. apply elem_of_app. by left.
Qed.

End DescribeSession.

(** * The listeners of the thread update store *)

Section ThreadUpdates.

Import ThreadUpdateStore.

Context {Listener : Type} `{EqDecision Listener}.

Implicit Types (callback : Listener) (listeners : list Listener).

Lemma unsubscribe_absent callback listeners :
  callback ∉ listeners → unsubscribe callback listeners = listeners.
Proof.
  unfold unsubscribe. induction listeners as [|l ls IH]; [done|].
  rewrite not_elem_of_cons. intros [Hne Hin].
  rewrite filter_cons_True by done. by rewrite IH.
Qed.

Lemma unsubscribe_length callback listeners :
  callback ∈ listeners →
  (length (unsubscribe callback listeners) < length listeners)%nat.
Proof.
  unfold unsubscribe. induction listeners as [|l ls IH]; [by intros ?%elem_of_nil|].
  destruct (decide (l = callback)) as [->|Hne].
  - intros _. rewrite filter_cons_False by (by intros ?).
    pose proof (length_filter (λ l, l ≠ callback) ls). cbn. lia.
  - rewrite elem_of_cons. intros [->|Hin]; [done|].
    rewrite filter_cons_True by done. cbn. specialize (IH Hin). lia.
Qed.

(** X20. Taking a subscription back takes back every subscription of
    that callback: the function [subscribe] returns leaves no copy of the
    callback among the listeners it is applied to, however often the
    callback was subscribed, and leaves the other listeners as they
    were, in their order. So after a callback was subscribed twice, the
    first of the two functions removes both subscriptions and the second
    has nothing left to do. *)
Theorem unsubscribe_takes_every_copy callback listeners :
  let '(once, first) := subscribe callback listeners in
  let '(twice, second) := subscribe callback once in
  (∀ later, (callback ∉ first later)
            ∧ filter (λ l, l ≠ callback) (first later)
              = filter (λ l, l ≠ callback) later
            ∧ first later `sublist_of` later)
  ∧ first twice = unsubscribe callback listeners
  ∧ second (first twice) = first twice.
Proof.
  cbn [subscribe]. split_and!.
  - intros later. unfold unsubscribe. split_and!.
    + rewrite list_elem_of_filter. by intros [Hne _].
    + apply list_filter_filter_l. done.
    + apply sublist_filter.
  - unfold unsubscribe. rewrite !filter_app.
    rewrite !filter_cons_False, filter_nil by (by intros ?).
    by rewrite !app_nil_r.
  - unfold unsubscribe. rewrite list_filter_filter.
    apply list_filter_iff. intros l. tauto.
Qed.

(** X21. Subscribing and taking the subscription back at once gives the
    listeners there were exactly when the callback was not among them
    before: otherwise the earlier subscriptions of the callback are gone
    as well, and the store is left with fewer listeners than it had. *)
Theorem subscribe_round_trip callback listeners :
  let '(after, back) := subscribe callback listeners in
  (back after = listeners ↔ callback ∉ listeners)
  ∧ (callback ∈ listeners → (length (back after) < length listeners)%nat)
  ∧ length after = S (length listeners)
  ∧ last after = Some callback.
Proof.
  cbn [subscribe].
  assert (unsubscribe callback (listeners ++ [callback])
          = unsubscribe callback listeners) as ->.
  { unfold unsubscribe. rewrite filter_app.
    rewrite filter_cons_False, filter_nil by (by intros ?).
    by rewrite app_nil_r. }
  split_and!.
  - split; [|apply unsubscribe_absent].
    intros Heq Hin. pose proof (unsubscribe_length _ _ Hin) as Hlen.
    rewrite Heq in Hlen. lia.
  - apply unsubscribe_length.
  - rewrite length_app. cbn. lia.
  - apply last_snoc.
Qed.

End ThreadUpdates.


(** * The further properties at sample inputs *)

Definition helloLines : Scanner :=
  {| scanned := [(dataLine sampleHel, None); (dataLine sampleLo, None);
                 (dataLine sampleWorld, None); (doneLine, None)];
     scanErr := None |}.

Definition toolLines : Scanner :=
  {| scanned := [(dataLine sampleA0, None); (dataLine sampleB0, None);
                 (dataLine sampleA1, None); (dataLine sampleB1, None)];
     scanErr := None |}.



(** An accumulator with an entry under key 1 and none under key 0. *)
Definition sparseAccumulator : gmap Z ToolCall :=
  {[ 1 := fragment 1 "call_b" "function" "g" "{}" ]}.

(** Three chunks, the first two of which report a usage. *)
Definition usageChunk (u : option Z) : @StreamChunk Z :=
  {| chunkID := "chatcmpl-3"; chunkCreated := 0; chunkModel := "gpt-4o";
     chunkSystemFingerprint := ""; chunkUsage := u; chunkChoices := [] |}.

Definition usageDecode (data : string) : option (@StreamChunk Z) :=
  if decide (data = "{1}") then Some (usageChunk (Some 1))
  else if decide (data = "{2}") then Some (usageChunk (Some 2))
  else if decide (data = "{}") then Some (usageChunk None)
  else None.

Definition usageLines : Scanner :=
  {| scanned := [(dataLine "{1}", None); (dataLine "{2}", None);
                 (dataLine "{}", None)];
     scanErr := None |}.

(** A transport that refuses every connection. *)
Definition refusing : @Environment unit :=
  {| apiVersion := ""; Do := λ _, inr "connection refused" |}.

Definition sampleConfig : Config :=
  {| APIKey := "sk-1"; BaseURL := ""; Headers := ∅ |}.

Definition sampleRequest : @Request unit :=
  {| Stream := false; ReqStreamOptions := None; reqFields := tt |}.

Lemma indexed_stream_is_read_witness :
  ∃ t st, readLines sampleDecode 0 sampleOptions "agent" (scanned helloLines) None
            initialState
          = (t, Returned (st, stopsWith (scanned helloLines) None))
          ∧ invariant st
          ∧ (chunksOf sampleDecode (scanned helloLines) ≠ [] → wellFormed (resp st)).
Proof.
  apply (@indexed_stream_is_read unit string sampleDecode 0 sampleOptions "agent"
           (scanned helloLines) None).
  assert (chunksOf sampleDecode (scanned helloLines)
          = [deltaChunk "chatcmpl-7" "gpt-4o" 0 (textDelta "Hel") None;
             deltaChunk "chatcmpl-7" "gpt-4o" 0 (textDelta "lo") None;
             deltaChunk "chatcmpl-7" "gpt-4o" 0 (textDelta " world") (Some "stop")])
    as -> by (vm_compute; reflexivity).
  unfold indexed. by repeat constructor.
Defined.


Lemma sparse_accumulator_panics_witness :
  ¬ dense sparseAccumulator (length (map_to_list sparseAccumulator))
  ∧ @toolCallsToSlice string (map_to_list sparseAccumulator)
    = ([], Panicked IndexOutOfRange).
Proof.
  assert (¬ dense sparseAccumulator (length (map_to_list sparseAccumulator)))
    as Hsparse.
  { intros Hdense. destruct (proj2 (Hdense 0)) as [tc Htc]; [by vm_compute|].
    by vm_compute in Htc. }
  split; [done|].
  exact (proj1 (proj2 (@sparse_accumulator_panics unit string sparseAccumulator
                         (map_to_list sparseAccumulator) zeroResponse
                         (reflexivity _) Hsparse))).
Defined.

Lemma first_chunk_frames_response_witness :
  ∃ r, (runScanner sampleDecode 0 sampleOptions "agent" helloLines).2 = Returned r
       ∧ Object r = "chat.completion" ∧ Created r = 0 ∧ Model r = "gpt-4o"
       ∧ SystemFingerprint r = ""
       ∧ ("chatcmpl-7" ≠ "" → ID r = "chatcmpl-7")
       ∧ ∃ c m, Choices r = [c] ∧ Index c = 0 ∧ ChoiceMessage c = Some m.
Proof.
  destruct (runScanner sampleDecode 0 sampleOptions "agent" helloLines)
    as [t [r|e|k]] eqn:Hrun; [|by vm_compute in Hrun..].
  exists r. split; [done|].
  pose proof (@first_chunk_frames_response unit string sampleDecode 0 sampleOptions
                "agent" helloLines r) as H.
  rewrite Hrun in H. specialize (H eq_refl).
  assert (chunksOf sampleDecode (scanned helloLines)
          = [deltaChunk "chatcmpl-7" "gpt-4o" 0 (textDelta "Hel") None;
             deltaChunk "chatcmpl-7" "gpt-4o" 0 (textDelta "lo") None;
             deltaChunk "chatcmpl-7" "gpt-4o" 0 (textDelta " world") (Some "stop")])
    as Hchunks by (vm_compute; reflexivity).
  rewrite Hchunks in H. exact H.
Defined.

Lemma usage_of_last_chunk_witness :
  ∃ r, (runScanner usageDecode 0 sampleOptions "agent" usageLines).2 = Returned r
       ∧ ResponseUsage r = Some 2.
Proof.
  destruct (runScanner usageDecode 0 sampleOptions "agent" usageLines)
    as [t [r|e|k]] eqn:Hrun; [|by vm_compute in Hrun..].
  exists r. split; [done|].
  pose proof (@usage_of_last_chunk Z string usageDecode 0 sampleOptions
                "agent" usageLines r) as H.
  rewrite Hrun in H. destruct (H eq_refl) as [_ Hlast].
  apply (Hlast [usageChunk (Some 1)] (usageChunk (Some 2)) [usageChunk None]).
  - by vm_compute.
  - done.
  - by repeat constructor.
Defined.

Lemma tool_calls_of_stream_witness :
  ∃ r c m, (runScanner sampleDecode 0 sampleOptions "agent" toolLines).2 = Returned r
    ∧ Choices r = [c] ∧ ChoiceMessage c = Some m
    ∧ ∀ k : nat,
        ToolCalls m !! k
        = absorbed None
            (addressed (Z.of_nat k) (chunksOf sampleDecode (scanned toolLines))).
Proof.
  destruct (runScanner sampleDecode 0 sampleOptions "agent" toolLines)
    as [t [r|e|k]] eqn:Hrun; [|by vm_compute in Hrun..].
  pose proof (@tool_calls_of_stream unit string sampleDecode 0 sampleOptions
                "agent" toolLines r) as H.
  rewrite Hrun in H.
  assert (addressed 0 (chunksOf sampleDecode (scanned toolLines)) ≠ []) as Hkey.
  { intros Heq. vm_compute in Heq. discriminate Heq. }
  destruct (H eq_refl 0 Hkey) as (c & m & Hc & Hm & Hcalls).
  exists r, c, m. split_and!; [reflexivity|exact Hc|exact Hm|exact Hcalls].
Defined.

Lemma choice_of_stream_witness :
  ∃ r c m, (runScanner sampleDecode 0 sampleOptions "agent" helloLines).2 = Returned r
    ∧ Choices r = [c] ∧ ChoiceMessage c = Some m
    ∧ c = foldl choiceAfter shellChoice
            (choicesOf (chunksOf sampleDecode (scanned helloLines)))
    ∧ Text (Content m) = Some "Hello world"
    ∧ FinishReason c = Some "stop".
Proof.
  destruct (runScanner sampleDecode 0 sampleOptions "agent" helloLines)
    as [t [r|e|k]] eqn:Hrun; [|by vm_compute in Hrun..].
  pose proof (@choice_of_stream unit string sampleDecode 0 sampleOptions
                "agent" helloLines r) as H.
  rewrite Hrun in H.
  destruct (H eq_refl)
    as (c & m & m' & Hc & Hm & Hm' & _ & Hfin & _ & Htext & _ & Hsame).
  - by vm_compute.
  - exists r, c, m. split_and!; [done..| | |].
    + apply Hsame. intros key. by vm_compute.
    + rewrite Htext. vm_compute in Hm'. by injection Hm' as <-.
    + rewrite Hfin. by vm_compute.
Defined.

Lemma early_failures_are_silent_witness :
  (complete sampleDecode sampleDecodeResponse 0 refusing sampleConfig "agent"
     sampleRequest sampleOptions).2
  = Failed (ErrTransport "connection refused")
  ∧ (complete sampleDecode sampleDecodeResponse 0 refusing sampleConfig "agent"
       sampleRequest sampleOptions).1 = [].
Proof.
  split; [reflexivity|].
  exact (@early_failures_are_silent unit unit string sampleDecode
           sampleDecodeResponse 0 refusing sampleConfig "agent" sampleRequest
           sampleOptions (ErrTransport "connection refused") eq_refl).
Defined.

Lemma stream_without_chunks_witness :
  let lines := {| scanned := [("event: ping", None); (doneLine, None)];
                  scanErr := Some ErrTooLong |} in
  (runScanner sampleDecode 0 sampleOptions "agent" lines).2
  = Returned (@zeroResponse unit)
  ∧ progressEvents (runScanner sampleDecode 0 sampleOptions "agent" lines).1 = []
  ∧ Choices (@zeroResponse unit) !! 0%nat = None.
Proof.
  intros lines.
  apply (@stream_without_chunks unit string sampleDecode 0 sampleOptions "agent"
           lines); by vm_compute.
Defined.

Lemma identifier_of_stream_witness :
  let lines := {| scanned := [(dataLine sampleNoID, None); (doneLine, None)];
                  scanErr := None |} in
  ∃ r, (runScanner sampleDecode 0 sampleOptions "agent" lines).2 = Returned r
       ∧ ID r = "".
Proof.
  intros lines.
  destruct (runScanner sampleDecode 0 sampleOptions "agent" lines)
    as [t [r|e|k]] eqn:Hrun; [|by vm_compute in Hrun..].
  exists r. split; [done|].
  pose proof (@identifier_of_stream unit string sampleDecode 0 sampleOptions
                "agent" lines r) as H.
  rewrite Hrun in H. destruct (H eq_refl) as [_ Hempty].
  apply Hempty.
  assert (chunksOf sampleDecode (scanned lines)
          = [deltaChunk "" "" 0 (textDelta "hi") None]) as ->
    by (vm_compute; reflexivity).
  by repeat constructor.
Defined.

(** A session without title whose summary answers with a picture and two
    texts, and a database that returns the session and takes the update. *)
Definition sampleAnswers : @AgentUI.Answers unit :=
  {| AgentUI.storedDescription := "";
     AgentUI.summary :=
       (Some [ {| AgentUI.contentType := "image"; AgentUI.contentText := "..." |};
               {| AgentUI.contentType := "text"; AgentUI.contentText := "Trip to Rome" |};
               {| AgentUI.contentType := "text"; AgentUI.contentText := "Other" |} ],
        None);
     AgentUI.hasManager := true;
     AgentUI.sessionState := (Some "session-1", None);
     AgentUI.dbGet := λ _, (Some {| AgentUI.Description := "";
                                    AgentUI.sessionFields := tt |}, None);
     AgentUI.dbUpdate := λ _, None |}.

Lemma title_is_first_text_witness :
  AgentUI.storedDescription sampleAnswers = ""
  ∧ ∃ contents pre c,
      AgentUI.summary sampleAnswers = (Some contents, None)
      ∧ firstText contents pre c
      ∧ "Trip to Rome" = AgentUI.contentText c
      ∧ AgentUI.describeSession sampleAnswers tt
        = [AgentUI.CallSummary "nanobot.summary" "nanobot.summary" tt;
           AgentUI.LogInfo "Generated title: %q" ["Trip to Rome"];
           AgentUI.SetDescription "Trip to Rome"]
          ++ AgentUI.updateDatabase sampleAnswers "Trip to Rome"
          ++ [AgentUI.CloseResult].
Proof.
  apply (@title_is_first_text unit unit sampleAnswers tt "Trip to Rome").
  vm_compute. do 2 right. left.
Defined.

Lemma database_updated_after_title_witness :
  let s := {| AgentUI.Description := "Trip to Rome"; AgentUI.sessionFields := tt |} in
  let t := AgentUI.describeSession (Args := unit) sampleAnswers tt in
  (∃ pre post, t = pre ++ AgentUI.DBUpdate s :: post
               ∧ AgentUI.SetDescription (AgentUI.Description s) ∈ pre
               ∧ noUpdate pre ∧ noUpdate post)
  ∧ (∃ sessionID old,
       AgentUI.hasManager sampleAnswers = true
       ∧ AgentUI.sessionState sampleAnswers = (Some sessionID, None)
       ∧ sessionID ≠ ""
       ∧ AgentUI.dbGet sampleAnswers sessionID = (Some old, None)
       ∧ AgentUI.sessionFields s = AgentUI.sessionFields old)
  ∧ (AgentUI.Sleep 200 ∈ t ↔ AgentUI.dbUpdate sampleAnswers s = None).
Proof.
  intros s t.
  apply (@database_updated_after_title unit unit sampleAnswers tt s).
  vm_compute. do 7 right. left.
Defined.
